(** * AlarmPro: the alarm-firing scheduler of app.js and sw.js

    A shallow embedding of the page script (app.js) and of the service
    worker (sw.js): the alarm records, the per-minute table of fired keys,
    the two tick functions, the ringing sequence with its audio fallback,
    dismissal, persistence and the slim projection sent to the worker. *)

From Stdlib Require Import ZArith String Ascii List Bool Lia DecimalString
  DecimalNat.
From stdpp Require Import base option list gmap strings.

Set Warnings "-register-all".

Open Scope string_scope.
Open Scope Z_scope.

(** ** JavaScript string helpers *)

Module Js.

(** Truthiness of a string: only the empty string is falsy. *)
Definition truthy (s : string) : bool :=
  match s with EmptyString => false | String _ _ => true end.

(** [String(n)] for an integer [n]. *)
Definition String_ (n : Z) : string := NilZero.string_of_int (Z.to_int n).

(** [s.padStart(2, '0')]. *)
Definition padStart2 (s : string) : string :=
  match String.length s with
  | O => "00"
  | S O => "0" +:+ s
  | _ => s
  end.

(** [s.endsWith(t)]: the last [t.length] characters of [s] are [t]. *)
Definition endsWith (s t : string) : bool :=
  let n := String.length s in
  let m := String.length t in
  (m <=? n)%nat && String.eqb (substring (n - m) m s) t.

(** [l.includes(d)] on an array of numbers. *)
Definition includes (l : list Z) (d : Z) : bool := existsb (Z.eqb d) l.

End Js.

(** [pad] of both scripts. *)
Definition pad (n : Z) : string := Js.padStart2 (Js.String_ n).

(** What the scripts read from [new Date()]. *)
Record Clock := mkClock {
  getHours : Z;
  getMinutes : Z;
  getSeconds : Z;
  getDay : Z
}.

(** The template string [`${hh}:${mm}`] built from the padded fields. *)
Definition currentMinute (now : Clock) : string :=
  pad (getHours now) +:+ ":" +:+ pad (getMinutes now).

(** ** Alarm records *)

(** A property that may be missing from the object, hold [null], or hold a
    value: the slim projection removes [audioDataUrl] altogether, while the
    save handler writes [audioDataUrl: null]. *)
Inductive field (A : Type) : Type :=
| Absent
| Null
| Present (a : A).
Arguments Absent {A}.
Arguments Null {A}.
Arguments Present {A} a.

(** The object literal of the save handler. [days = None] stands for a
    [days] property that is missing or is not an array; [audioKey] and
    [audioName] are [null] or a string. *)
Record Alarm := mkAlarm {
  id : string;
  name : string;
  time : string;
  days : option (list Z);
  category : string;
  repeat : bool;
  enabled : bool;
  audioKey : option string;
  audioDataUrl : field string;
  audioName : option string
}.

Definition set_enabled (b : bool) (a : Alarm) : Alarm :=
  {| id := id a; name := name a; time := time a; days := days a;
     category := category a; repeat := repeat a; enabled := b;
     audioKey := audioKey a; audioDataUrl := audioDataUrl a;
     audioName := audioName a |}.

(** [Array.isArray(alarm.days) && alarm.days.length > 0]. *)
Definition hasDays (a : Alarm) : bool :=
  match days a with
  | Some (_ :: _) => true
  | _ => false
  end.

(** [alarm.days.includes(currentDay)], read only when [hasDays] holds. *)
Definition daysInclude (a : Alarm) (d : Z) : bool :=
  match days a with
  | Some l => Js.includes l d
  | None => false
  end.

(** [alarm.id + '|' + currentMinute]. *)
Definition firedKey (a : Alarm) (cm : string) : string :=
  id a +:+ "|" +:+ cm.

(** ** The table of fired keys

    [firedKeys] and [swFiredKeys] are plain objects used as tables from key
    to [true]. Every key the scripts look up contains a ['|'], which no
    inherited property name does, so only own properties matter. *)

Definition isFired (keys : gmap string bool) (k : string) : bool :=
  match keys !! k with
  | Some b => b
  | None => false
  end.

(** The [for (const k in keys) if (!k.endsWith('|' + cm)) delete keys[k]]
    loop: the entries whose key ends with ['|' + cm] stay. *)
Definition purge (cm : string) (keys : gmap string bool) : gmap string bool :=
  filter (fun kv => Js.endsWith kv.1 ("|" +:+ cm) = true) keys.

(** The rollover block at the head of both tick functions: it returns the
    remembered minute and the table after it. *)
Definition rollover (cm : string) (last : option string)
    (keys : gmap string bool) : option string * gmap string bool :=
  if decide (last = Some cm) then (last, keys)
  else (Some cm, purge cm keys).

(** The guards of the scanning loop, in the order of the [continue]s. *)
Definition due (cm : string) (day : Z) (keys : gmap string bool)
    (a : Alarm) : bool :=
  if negb (enabled a) then false
  else if negb (String.eqb (time a) cm) then false
  else if hasDays a && negb (daysInclude a day) then false
  else if isFired keys (firedKey a cm) then false
  else true.

(** The [for (const alarm of alarms)] loop up to its [break]: the position
    and the record of the first alarm that passes every guard. *)
Fixpoint scan (cm : string) (day : Z) (keys : gmap string bool)
    (l : list Alarm) (i : nat) : option (nat * Alarm) :=
  match l with
  | [] => None
  | alarm :: rest =>
      if due cm day keys alarm then Some (i, alarm)
      else scan cm day keys rest (S i)
  end.

(** ** The host platform

    What the browser decides and the scripts only observe. *)

(** A value produced by [JSON.parse]. *)
Inductive JsonValue :=
| JNull
| JBool (b : bool)
| JNumber (n : Z)
| JString (s : string)
| JArray (l : list JsonValue)
| JObject (l : list (string * JsonValue)).

Record Host := mkHost {
  (** [JSON.stringify] on an array of alarm records *)
  JSON_stringify : list Alarm -> string;
  (** [JSON.parse]; [None] when it throws a SyntaxError *)
  JSON_parse : string -> option JsonValue;
  (** [localStorage.getItem] throws (storage access denied) *)
  getItem_throws : bool;
  (** [localStorage.setItem] throws on this value (quota) *)
  setItem_throws : string -> bool;
  (** [navigator.serviceWorker && navigator.serviceWorker.controller] *)
  sw_controller : bool;
  (** ['Notification' in window && Notification.permission === 'granted'] *)
  notification_granted : bool;
  (** [window.AudioContext || window.webkitAudioContext] is defined *)
  has_AudioContext : bool;
  (** [new Ctx()] throws *)
  AudioContext_throws : bool;
  (** [audio.play()] returns a promise rather than [undefined] *)
  play_returns_promise : bool;
  (** for an alarm id that is not a plain name: the markup [buildCard]
      writes from the id, or one of its selectors ['#editBtn_' + id] and
      ['#delBtn_' + id], does not give the element a listener is attached
      to (the selector is rejected, or [querySelector] returns [null]) *)
  buildCard_fails : string -> bool
}.

(** ** The page (app.js) *)

Inductive AudioSrc :=
| DataUrl (url : string)
| ObjectUrl (url : string).

(** An [Audio] element and whether it is producing sound. *)
Record AudioEl := mkAudioEl {
  src : AudioSrc;
  playing : bool
}.

(** The module-level variables of app.js together with what the page has
    written to its surroundings: the value under [STORAGE_KEY], the
    [SYNC_ALARMS] payloads posted to the worker, the cards in the two
    lists, the notifications shown, and whether the ringing overlay carries
    the class [hidden]. *)
Record Page := mkPage {
  alarms : list Alarm;
  firedKeys : gmap string bool;
  lastCheckedMinute : option string;
  currentRinging : option Alarm;
  overlayHidden : bool;
  activeAudioEl : option AudioEl;
  activeObjectUrl : option string;
  beepCtx : bool;
  beepInterval : bool;
  storage : option string;
  posted : list (list Alarm);
  cardsRegular : list Alarm;
  cardsPuasa : list Alarm;
  notifications : list Alarm
}.

Definition with_alarms (l : list Alarm) (p : Page) : Page :=
  mkPage l (firedKeys p) (lastCheckedMinute p) (currentRinging p)
    (overlayHidden p) (activeAudioEl p) (activeObjectUrl p) (beepCtx p)
    (beepInterval p) (storage p) (posted p) (cardsRegular p) (cardsPuasa p)
    (notifications p).

Definition with_fired (last : option string) (keys : gmap string bool)
    (p : Page) : Page :=
  mkPage (alarms p) keys last (currentRinging p)
    (overlayHidden p) (activeAudioEl p) (activeObjectUrl p) (beepCtx p)
    (beepInterval p) (storage p) (posted p) (cardsRegular p) (cardsPuasa p)
    (notifications p).

Definition with_currentRinging (r : option Alarm) (p : Page) : Page :=
  mkPage (alarms p) (firedKeys p) (lastCheckedMinute p) r
    (overlayHidden p) (activeAudioEl p) (activeObjectUrl p) (beepCtx p)
    (beepInterval p) (storage p) (posted p) (cardsRegular p) (cardsPuasa p)
    (notifications p).

Definition with_overlayHidden (hidden : bool) (p : Page) : Page :=
  mkPage (alarms p) (firedKeys p) (lastCheckedMinute p) (currentRinging p)
    hidden (activeAudioEl p) (activeObjectUrl p) (beepCtx p)
    (beepInterval p) (storage p) (posted p) (cardsRegular p) (cardsPuasa p)
    (notifications p).

Definition with_audio (el : option AudioEl) (url : option string)
    (p : Page) : Page :=
  mkPage (alarms p) (firedKeys p) (lastCheckedMinute p) (currentRinging p)
    (overlayHidden p) el url (beepCtx p)
    (beepInterval p) (storage p) (posted p) (cardsRegular p) (cardsPuasa p)
    (notifications p).

Definition with_beep (ctx interval : bool) (p : Page) : Page :=
  mkPage (alarms p) (firedKeys p) (lastCheckedMinute p) (currentRinging p)
    (overlayHidden p) (activeAudioEl p) (activeObjectUrl p) ctx
    interval (storage p) (posted p) (cardsRegular p) (cardsPuasa p)
    (notifications p).

Definition with_storage (s : option string) (p : Page) : Page :=
  mkPage (alarms p) (firedKeys p) (lastCheckedMinute p) (currentRinging p)
    (overlayHidden p) (activeAudioEl p) (activeObjectUrl p) (beepCtx p)
    (beepInterval p) s (posted p) (cardsRegular p) (cardsPuasa p)
    (notifications p).

Definition with_posted (m : list (list Alarm)) (p : Page) : Page :=
  mkPage (alarms p) (firedKeys p) (lastCheckedMinute p) (currentRinging p)
    (overlayHidden p) (activeAudioEl p) (activeObjectUrl p) (beepCtx p)
    (beepInterval p) (storage p) m (cardsRegular p) (cardsPuasa p)
    (notifications p).

Definition with_cards (regs puas : list Alarm) (p : Page) : Page :=
  mkPage (alarms p) (firedKeys p) (lastCheckedMinute p) (currentRinging p)
    (overlayHidden p) (activeAudioEl p) (activeObjectUrl p) (beepCtx p)
    (beepInterval p) (storage p) (posted p) regs puas
    (notifications p).

Definition with_notifications (n : list Alarm) (p : Page) : Page :=
  mkPage (alarms p) (firedKeys p) (lastCheckedMinute p) (currentRinging p)
    (overlayHidden p) (activeAudioEl p) (activeObjectUrl p) (beepCtx p)
    (beepInterval p) (storage p) (posted p) (cardsRegular p) (cardsPuasa p)
    n.

(** The state after the declarations of app.js, before its init block;
    the overlay starts hidden. *)
Definition initialPage : Page :=
  mkPage [] ∅ None None true None None false false None [] [] [] [].

(** *** Sync to the worker *)

(** The arrow function [({ audioDataUrl, ...rest }) => rest]. *)
Definition slim (a : Alarm) : Alarm :=
  {| id := id a; name := name a; time := time a; days := days a;
     category := category a; repeat := repeat a; enabled := enabled a;
     audioKey := audioKey a; audioDataUrl := Absent;
     audioName := audioName a |}.

Definition syncAlarmsToSW (h : Host) (p : Page) : Page :=
  if negb (sw_controller h) then p
  else with_posted (posted p ++ [map slim (alarms p)]) p.

(** *** Persistence *)

(** The arrow function [a => ({ ...a, audioDataUrl: null, audioName: null })]
    of the quota fallback. *)
Definition stripAudio (a : Alarm) : Alarm :=
  {| id := id a; name := name a; time := time a; days := days a;
     category := category a; repeat := repeat a; enabled := enabled a;
     audioKey := audioKey a; audioDataUrl := Null;
     audioName := None |}.

Definition saveAlarms (h : Host) (p : Page) : Page :=
  let raw := JSON_stringify h (alarms p) in
  if setItem_throws h raw then
    let raw2 := JSON_stringify h (map stripAudio (alarms p)) in
    if setItem_throws h raw2 then p
    else with_storage (Some raw2) p
  else syncAlarmsToSW h (with_storage (Some raw) p).

(** The outcome of a [try] block: a value or a thrown exception. *)
Inductive Completion (A : Type) : Type :=
| Return (a : A)
| Throw.
Arguments Return {A} a.
Arguments Throw {A}.

Definition tryCatch {A : Type} (body : Completion A) (handler : Completion A)
    : Completion A :=
  match body with
  | Return a => Return a
  | Throw => handler
  end.

Definition localStorage_getItem (h : Host) (p : Page)
    : Completion (option string) :=
  if getItem_throws h then Throw else Return (storage p).

Definition JSON_parse_c (h : Host) (raw : string) : Completion JsonValue :=
  match JSON_parse h raw with
  | Some v => Return v
  | None => Throw
  end.

(** The body of the [try] in [loadAlarms]. *)
Definition loadAlarms_body (h : Host) (p : Page)
    : Completion (list JsonValue) :=
  match localStorage_getItem h p with
  | Throw => Throw
  | Return None => Return []
  | Return (Some raw) =>
      if negb (Js.truthy raw) then Return []
      else
        match JSON_parse_c h raw with
        | Throw => Throw
        | Return (JArray parsed) => Return parsed
        | Return _ => Return []
        end
  end.

Definition loadAlarms (h : Host) (p : Page) : Completion (list JsonValue) :=
  tryCatch (loadAlarms_body h p) (Return []).

(** *** Rendering *)

(** [(a.category || 'regular')]. *)
Definition categoryOf (a : Alarm) : string :=
  if Js.truthy (category a) then category a else "regular".

(** A character that may follow [editBtn_] in a CSS identifier and stands
    for itself inside the quoted [id] attribute: an ASCII letter, a digit,
    [-] or [_]. *)
Definition nameChar (c : ascii) : bool :=
  let n := nat_of_ascii c in
  ((48 <=? n) && (n <=? 57) || (65 <=? n) && (n <=? 90)
   || (97 <=? n) && (n <=? 122) || (n =? 45) || (n =? 95))%nat.

Definition plainName (s : string) : bool :=
  forallb nameChar (list_ascii_of_string s).

(** [buildCard(alarm)] throws where it calls [addEventListener] on the
    result of a [card.querySelector] that is rejected or returns [null].
    With a plain name as the id the markup is well formed and the
    selectors [`#editBtn_${alarm.id}`] and [`#delBtn_${alarm.id}`] are
    valid and match the [id] attributes written into the card; otherwise
    the host decides. *)
Definition buildCardThrows (h : Host) (a : Alarm) : bool :=
  negb (plainName (id a)) && buildCard_fails h (id a).

(** [l.forEach(alarm => list.appendChild(buildCard(alarm)))]: the cards
    appended before the first throw, and whether [buildCard] threw. *)
Fixpoint appendCards (h : Host) (l : list Alarm) : list Alarm * bool :=
  match l with
  | [] => ([], false)
  | a :: l' =>
      if buildCardThrows h a then ([], true)
      else let '(cards, threw) := appendCards h l' in (a :: cards, threw)
  end.

Definition regs (p : Page) : list Alarm :=
  filter (fun a => categoryOf a ≠ "puasa") (alarms p).

Definition puas (p : Page) : list Alarm :=
  filter (fun a => categoryOf a = "puasa") (alarms p).

(** [renderAlarms]: the old cards are removed, both filters are computed,
    then the regular cards are appended and after them the puasa cards. A
    throw of [buildCard] leaves the script with the cards appended so far. *)
Definition renderAlarms (h : Host) (p : Page) : Page :=
  let '(cr, threw) := appendCards h (regs p) in
  if threw then with_cards cr [] p
  else with_cards cr (appendCards h (puas p)).1 p.

(** Whether that call of [renderAlarms] throws, so that the statements
    after it in the caller are skipped. *)
Definition renderThrows (h : Host) (p : Page) : bool :=
  (appendCards h (regs p)).2 || (appendCards h (puas p)).2.

(** *** Audio *)

Definition stopBeep (p : Page) : Page := with_beep false false p.

Definition stopCurrentAudio (p : Page) : Page :=
  stopBeep (with_audio None None p).

(** [playBeepFallback]: without an [AudioContext] constructor, or when the
    constructor throws, it returns without starting anything; otherwise it
    sounds one beep and installs the 800 ms interval. *)
Definition playBeepFallback (h : Host) (p : Page) : Page :=
  if negb (has_AudioContext h) then p
  else if AudioContext_throws h then p
  else with_beep true true p.

(** [new Audio(url)] followed by [play()]: the element is taken to sound
    until the host reports otherwise. *)
Definition startAudio (s : AudioSrc) (url : option string) (p : Page) : Page :=
  with_audio (Some (mkAudioEl s true)) url p.

Definition silenceElement (p : Page) : Page :=
  with_audio
    (match activeAudioEl p with
     | Some el => Some (mkAudioEl (src el) false)
     | None => None
     end)
    (activeObjectUrl p) p.

(** *** Fire and dismiss *)

Definition showWebNotification (h : Host) (alarm : Alarm) (p : Page) : Page :=
  if negb (notification_granted h) then p
  else with_notifications (notifications p ++ [alarm]) p.

(** [alarms.find(a => a.id === alarm.id) || alarm]. *)
Definition fullAlarmOf (l : list Alarm) (alarm : Alarm) : Alarm :=
  match List.find (fun a => String.eqb (id a) (id alarm)) l with
  | Some a => a
  | None => alarm
  end.

(** [fullAlarm.audioDataUrl] when truthy. *)
Definition inlineAudio (a : Alarm) : option string :=
  match audioDataUrl a with
  | Present url => if Js.truthy url then Some url else None
  | _ => None
  end.

(** [fullAlarm.audioKey] when truthy. *)
Definition blobKey (a : Alarm) : option string :=
  match audioKey a with
  | Some k => if Js.truthy k then Some k else None
  | None => None
  end.

(** [fireAlarm] up to the point where it returns to its caller: the whole
    body on the inline and on the beep branch, and everything before
    [await getAudioFromDB] on the blob branch.

    [currentRinging] keeps the record as it was when the alarm fired; after
    this assignment the scripts only test the variable for truthiness. *)
Definition fireAlarm (h : Host) (alarm : Alarm) (p : Page) : Page :=
  let p1 := with_overlayHidden false (with_currentRinging (Some alarm) p) in
  let p2 := showWebNotification h alarm p1 in
  let p3 := stopCurrentAudio p2 in
  let fullAlarm := fullAlarmOf (alarms p3) alarm in
  match inlineAudio fullAlarm with
  | Some url => startAudio (DataUrl url) None p3
  | None =>
      match blobKey fullAlarm with
      | Some _ => p3
      | None => playBeepFallback h p3
      end
  end.

(** How [await getAudioFromDB(key)] settles: rejected, resolved with
    [null], or resolved with a blob for which [URL.createObjectURL] gave
    [url]. *)
Inductive BlobResult :=
| BlobRejected
| BlobMissing
| BlobFound (url : string).

(** The rest of [fireAlarm] on the blob branch, after the [await]. *)
Definition fireAlarm_resume (h : Host) (r : BlobResult) (p : Page) : Page :=
  match r with
  | BlobFound url => startAudio (ObjectUrl url) (Some url) p
  | BlobMissing => playBeepFallback h p
  | BlobRejected => playBeepFallback h p
  end.

(** Playback did not start. Where [play()] returned a promise its [catch]
    handler runs [playBeepFallback]; where it returned [undefined] nothing
    was attached. *)
Definition onPlayFailed (h : Host) (p : Page) : Page :=
  let p1 := silenceElement p in
  if play_returns_promise h then playBeepFallback h p1 else p1.

Definition dismissAlarm (p : Page) : Page :=
  with_currentRinging None (stopCurrentAudio (with_overlayHidden true p)).

(** The [ended] listener of the audio element. *)
Definition onAudioEnded (p : Page) : Page :=
  let p1 := silenceElement p in
  match currentRinging p1 with
  | Some _ => dismissAlarm p1
  | None => p1
  end.

(** *** The foreground tick *)

(** What a tick reports: the position in the array and the record of the
    alarm it fired. *)
Definition Fired : Type := nat * Alarm.

(** [tickAlarms(now, hh, mm)]. It returns the alarm handed to [fireAlarm],
    if any, next to the new state. *)
Definition tickAlarms (h : Host) (now : Clock) (hh mm : string) (p : Page)
    : option Fired * Page :=
  let cm := hh +:+ ":" +:+ mm in
  let currentDay := getDay now in
  let ss := getSeconds now in
  let '(last, keys) := rollover cm (lastCheckedMinute p) (firedKeys p) in
  let p1 := with_fired last keys p in
  if ss >? 4 then (None, p1)
  else
    match currentRinging p1 with
    | Some _ => (None, p1)
    | None =>
        match scan cm currentDay keys (alarms p1) 0 with
        | None => (None, p1)
        | Some (i, alarm) =>
            let key := firedKey alarm cm in
            let p2 := with_fired last (<[key := true]> keys) p1 in
            let p3 := fireAlarm h alarm p2 in
            if negb (hasDays alarm) then
              let p4 := with_alarms (<[i := set_enabled false alarm]> (alarms p3)) p3 in
              (Some (i, alarm), renderAlarms h (saveAlarms h p4))
            else (Some (i, alarm), p3)
        end
    end.

(** [updateClock], the one-second timer callback, without its writes to
    the clock face. *)
Definition updateClock (h : Host) (now : Clock) (p : Page)
    : option Fired * Page :=
  tickAlarms h now (pad (getHours now)) (pad (getMinutes now)) p.

(** *** Messages from the worker *)

Inductive PageMessage :=
| NoData
| ALARM_FIRED (alarm : Alarm)
| ALARM_ACTION (action : string)
| OtherMessage.

(** [onSwMessage]; the fired alarm arrives as a structured clone. *)
Definition onSwMessage (h : Host) (m : PageMessage) (p : Page) : Page :=
  match m with
  | NoData => p
  | ALARM_FIRED alarm =>
      match currentRinging p with
      | Some _ => p
      | None => fireAlarm h alarm p
      end
  | ALARM_ACTION action =>
      let p1 := if String.eqb action "dismiss" then dismissAlarm p else p in
      if String.eqb action "snooze" then dismissAlarm p1 else p1
  | OtherMessage => p
  end.

(** *** Card controls *)

(** The [change] listener of a card's toggle: the record of the card is
    written in place and the list saved. *)
Definition onToggle (h : Host) (i : nat) (checked : bool) (p : Page) : Page :=
  match alarms p !! i with
  | Some alarm =>
      saveAlarms h (with_alarms (<[i := set_enabled checked alarm]> (alarms p)) p)
  | None => p
  end.

(** The end of the save and delete handlers: the array is replaced by its
    edited version, saved and rendered. *)
Definition onEdit (h : Host) (l : list Alarm) (p : Page) : Page :=
  renderAlarms h (saveAlarms h (with_alarms l p)).

(** Whether the [renderAlarms()] call of that handler throws. *)
Definition onEditThrows (h : Host) (l : list Alarm) (p : Page) : bool :=
  renderThrows h (saveAlarms h (with_alarms l p)).

(** *** The page as a transition system *)

Inductive Event :=
| EvClock (now : Clock)
| EvSwMessage (m : PageMessage)
| EvDismissClick
| EvEscapeKey
| EvAudioEnded
| EvPlayFailed
| EvBlobSettled (r : BlobResult)
| EvToggle (i : nat) (checked : bool)
| EvEdit (l : list Alarm).

(** One callback run to completion: the alarm a tick handed to
    [fireAlarm], and the next state. *)
Definition step (h : Host) (e : Event) (p : Page) : option Fired * Page :=
  match e with
  | EvClock now => updateClock h now p
  | EvSwMessage m => (None, onSwMessage h m p)
  | EvDismissClick => (None, dismissAlarm p)
  | EvEscapeKey => (None, dismissAlarm p)
  | EvAudioEnded => (None, onAudioEnded p)
  | EvPlayFailed => (None, onPlayFailed h p)
  | EvBlobSettled r => (None, fireAlarm_resume h r p)
  | EvToggle i checked => (None, onToggle h i checked p)
  | EvEdit l => (None, onEdit h l p)
  end.

(** A run: the alarms fired by ticks, oldest first, and the final state. *)
Fixpoint run (h : Host) (es : list Event) (p : Page) : list Fired * Page :=
  match es with
  | [] => ([], p)
  | e :: es' =>
      let '(f, p1) := step h e p in
      let '(fs, p2) := run h es' p1 in
      (match f with Some a => a :: fs | None => fs end, p2)
  end.

(** ** The service worker (sw.js) *)

(** The module-level variables of sw.js, and the alarms the worker has
    passed to [showAlarmNotification], oldest first. *)
Record Worker := mkWorker {
  swAlarms : list Alarm;
  swFiredKeys : gmap string bool;
  swLastMinute : option string;
  swNotified : list Alarm
}.

Definition initialWorker : Worker := mkWorker [] ∅ None [].

(** [checkSwAlarms]. The call [showAlarmNotification(alarm)] is recorded
    in [swNotified]; the alarm handed to it, if any, is also returned next
    to the new state. *)
Definition checkSwAlarms (now : Clock) (w : Worker) : option Fired * Worker :=
  let hh := pad (getHours now) in
  let mm := pad (getMinutes now) in
  let ss := getSeconds now in
  let cm := hh +:+ ":" +:+ mm in
  let currentDay := getDay now in
  let '(last, keys) := rollover cm (swLastMinute w) (swFiredKeys w) in
  if ss >? 30 then (None, mkWorker (swAlarms w) keys last (swNotified w))
  else
    match scan cm currentDay keys (swAlarms w) 0 with
    | None => (None, mkWorker (swAlarms w) keys last (swNotified w))
    | Some (i, alarm) =>
        let key := firedKey alarm cm in
        (Some (i, alarm),
         mkWorker (swAlarms w) (<[key := true]> keys) last
           (swNotified w ++ [alarm]))
    end.

Inductive WorkerEvent :=
| SwInterval (now : Clock)
| SwSync (payload : option (list Alarm)) (now : Clock)
| SwOther.

(** The worker's callbacks: the 30-second interval runs [checkSwAlarms];
    a [SYNC_ALARMS] message stores [event.data.alarms || []] and, through
    [startAlarmCheck], checks at once. *)
Definition swStep (e : WorkerEvent) (w : Worker) : option Fired * Worker :=
  match e with
  | SwInterval now => checkSwAlarms now w
  | SwSync payload now =>
      checkSwAlarms now
        (mkWorker (match payload with Some l => l | None => [] end)
           (swFiredKeys w) (swLastMinute w) (swNotified w))
  | SwOther => (None, w)
  end.

Fixpoint swRun (es : list WorkerEvent) (w : Worker) : list Fired * Worker :=
  match es with
  | [] => ([], w)
  | e :: es' =>
      let '(f, w1) := swStep e w in
      let '(fs, w2) := swRun es' w1 in
      (match f with Some a => a :: fs | None => fs end, w2)
  end.

(** ** The ringing sequence as the host runs it *)

(** What the host does with the audio of one fire: whether [play()] on the
    inline source fails, how the blob lookup settles, and whether [play()]
    on the blob fails. *)
Record AudioOutcome := mkOutcome {
  inline_play_fails : bool;
  blob : BlobResult;
  blob_play_fails : bool
}.

(** One fire followed by the callbacks the host schedules for it: the
    failure handler of the inline source, or the resumption after the blob
    lookup and then the failure handler of the blob source. *)
Definition ringingSequence (h : Host) (o : AudioOutcome) (alarm : Alarm)
    (p : Page) : Page :=
  let p1 := fireAlarm h alarm p in
  let fullAlarm := fullAlarmOf (alarms p) alarm in
  match inlineAudio fullAlarm with
  | Some _ => if inline_play_fails o then onPlayFailed h p1 else p1
  | None =>
      match blobKey fullAlarm with
      | Some _ =>
          let p2 := fireAlarm_resume h (blob o) p1 in
          match blob o with
          | BlobFound _ => if blob_play_fails o then onPlayFailed h p2 else p2
          | _ => p2
          end
      | None => p1
      end
  end.

(** ** Vocabulary of the properties *)

(** [days] is empty (or missing) or contains the weekday. *)
Definition onDay (a : Alarm) (day : Z) : Prop :=
  match days a with
  | Some l => l = [] \/ In day l
  | None => True
  end.

(** The four conditions under which the loop fires an alarm. *)
Definition Eligible (cm : string) (day : Z) (keys : gmap string bool)
    (a : Alarm) : Prop :=
  enabled a = true /\ time a = cm /\ onDay a day /\
  keys !! firedKey a cm <> Some true.

(** [a] sits at position [i] of [l], is eligible, and nothing before it is. *)
Definition FirstEligible (cm : string) (day : Z) (keys : gmap string bool)
    (l : list Alarm) (i : nat) (a : Alarm) : Prop :=
  l !! i = Some a /\ Eligible cm day keys a /\
  forall (j : nat) (b : Alarm),
    (j < i)%nat -> l !! j = Some b -> ~ Eligible cm day keys b.

(** The minute string an event observes, for the events that read the
    clock. *)
Definition observes (M : string) (e : Event) : Prop :=
  match e with
  | EvClock now => currentMinute now = M
  | _ => True
  end.

Definition swObserves (M : string) (e : WorkerEvent) : Prop :=
  match e with
  | SwInterval now => currentMinute now = M
  | SwSync _ now => currentMinute now = M
  | SwOther => True
  end.

(** How many of the fires reported by a run are for alarms with id [x]. *)
Definition firesOf (x : string) (fs : list Fired) : nat :=
  List.length (List.filter (fun f => String.eqb (id f.2) x) fs).

(** Every key of the table ends with ['|'] followed by the remembered
    minute. *)
Definition KeysCurrent (last : option string) (keys : gmap string bool) : Prop :=
  forall (k : string) (b : bool),
    keys !! k = Some b ->
    exists m : string, last = Some m /\ Js.endsWith k ("|" +:+ m) = true.

(** The ranges of the fields of a [Date]. *)
Definition validClock (now : Clock) : Prop :=
  0 <= getHours now < 24 /\ 0 <= getMinutes now < 60 /\
  0 <= getSeconds now < 60 /\ 0 <= getDay now < 7.

Definition validEvent (e : Event) : Prop :=
  match e with
  | EvClock now => validClock now
  | _ => True
  end.

(** The seconds an event reads from the clock are at least [s]. *)
Definition notBefore (s : Z) (e : Event) : Prop :=
  match e with
  | EvClock now => s <= getSeconds now
  | _ => True
  end.

(** The remembered minute, once set, is a five-character string. *)
Definition LastShaped (last : option string) : Prop :=
  forall m : string, last = Some m -> String.length m = 5%nat.

(** The events that leave a disabled alarm at position [i] disabled: any
    callback except switching that card's toggle on and except replacing
    the array in the save and delete handlers. *)
Definition keepsDisabled (i : nat) (e : Event) : Prop :=
  match e with
  | EvToggle j checked => j <> i \/ checked = false
  | EvEdit _ => False
  | _ => True
  end.

Definition disabledAt (i : nat) (l : list Alarm) : Prop :=
  exists a : Alarm, l !! i = Some a /\ enabled a = false.

(** Every record of [l] that carries the id [x] is disabled. *)
Definition offById (x : string) (l : list Alarm) : Prop :=
  forall a : Alarm, In a l -> id a = x -> enabled a = false.

(** The callbacks that, run in state [p], do not enable a record with the
    id [x]: any callback except switching on the toggle of a card whose
    record has that id, and except a save or delete that leaves an enabled
    record with that id in the array. *)
Definition keepsOff (x : string) (e : Event) (p : Page) : Prop :=
  match e with
  | EvToggle j checked =>
      checked = false \/ forall b : Alarm, alarms p !! j = Some b -> id b <> x
  | EvEdit l => offById x l
  | _ => True
  end.

(** Along the run of [es] from [p] no callback enables a record with the
    id [x]. *)
Fixpoint staysOff (h : Host) (x : string) (es : list Event) (p : Page) : Prop :=
  match es with
  | [] => True
  | e :: es' => keepsOff x e p /\ staysOff h x es' (step h e p).2
  end.

(** [currentRinging] holds the alarm [a]. After a tick the variable
    refers to the alarm object of the list itself, whose [enabled] flag
    the scripts write while it rings; the flag is therefore left out of
    the comparison. *)
Definition ringsFor (a : Alarm) (p : Page) : Prop :=
  exists r : Alarm,
    currentRinging p = Some r /\ set_enabled true r = set_enabled true a.

(** Any callback except the arrival of an [ALARM_FIRED] message. *)
Definition noRingMessage (e : Event) : Prop :=
  match e with
  | EvSwMessage (ALARM_FIRED _) => False
  | _ => True
  end.

(** The callbacks that run [dismissAlarm]: the dismiss button, the Escape
    key, the [ended] listener, and an [ALARM_ACTION] message whose action
    is [dismiss] or [snooze]. *)
Definition isDismissal (e : Event) : Prop :=
  match e with
  | EvDismissClick | EvEscapeKey | EvAudioEnded => True
  | EvSwMessage (ALARM_ACTION action) => action = "dismiss" \/ action = "snooze"
  | _ => False
  end.

(** Nothing sounds and the overlay is hidden. *)
Definition quiet (p : Page) : Prop :=
  overlayHidden p = true /\ activeAudioEl p = None /\
  activeObjectUrl p = None /\ beepCtx p = false /\ beepInterval p = false.

(** The spec's chain, stage by stage: inline source, then blob by key, then
    beep, each stage tried when the one before is missing or has failed. *)
Inductive Sound :=
| InlineSound (url : string)
| BlobSound (url : string)
| Beep.

Definition resolveChain (o : AudioOutcome) (fullAlarm : Alarm) : Sound :=
  let fromBlob :=
    match blobKey fullAlarm with
    | Some _ =>
        match blob o with
        | BlobFound url => if blob_play_fails o then Beep else BlobSound url
        | _ => Beep
        end
    | None => Beep
    end in
  match inlineAudio fullAlarm with
  | Some url => if inline_play_fails o then fromBlob else InlineSound url
  | None => fromBlob
  end.

(** What the page is sounding, if anything. *)
Definition soundOf (p : Page) : option Sound :=
  if beepCtx p && beepInterval p then Some Beep
  else
    match activeAudioEl p with
    | Some (mkAudioEl (DataUrl url) true) => Some (InlineSound url)
    | Some (mkAudioEl (ObjectUrl url) true) => Some (BlobSound url)
    | _ => None
    end.

(** A host on which the beep can start and playback failures are
    reported: it has an [AudioContext] whose constructor does not throw,
    and [play()] returns a promise. *)
Definition supported (h : Host) : Prop :=
  has_AudioContext h = true /\ AudioContext_throws h = false /\
  play_returns_promise h = true.

(** Some stage of the chain failed. *)
Definition stageFailed (o : AudioOutcome) (fullAlarm : Alarm) : Prop :=
  match inlineAudio fullAlarm with
  | Some _ => inline_play_fails o = true
  | None =>
      match blobKey fullAlarm with
      | Some _ =>
          match blob o with
          | BlobFound _ => blob_play_fails o = true
          | _ => True
          end
      | None => False
      end
  end.

(** ** Concrete hosts, alarms and runs *)

Definition h0 : Host :=
  mkHost (fun _ => "[]") (fun _ => None) false (fun _ => false)
    true true true false true (fun _ => false).

Definition wake : Alarm :=
  mkAlarm "a1" "Wake" "08:30" (Some []) "regular" true true None Null None.

Definition seven_a : Alarm :=
  mkAlarm "a" "Alarm" "07:00" (Some []) "regular" true true None Null None.

Definition seven_b : Alarm :=
  mkAlarm "b" "Alarm" "07:00" None "regular" true true None Null None.

Definition weekly : Alarm :=
  mkAlarm "w1" "Standup" "08:30" (Some [1; 3]) "regular" true true None Null None.

Definition minute_0830_events : list Event :=
  [EvClock (mkClock 8 30 0 3); EvDismissClick; EvClock (mkClock 8 30 1 3);
   EvClock (mkClock 8 30 2 3)].

Definition minute_0830_swEvents : list WorkerEvent :=
  [SwSync (Some [weekly]) (mkClock 8 30 0 3); SwInterval (mkClock 8 30 30 3)].

Definition rollover_events : list Event :=
  [EvClock (mkClock 8 30 1 3); EvDismissClick; EvClock (mkClock 8 31 0 3)].

Definition late_events : list Event :=
  [EvClock (mkClock 8 30 7 3); EvClock (mkClock 8 30 8 3);
   EvClock (mkClock 8 30 59 3)].

Definition after_fire_events : list Event :=
  [EvDismissClick; EvClock (mkClock 8 30 3 3); EvToggle 0 false;
   EvClock (mkClock 8 30 4 3); EvSwMessage (ALARM_ACTION "dismiss")].

(** The whole minute 08:30 observed from its second second on. *)
Definition crowded_events : list Event :=
  [EvClock (mkClock 8 30 2 3); EvClock (mkClock 8 30 3 3);
   EvClock (mkClock 8 30 4 3); EvClock (mkClock 8 30 30 3);
   EvClock (mkClock 8 30 59 3)].

(** A first observation of 08:30 at second 7, followed by the message the
    worker posts when its tick, inside its own window of 30 seconds, fires
    the alarm. *)
Definition late_message_events : list Event :=
  [EvClock (mkClock 8 30 7 3); EvSwMessage (ALARM_FIRED (slim wake))].

(** The tick of 08:30:02, a click on the dismiss button, and the message
    the worker posts when its own copy of the alarm fires. *)
Definition ring_again_events : list Event :=
  [EvClock (mkClock 8 30 2 3); EvDismissClick;
   EvSwMessage (ALARM_FIRED (slim wake))].

(** After the fire: a dismissal, later ticks, another alarm added by the
    save handler, and that alarm switched off and on. *)
Definition other_alarm_events : list Event :=
  [EvDismissClick; EvClock (mkClock 8 30 3 3);
   EvEdit [set_enabled false wake; weekly]; EvToggle 1 false;
   EvToggle 1 true; EvClock (mkClock 8 30 4 3)].

Definition with_inline : Alarm :=
  mkAlarm "k9" "Subuh" "04:30" (Some [0; 6]) "puasa" true true None
    (Present "data:audio/mp3;base64,AAAA") (Some "adzan.mp3").

(** A host whose parser knows three texts. *)
Definition h1 : Host :=
  mkHost (fun _ => "[]")
    (fun raw =>
       if String.eqb raw "[]" then Some (JArray [])
       else if String.eqb raw "[1,null]" then Some (JArray [JNumber 1; JNull])
       else if String.eqb raw "{}" then Some (JObject [])
       else None)
    false (fun _ => false) true true true false true (fun _ => false).

Definition ringing_wake : Page :=
  (updateClock h0 (mkClock 8 30 0 3) (with_alarms [wake; weekly] initialPage)).2.

Definition busy_events : list Event :=
  [EvClock (mkClock 8 30 1 3); EvSwMessage (ALARM_FIRED (slim weekly));
   EvClock (mkClock 8 30 2 3); EvToggle 1 true; EvPlayFailed].

(** ** The alarm editor (app.js): upload, save and delete handlers *)

(** What the handlers read from a [File]. *)
Record AudioFile := mkAudioFile {
  fileType : string;
  fileSize : Z;
  fileName : string
}.

Definition MAX_FILE_BYTES : Z := 20 * 1024 * 1024.

(** [s.startsWith(t)]. *)
Definition startsWith (s t : string) : bool := String.prefix t s.

(** The module-level variables of the modal. *)
Record Editor := mkEditor {
  editingId : option string;
  pendingAudioDataUrl : option string;
  pendingAudioName : option string;
  pendingAudioFile : option AudioFile;
  pendingKeepExisting : bool
}.

Definition initialEditor : Editor := mkEditor None None None None false.

Definition clearPendingAudio (ed : Editor) : Editor :=
  mkEditor (editingId ed) None None None false.

Definition closeModal (ed : Editor) : Editor :=
  mkEditor None (pendingAudioDataUrl ed) (pendingAudioName ed)
    (pendingAudioFile ed) (pendingKeepExisting ed).

Definition openAddModal (ed : Editor) : Editor :=
  clearPendingAudio (mkEditor None (pendingAudioDataUrl ed)
                       (pendingAudioName ed) None false).

(** [alarm.audioName || fallback]. *)
Definition audioNameOr (a : Alarm) (fallback : option string) : option string :=
  match audioName a with
  | Some n => if Js.truthy n then Some n else fallback
  | None => fallback
  end.

(** [alarm.audioDataUrl || alarm.audioKey] as a condition. *)
Definition hasAudio (a : Alarm) : bool :=
  match inlineAudio a, blobKey a with
  | None, None => false
  | _, _ => true
  end.

(** [openEditModal(id)]: nothing happens when no alarm carries the id. *)
Definition openEditModal (l : list Alarm) (i : string) (ed : Editor) : Editor :=
  match List.find (fun a => String.eqb (id a) i) l with
  | None => ed
  | Some alarm =>
      if hasAudio alarm then
        mkEditor (Some i) None (audioNameOr alarm (Some "audio")) None true
      else clearPendingAudio (mkEditor (Some i) (pendingAudioDataUrl ed)
                                (pendingAudioName ed) (pendingAudioFile ed)
                                (pendingKeepExisting ed))
  end.

(** [processAudioFile(file)]: a file that is not audio or is larger than
    the limit only raises a toast. *)
Definition processAudioFile (file : AudioFile) (ed : Editor) : Editor :=
  if negb (startsWith (fileType file) "audio/") then ed
  else if fileSize file >? MAX_FILE_BYTES then ed
  else mkEditor (editingId ed) None (Some (fileName file)) (Some file) false.

(** The page together with the modal's variables and the [audio] object
    store of the [alarmpro_audio] database. *)
Record App := mkApp {
  page : Page;
  editor : Editor;
  blobs : gmap string AudioFile
}.

(** What the save handler reads from the form: the trimmed time and name,
    the days of the selected buttons in document order, the category and
    the repeat box. *)
Record Form := mkForm {
  formTime : string;
  formName : string;
  selectedDays : list Z;
  formCategory : string;
  formRepeat : bool
}.

(** [editingId] when it is truthy, as [if (editingId)] and
    [editingId || uid()] test it. *)
Definition editedId (ed : Editor) : option string :=
  match editingId ed with
  | Some i => if Js.truthy i then Some i else None
  | None => None
  end.

(** [editingId || uid()], with [fresh] the value [uid()] would give. *)
Definition pickId (ed : Editor) (fresh : string) : string :=
  match editedId ed with
  | Some i => i
  | None => fresh
  end.

(** [l.findIndex(f)], [None] for [-1]. *)
Fixpoint findIndex {A : Type} (f : A -> bool) (l : list A) : option nat :=
  match l with
  | [] => None
  | x :: rest => if f x then Some 0%nat else S <$> findIndex f rest
  end.

(** The object literal [data] of the save handler. *)
Definition formData (f : Form) (newId : string) (key name_ : option string)
    : Alarm :=
  {| id := newId;
     name := if Js.truthy (formName f) then formName f else "Alarm";
     time := formTime f;
     days := Some (selectedDays f);
     category := if Js.truthy (formCategory f) then formCategory f else "regular";
     repeat := formRepeat f;
     enabled := true;
     audioKey := key;
     audioDataUrl := Null;
     audioName := name_ |}.

(** The [if (editingId) ... else ...] block that stores [data]: in place of
    the first alarm with the edited id, else at the end. *)
Definition storeData (ed : Editor) (data : Alarm) (l : list Alarm) : list Alarm :=
  match editedId ed with
  | Some eid =>
      match findIndex (fun a => String.eqb (id a) eid) l with
      | Some idx => <[idx := data]> l
      | None => l ++ [data]
      end
  | None => l ++ [data]
  end.

(** The click handler of the save button, run without another callback
    between its awaits. [fresh] is what [uid()] returns and [dbOk] tells
    whether the database request of this click succeeds. The handler ends
    with [saveAlarms(); renderAlarms(); closeModal();], so the modal stays
    open when [renderAlarms] throws. *)
Definition onSaveClick (h : Host) (fresh : string) (dbOk : bool) (f : Form)
    (s : App) : App :=
  if negb (Js.truthy (formTime f)) then s
  else
    let ed := editor s in
    let newId := pickId ed fresh in
    let finish (key name_ : option string) (store : gmap string AudioFile) :=
      let data := formData f newId key name_ in
      let l := storeData ed data (alarms (page s)) in
      mkApp (onEdit h l (page s))
        (if onEditThrows h l (page s) then ed else closeModal ed) store in
    match pendingAudioFile ed with
    | Some file =>
        if dbOk then
          finish (Some newId) (pendingAudioName ed) (<[newId := file]> (blobs s))
        else s
    | None =>
        match editedId ed with
        | Some eid =>
            match List.find (fun a => String.eqb (id a) eid) (alarms (page s)) with
            | Some old =>
                if pendingKeepExisting ed then
                  finish (blobKey old) (audioNameOr old None) (blobs s)
                else
                  match blobKey old with
                  | Some k =>
                      finish None None
                        (if dbOk then delete k (blobs s) else blobs s)
                  | None => finish None None (blobs s)
                  end
            | None => finish None None (blobs s)
            end
        | None => finish None None (blobs s)
        end
    end.

(** The click handler of a card's delete button, run without another
    callback during its await; [alarm] is the record the card was built
    from. *)
Definition onDeleteClick (h : Host) (dbOk : bool) (alarm : Alarm) (s : App)
    : App :=
  let store :=
    match blobKey alarm with
    | Some k => if dbOk then delete k (blobs s) else blobs s
    | None => blobs s
    end in
  mkApp
    (onEdit h
       (List.filter (fun a => negb (String.eqb (id a) (id alarm)))
          (alarms (page s)))
       (page s))
    (editor s) store.

(** [getAudioFromDB(key)] as [fireAlarm] awaits it: [req.result || null]
    when the request succeeds; [mkUrl] stands for [URL.createObjectURL]. *)
Definition getAudioFromDB (dbOk : bool) (mkUrl : AudioFile -> string)
    (key : string) (store : gmap string AudioFile) : BlobResult :=
  if dbOk then
    match store !! key with
    | Some file => BlobFound (mkUrl file)
    | None => BlobMissing
    end
  else BlobRejected.

(** ** The init line of app.js *)

Module Boot.

(** Truthiness of a parsed value. *)
Definition truthy (v : JsonValue) : bool :=
  match v with
  | JNull => false
  | JBool b => b
  | JNumber n => negb (n =? 0)
  | JString s => Js.truthy s
  | JArray _ => true
  | JObject _ => true
  end.

Definition indexKey (i : nat) : string :=
  NilZero.string_of_uint (Nat.to_uint i).

Fixpoint indexed {A : Type} (i : nat) (l : list A) : list (string * A) :=
  match l with
  | [] => []
  | x :: rest => (indexKey i, x) :: indexed (S i) rest
  end.

(** A string of the model holds the UTF-8 bytes of a JavaScript string (a
    lone surrogate as the three bytes of its code). [codeUnits] cuts it
    where the UTF-16 code units of the JavaScript string end: a character
    of one, two or three bytes is one code unit, a character of four bytes
    is a surrogate pair. A byte that starts no well-formed character
    stands alone. *)
Definition isCont (c : ascii) : bool :=
  let n := N_of_ascii c in ((128 <=? n) && (n <? 192))%N.

(** The code unit [u], at least [0x800], as three bytes. *)
Definition unit3 (u : N) : string :=
  String (ascii_of_N (224 + u / 4096))
    (String (ascii_of_N (128 + (u / 64) mod 64))
       (String (ascii_of_N (128 + u mod 64)) EmptyString)).

Fixpoint codeUnits (s : string) : list string :=
  match s with
  | EmptyString => []
  | String c1 r1 =>
      let n1 := N_of_ascii c1 in
      let single := String c1 EmptyString :: codeUnits r1 in
      if (n1 <? 192)%N then single
      else
        match r1 with
        | String c2 r2 =>
            if negb (isCont c2) then single
            else if (n1 <? 224)%N then
              String c1 (String c2 EmptyString) :: codeUnits r2
            else
              match r2 with
              | String c3 r3 =>
                  if negb (isCont c3) then single
                  else if (n1 <? 240)%N then
                    String c1 (String c2 (String c3 EmptyString))
                      :: codeUnits r3
                  else
                    match r3 with
                    | String c4 r4 =>
                        if negb (isCont c4) then single
                        else
                          let cp :=
                            ((n1 mod 8) * 262144
                             + (N_of_ascii c2 mod 64) * 4096
                             + (N_of_ascii c3 mod 64) * 64
                             + N_of_ascii c4 mod 64)%N in
                          let v := (cp - 65536)%N in
                          unit3 (55296 + v / 1024)
                            :: unit3 (56320 + v mod 1024) :: codeUnits r4
                    | EmptyString => single
                    end
              | EmptyString => single
              end
        | EmptyString => single
        end
  end.

(** The characters of a string as [{ ...s }] and [s[i]] see them: one
    string of a single UTF-16 code unit per index. *)
Definition chars (s : string) : list JsonValue :=
  map JString (codeUnits s).

(** The own enumerable properties copied by [{ ...a }]. *)
Definition spread (a : JsonValue) : list (string * JsonValue) :=
  match a with
  | JObject fields => fields
  | JArray l => indexed 0 l
  | JString s => indexed 0 (chars s)
  | _ => []
  end.

Fixpoint lookupProp (k : string) (fields : list (string * JsonValue))
    : option JsonValue :=
  match fields with
  | [] => None
  | (k', v) :: rest => if String.eqb k' k then Some v else lookupProp k rest
  end.

(** [a.category]: a TypeError on [null], [undefined] on values without
    the property. *)
Definition getCategory (a : JsonValue) : Completion (option JsonValue) :=
  match a with
  | JNull => Throw
  | JObject fields => Return (lookupProp "category" fields)
  | _ => Return None
  end.

(** The value [a.category || 'regular'] of an element that is not
    [null]. *)
Definition categoryOr (a : JsonValue) : JsonValue :=
  match a with
  | JObject fields =>
      match lookupProp "category" fields with
      | Some v => if truthy v then v else JString "regular"
      | None => JString "regular"
      end
  | _ => JString "regular"
  end.

(** Writing a property of an object literal under construction: an
    existing key keeps its place. *)
Fixpoint setProp (k : string) (v : JsonValue)
    (fields : list (string * JsonValue)) : list (string * JsonValue) :=
  match fields with
  | [] => [(k, v)]
  | (k', v') :: rest =>
      if String.eqb k' k then (k', v) :: rest
      else (k', v') :: setProp k v rest
  end.

(** The arrow function [a => ({ ...a, category: a.category || 'regular' })]. *)
Definition withCategory (a : JsonValue) : Completion JsonValue :=
  match getCategory a with
  | Throw => Throw
  | Return c =>
      let cat :=
        match c with
        | Some v => if truthy v then v else JString "regular"
        | None => JString "regular"
        end in
      Return (JObject (setProp "category" cat (spread a)))
  end.

(** [l.map(f)] for a callback that may throw. *)
Fixpoint mapC {A B : Type} (f : A -> Completion B) (l : list A)
    : Completion (list B) :=
  match l with
  | [] => Return []
  | x :: rest =>
      match f x with
      | Throw => Throw
      | Return y =>
          match mapC f rest with
          | Throw => Throw
          | Return ys => Return (y :: ys)
          end
      end
  end.

(** [loadAlarms().map(a => ({ ...a, category: a.category || 'regular' }))]. *)
Definition initAlarms (h : Host) (p : Page) : Completion (list JsonValue) :=
  match loadAlarms h p with
  | Throw => Throw
  | Return l => mapC withCategory l
  end.

End Boot.

(** ** The worker's interval and notifications (sw.js) *)

(** [swCheckInterval] and the handles of the intervals that are running. *)
Record SwTimers := mkSwTimers {
  swCheckInterval : option positive;
  running : gset positive
}.

Definition initialSwTimers : SwTimers := mkSwTimers None ∅.

(** The timer part of [startAlarmCheck]; [handle] is what [setInterval]
    returns. *)
Definition startAlarmCheck (handle : positive) (t : SwTimers) : SwTimers :=
  let cleared :=
    match swCheckInterval t with
    | Some old => running t ∖ {[old]}
    | None => running t
    end in
  mkSwTimers (Some handle) (cleared ∪ {[handle]}).

(** A window client as the worker sees it: whether its URL contains
    ['/timer/'] and whether it is focused. *)
Record Client := mkClient {
  clientNo : nat;
  inTimerPath : bool;
  focused : bool
}.

(** The options of the notification the worker raises. *)
Record SwNotification := mkSwNotification {
  nTitle : string;
  nBody : string;
  nTag : string;
  nData : string * string * string;
  nActions : list string
}.

(** [alarm.name || 'Alarm']. *)
Definition nameOrAlarm (a : Alarm) : string :=
  if Js.truthy (name a) then name a else "Alarm".

(** [showAlarmNotification(alarm)] once [clients.matchAll] has resolved:
    the notification and the messages posted, one per client. *)
Definition showAlarmNotification (alarm : Alarm) (clients : list Client)
    : SwNotification * list (Client * PageMessage) :=
  (mkSwNotification
     ("⏰ Alarm: " +:+ nameOrAlarm alarm)
     ("Waktunya " +:+ time alarm +:+ " — " +:+ nameOrAlarm alarm)
     ("alarmpro-" +:+ id alarm)
     (id alarm, time alarm, name alarm)
     ["dismiss"],
   map (fun c => (c, ALARM_FIRED alarm)) clients).

(** Where [notificationclick] sends its message. *)
Inductive ClickTarget :=
| ToClient (c : Client)
| ToNewWindow
| Nowhere.

(** The [notificationclick] handler: the first client under ['/timer/'] is
    focused and told, else a window is opened and, when that gave a
    client, told after the delay. [focusOk] says whether [focus()]
    resolved, [opened] whether [openWindow] resolved with a client. *)
Definition notificationclick (action : string) (clients : list Client)
    (focusOk opened : bool) : ClickTarget * option PageMessage :=
  match List.find inTimerPath clients with
  | Some c =>
      if focusOk then (ToClient c, Some (ALARM_ACTION action))
      else (Nowhere, None)
  | None =>
      if opened then (ToNewWindow, Some (ALARM_ACTION action))
      else (Nowhere, None)
  end.

(** ** Inputs for the further properties *)

Definition sahur : Alarm :=
  mkAlarm "s1" "Sahur" "03:45" (Some []) "puasa" true true None Null None.

Definition uncategorised : Alarm :=
  mkAlarm "u1" "Nap" "13:00" (Some [2]) "" true false None Null None.

(** A host whose storage refuses every write. *)
Definition h_full : Host :=
  mkHost (fun _ => "[]") (fun _ => None) false (fun _ => true)
    true true true false true (fun _ => false).

(** A worker event other than a [SYNC_ALARMS] message. *)
Definition noSync (e : WorkerEvent) : Prop :=
  match e with
  | SwSync _ _ => False
  | _ => True
  end.

(** The timers after a series of [startAlarmCheck] calls, the oldest
    handle first. *)
Definition startAlarmChecks (handles : list positive) (t : SwTimers) : SwTimers :=
  fold_left (fun t' handle => startAlarmCheck handle t') handles t.

(** [running] holds the handle in [swCheckInterval] and nothing else. *)
Definition oneInterval (t : SwTimers) : Prop :=
  running t =
    match swCheckInterval t with
    | Some handle => {[handle]}
    | None => ∅
    end.

(** ** The page with its editor as a transition system *)

Inductive AppEvent :=
| AeSave (fresh : string) (dbOk : bool) (f : Form)
| AeDelete (dbOk : bool) (alarm : Alarm)
| AeOpenAdd
| AeOpenEdit (i : string)
| AeCloseModal
| AeUpload (file : AudioFile)
| AeRemoveUpload
| AePage (e : Event).

Definition withEditor (ed : Editor) (s : App) : App :=
  mkApp (page s) ed (blobs s).

Definition appStep (h : Host) (e : AppEvent) (s : App) : App :=
  match e with
  | AeSave fresh dbOk f => onSaveClick h fresh dbOk f s
  | AeDelete dbOk alarm => onDeleteClick h dbOk alarm s
  | AeOpenAdd => withEditor (openAddModal (editor s)) s
  | AeOpenEdit i => withEditor (openEditModal (alarms (page s)) i (editor s)) s
  | AeCloseModal => withEditor (closeModal (editor s)) s
  | AeUpload file => withEditor (processAudioFile file (editor s)) s
  | AeRemoveUpload => withEditor (clearPendingAudio (editor s)) s
  | AePage e =>
      mkApp (step h e (page s)).2
        (match e with
         | EvEscapeKey => closeModal (editor s)
         | _ => editor s
         end)
        (blobs s)
  end.


Fixpoint appRun (h : Host) (es : list AppEvent) (s : App) : App :=
  match es with
  | [] => s
  | e :: es' => appRun h es' (appStep h e s)
  end.



Definition initialApp : App := mkApp initialPage initialEditor ∅.

Definition morning_form : Form :=
  mkForm "06:15" "" [1; 2; 3; 4; 5] "" true.

Definition adzan_file : AudioFile :=
  mkAudioFile "audio/mpeg" 4096 "adzan.mp3".

Definition two_alarms : App :=
  mkApp (with_alarms [set_enabled false wake; with_inline] initialPage)
    (openEditModal [set_enabled false wake; with_inline] "k9" initialEditor) ∅.


Definition editor_session : list AppEvent :=
  [AeOpenAdd; AeUpload adzan_file; AeSave "n1" true morning_form;
   AeOpenEdit "n1"; AeSave "zz" false morning_form;
   AePage (EvClock (mkClock 6 15 1 1)); AePage EvDismissClick;
   AePage (EvToggle 0 false)].

(** An alarm with a stored blob, and the state that holds it. *)
Definition keyed_alarm : Alarm :=
  mkAlarm "n1" "Subuh" "04:30" (Some []) "puasa" true false
    (Some "n1") Null (Some "adzan.mp3").

Definition keyed_app : App :=
  mkApp (with_alarms [wake; keyed_alarm] initialPage) initialEditor
    {["n1" := adzan_file]}.

(** A host whose parser reads the stored text [saved] as an array of one
    alarm object without a category and one string. *)
Definition h_saved : Host :=
  mkHost (fun _ => "[]")
    (fun raw =>
       if String.eqb raw "saved"
       then Some (JArray [JObject [("id", JString "a1")]; JString "é"])
       else None)
    false (fun _ => false) true true true false true (fun _ => false).

(** A host on which no card can be built for an id that is not a plain
    name, and a stored alarm with such an id. *)
Definition h_strict : Host :=
  mkHost (fun _ => "[]") (fun _ => None) false (fun _ => false)
    true true true false true (fun _ => true).

Definition spaced : Alarm :=
  mkAlarm "my alarm" "Imported" "09:00" (Some []) "regular" true true None
    Null None.

(** ** Sanity checks on concrete inputs *)

Example pad_7 : pad 7 = "07".
Proof. reflexivity. Qed.

Example pad_23 : pad 23 = "23".
Proof. reflexivity. Qed.

Example minute_0830 : currentMinute (mkClock 8 30 2 3) = "08:30".
Proof. reflexivity. Qed.

Example endsWith_yes : Js.endsWith "a1|08:30" "|08:30" = true.
Proof. reflexivity. Qed.

Example endsWith_no : Js.endsWith "a1|08:29" "|08:30" = false.
Proof. reflexivity. Qed.

Example tick_0830_02 :
  (updateClock h0 (mkClock 8 30 2 3) (with_alarms [wake] initialPage)).1
  = Some (0%nat, wake).
Proof. vm_compute. reflexivity. Qed.

Example tick_0830_07 :
  (updateClock h0 (mkClock 8 30 7 3) (with_alarms [wake] initialPage)).1
  = None.
Proof. vm_compute. reflexivity. Qed.

(** * Properties *)

(** ** Strings *)

Section Strings.

Lemma length_append (s t : string) :
  String.length (s +:+ t) = (String.length s + String.length t)%nat.
Proof. induction s as [|c s IH]; simpl; [reflexivity | now rewrite IH]. Qed.

Lemma substring_whole (s : string) : substring 0 (String.length s) s = s.
Proof. induction s as [|c s IH]; simpl; [reflexivity | now rewrite IH]. Qed.

Lemma substring_append_tail (x t : string) :
  substring (String.length x) (String.length t) (x +:+ t) = t.
Proof. induction x as [|c x IH]; simpl; [apply substring_whole | exact IH]. Qed.

Lemma substring_split (k : string) :
  forall i m : nat, (i + m)%nat = String.length k ->
    k = substring 0 i k +:+ substring i m k.
Proof.
  induction k as [|c k IH]; intros i m Hlen; simpl in Hlen.
  - destruct i, m; simpl in *; try discriminate; reflexivity.
  - destruct i as [|i]; simpl in *.
    + subst m. simpl. now rewrite substring_whole.
    + change (String c k = String c (substring 0 i k +:+ substring i m k)).
      f_equal. apply IH. lia.
Qed.

Lemma endsWith_append (x t : string) : Js.endsWith (x +:+ t) t = true.
Proof.
  unfold Js.endsWith. rewrite length_append.
  apply andb_true_intro; split.
  - apply Nat.leb_le. lia.
  - replace (String.length x + String.length t - String.length t)%nat
      with (String.length x) by lia.
    rewrite substring_append_tail. apply String.eqb_refl.
Qed.

Lemma endsWith_inv (k t : string) :
  Js.endsWith k t = true -> exists x, k = x +:+ t.
Proof.
  unfold Js.endsWith. intros H.
  apply andb_prop in H as [Hle Heq].
  apply Nat.leb_le in Hle. apply String.eqb_eq in Heq.
  exists (substring 0 (String.length k - String.length t) k).
  rewrite <- Heq at 2. apply substring_split. lia.
Qed.

Lemma endsWith_length (k t : string) :
  Js.endsWith k t = true -> (String.length t <= String.length k)%nat.
Proof.
  unfold Js.endsWith. intros H. apply andb_prop in H as [Hle _].
  now apply Nat.leb_le.
Qed.

(** Two suffixes of one string that have the same length are equal. *)
Lemma endsWith_same_length (k s t : string) :
  Js.endsWith k s = true -> Js.endsWith k t = true ->
  String.length s = String.length t -> s = t.
Proof.
  unfold Js.endsWith. intros Hs Ht Hlen.
  apply andb_prop in Hs as [_ Hs]. apply andb_prop in Ht as [_ Ht].
  apply String.eqb_eq in Hs. apply String.eqb_eq in Ht.
  rewrite <- Hs, <- Ht, Hlen. reflexivity.
Qed.

Lemma firedKey_endsWith (a : Alarm) (cm : string) :
  Js.endsWith (firedKey a cm) ("|" +:+ cm) = true.
Proof. unfold firedKey. apply endsWith_append. Qed.

End Strings.

(** ** The table of fired keys *)

Section Table.

Implicit Types (keys : gmap string bool) (k cm : string).

Lemma purge_lookup_Some keys cm k b :
  purge cm keys !! k = Some b <->
  keys !! k = Some b /\ Js.endsWith k ("|" +:+ cm) = true.
Proof. unfold purge. rewrite map_lookup_filter_Some. reflexivity. Qed.

Lemma purge_keeps keys cm k :
  Js.endsWith k ("|" +:+ cm) = true -> purge cm keys !! k = keys !! k.
Proof.
  intros Hend. destruct (keys !! k) as [b|] eqn:Hk.
  - apply purge_lookup_Some. split; assumption.
  - destruct (purge cm keys !! k) as [b|] eqn:Hp; [|reflexivity].
    apply purge_lookup_Some in Hp as [Hp _]. congruence.
Qed.

Lemma purge_drops keys cm k :
  Js.endsWith k ("|" +:+ cm) = false -> purge cm keys !! k = None.
Proof.
  intros Hend. destruct (purge cm keys !! k) as [b|] eqn:Hp; [|reflexivity].
  apply purge_lookup_Some in Hp as [_ Hp]. congruence.
Qed.

Lemma rollover_last cm last keys :
  (rollover cm last keys).1 = Some cm.
Proof. unfold rollover. destruct (decide (last = Some cm)); simpl; auto. Qed.

Lemma rollover_same cm keys :
  rollover cm (Some cm) keys = (Some cm, keys).
Proof. unfold rollover. destruct (decide _); [reflexivity | congruence]. Qed.

Lemma rollover_fresh cm last keys :
  last <> Some cm -> rollover cm last keys = (Some cm, purge cm keys).
Proof. unfold rollover. intros H. destruct (decide _); [contradiction | reflexivity]. Qed.

(** The rollover block never adds an entry. *)
Lemma rollover_sub cm last keys k b :
  (rollover cm last keys).2 !! k = Some b -> keys !! k = Some b.
Proof.
  unfold rollover. destruct (decide _); simpl; [auto|].
  intros H. now apply purge_lookup_Some in H.
Qed.

(** It keeps every entry of the observed minute. *)
Lemma rollover_keeps cm last keys k :
  Js.endsWith k ("|" +:+ cm) = true ->
  (rollover cm last keys).2 !! k = keys !! k.
Proof.
  unfold rollover. destruct (decide _); simpl; [auto|]. apply purge_keeps.
Qed.

Lemma isFired_insert keys k : isFired (<[k := true]> keys) k = true.
Proof. unfold isFired. now rewrite lookup_insert_eq. Qed.

Lemma isFired_insert_mono keys k k' :
  isFired keys k' = true -> isFired (<[k := true]> keys) k' = true.
Proof.
  unfold isFired. destruct (decide (k = k')) as [->|Hne].
  - now rewrite lookup_insert_eq.
  - now rewrite lookup_insert_ne.
Qed.

Lemma isFired_rollover cm last keys k :
  Js.endsWith k ("|" +:+ cm) = true ->
  isFired (rollover cm last keys).2 k = isFired keys k.
Proof. intros H. unfold isFired. now rewrite rollover_keeps. Qed.

End Table.

(** ** The scanning loop *)

Section Scan.

Variables (cm : string) (day : Z) (keys : gmap string bool).

Lemma includes_In (l : list Z) (d : Z) : Js.includes l d = true <-> In d l.
Proof.
  unfold Js.includes. rewrite existsb_exists. split.
  - intros (x & Hx & Heq). apply Z.eqb_eq in Heq. now subst.
  - intros H. exists d. split; [exact H | apply Z.eqb_refl].
Qed.

Lemma dayGuard_onDay (a : Alarm) :
  hasDays a && negb (daysInclude a day) = false <-> onDay a day.
Proof.
  unfold hasDays, daysInclude, onDay.
  destruct (days a) as [[|d l]|]; simpl; try tauto.
  rewrite negb_false_iff.
  change (Js.includes (d :: l) day = true <-> (d :: l = [] \/ In day (d :: l))).
  rewrite includes_In. split; [auto|]. intros [H|H]; [discriminate | exact H].
Qed.

Lemma isFired_false (k : string) :
  isFired keys k = false <-> keys !! k <> Some true.
Proof.
  unfold isFired. destruct (keys !! k) as [[|]|]; split; congruence.
Qed.

Lemma due_Eligible (a : Alarm) : due cm day keys a = true <-> Eligible cm day keys a.
Proof.
  unfold due, Eligible.
  rewrite <- dayGuard_onDay, <- isFired_false, <- String.eqb_eq.
  destruct (enabled a), (String.eqb (time a) cm),
    (hasDays a && negb (daysInclude a day)),
    (isFired keys (firedKey a cm)); simpl; intuition congruence.
Qed.

Lemma due_not_Eligible (a : Alarm) :
  due cm day keys a = false <-> ~ Eligible cm day keys a.
Proof.
  rewrite <- due_Eligible. destruct (due cm day keys a); split; congruence.
Qed.

Lemma scan_Some (l : list Alarm) :
  forall (n i : nat) (a : Alarm),
    scan cm day keys l n = Some (i, a) <->
    exists j : nat, i = (n + j)%nat /\ FirstEligible cm day keys l j a.
Proof.
  induction l as [|b l IH]; intros n i a; simpl.
  - split; [discriminate|]. intros (j & _ & Hj & _). discriminate.
  - destruct (due cm day keys b) eqn:Hb.
    + split.
      * intros [= <- <-]. exists 0%nat. split; [lia|].
        split; [reflexivity|]. split; [now apply due_Eligible|].
        intros j c Hj. lia.
      * intros (j & -> & Hj & Ha & Hmin). destruct j as [|j].
        -- simpl in Hj. injection Hj as ->. do 2 f_equal. lia.
        -- exfalso. apply (Hmin 0%nat b); [lia | reflexivity |].
           now apply due_Eligible.
    + rewrite IH. split.
      * intros (j & -> & Hj & Ha & Hmin). exists (S j). split; [lia|].
        split; [exact Hj|]. split; [exact Ha|].
        intros [|j'] c Hlt Hc.
        -- simpl in Hc. injection Hc as <-. now apply due_not_Eligible.
        -- apply (Hmin j' c); [lia | exact Hc].
      * intros (j & -> & Hj & Ha & Hmin). destruct j as [|j].
        -- simpl in Hj. injection Hj as ->.
           apply due_not_Eligible in Hb. contradiction.
        -- exists j. split; [lia|]. split; [exact Hj|]. split; [exact Ha|].
           intros j' c Hlt Hc. apply (Hmin (S j') c); [lia | exact Hc].
Qed.

Lemma scan_None (l : list Alarm) :
  forall n : nat,
    scan cm day keys l n = None <->
    forall a : Alarm, In a l -> ~ Eligible cm day keys a.
Proof.
  induction l as [|b l IH]; intros n; simpl.
  - split; [intros _ a [] | reflexivity].
  - destruct (due cm day keys b) eqn:Hb.
    + split; [discriminate|]. intros H. exfalso.
      apply (H b); [now left | now apply due_Eligible].
    + rewrite IH. split.
      * intros H a [<-|Ha]; [now apply due_not_Eligible | now apply H].
      * intros H a Ha. apply H. now right.
Qed.

Lemma scan_first (l : list Alarm) (i : nat) (a : Alarm) :
  scan cm day keys l 0 = Some (i, a) <-> FirstEligible cm day keys l i a.
Proof.
  rewrite scan_Some. split.
  - intros (j & -> & H). exact H.
  - intros H. exists i. split; [reflexivity | exact H].
Qed.

End Scan.

(** ** What each operation leaves alone *)

Ltac page_ops :=
  unfold onSwMessage, onToggle, onEdit, onAudioEnded, onPlayFailed,
    fireAlarm_resume, dismissAlarm, fireAlarm, renderAlarms, saveAlarms,
    syncAlarmsToSW, showWebNotification, playBeepFallback, startAudio,
    silenceElement, stopCurrentAudio, stopBeep in *.

Ltac frame := intros; page_ops; repeat case_match; reflexivity.

Section Frame.

Variable h : Host.

Lemma saveAlarms_alarms p : alarms (saveAlarms h p) = alarms p.
Proof. frame. Qed.

Lemma saveAlarms_fired p :
  firedKeys (saveAlarms h p) = firedKeys p /\
  lastCheckedMinute (saveAlarms h p) = lastCheckedMinute p.
Proof. split; frame. Qed.

Lemma saveAlarms_ringing p :
  currentRinging (saveAlarms h p) = currentRinging p /\
  overlayHidden (saveAlarms h p) = overlayHidden p.
Proof. split; frame. Qed.

Lemma renderAlarms_alarms p : alarms (renderAlarms h p) = alarms p.
Proof. frame. Qed.

(** [renderAlarms] writes the two lists of cards and nothing else. *)
Lemma renderAlarms_cards p :
  exists cr cp : list Alarm, renderAlarms h p = with_cards cr cp p.
Proof.
  unfold renderAlarms. destruct (appendCards h (regs p)) as [cr [|]]; eauto.
Qed.

Lemma renderAlarms_posted p :
  posted (renderAlarms h p) = posted p /\ storage (renderAlarms h p) = storage p.
Proof. split; frame. Qed.

Lemma fireAlarm_alarms a p : alarms (fireAlarm h a p) = alarms p.
Proof. frame. Qed.

Lemma fireAlarm_fired a p :
  firedKeys (fireAlarm h a p) = firedKeys p /\
  lastCheckedMinute (fireAlarm h a p) = lastCheckedMinute p.
Proof. split; frame. Qed.

Lemma fireAlarm_ringing a p :
  currentRinging (fireAlarm h a p) = Some a /\
  overlayHidden (fireAlarm h a p) = false.
Proof. split; frame. Qed.

Lemma fireAlarm_storage a p :
  storage (fireAlarm h a p) = storage p /\ posted (fireAlarm h a p) = posted p.
Proof. split; frame. Qed.

End Frame.

(** ** Rendering *)

Section Rendering.

Variable h : Host.

Lemma plainName_builds (a : Alarm) :
  plainName (id a) = true -> buildCardThrows h a = false.
Proof. unfold buildCardThrows. now intros ->. Qed.

(** The cards appended are those before the first alarm whose card cannot
    be built. *)
Lemma appendCards_spec (l : list Alarm) :
  match appendCards h l with
  | (cards, false) =>
      cards = l /\ forall b : Alarm, In b l -> buildCardThrows h b = false
  | (cards, true) =>
      exists (a : Alarm) (rest : list Alarm),
        l = (cards ++ a :: rest)%list /\ buildCardThrows h a = true /\
        forall b : Alarm, In b cards -> buildCardThrows h b = false
  end.
Proof.
  induction l as [|a l IH]; simpl.
  - split; [reflexivity|]. intros b [].
  - destruct (buildCardThrows h a) eqn:Ha.
    + exists a, l. split; [reflexivity|]. split; [exact Ha|]. intros b [].
    + destruct (appendCards h l) as [cards [|]].
      * destruct IH as (x & rest & -> & Hx & Hcards).
        exists x, rest. split; [reflexivity|]. split; [exact Hx|].
        intros b [<-|Hb]; [exact Ha | now apply Hcards].
      * destruct IH as [-> Hall]. split; [reflexivity|].
        intros b [<-|Hb]; [exact Ha | now apply Hall].
Qed.

Lemma appendCards_safe (l : list Alarm) :
  (forall b : Alarm, In b l -> buildCardThrows h b = false) ->
  appendCards h l = (l, false).
Proof.
  intros Hall. pose proof (appendCards_spec l) as Hspec.
  destruct (appendCards h l) as [cards [|]].
  - destruct Hspec as (a & rest & Hl & Ha & _).
    rewrite Hall in Ha; [discriminate|]. rewrite Hl. apply in_elt.
  - destruct Hspec as [-> _]. reflexivity.
Qed.

Lemma regs_In (p : Page) (b : Alarm) : In b (regs p) -> In b (alarms p).
Proof.
  unfold regs. rewrite <- !list_elem_of_In, list_elem_of_filter. tauto.
Qed.

Lemma puas_In (p : Page) (b : Alarm) : In b (puas p) -> In b (alarms p).
Proof.
  unfold puas. rewrite <- !list_elem_of_In, list_elem_of_filter. tauto.
Qed.

(** When every card can be built [renderAlarms] returns normally with
    both lists complete. *)
Lemma renderAlarms_safe (p : Page) :
  (forall b : Alarm, In b (alarms p) -> buildCardThrows h b = false) ->
  renderAlarms h p = with_cards (regs p) (puas p) p /\
  renderThrows h p = false.
Proof.
  intros Hall. unfold renderAlarms, renderThrows.
  rewrite (appendCards_safe (regs p)) by (intros b Hb; apply Hall, regs_In, Hb).
  rewrite (appendCards_safe (puas p)) by (intros b Hb; apply Hall, puas_In, Hb).
  split; reflexivity.
Qed.

End Rendering.

(** ** One tick, case by case *)

Section Tick.

Variables (h : Host) (now : Clock) (hh mm : string) (p : Page).

Let cm := hh +:+ ":" +:+ mm.
Let keys := (rollover cm (lastCheckedMinute p) (firedKeys p)).2.

Lemma tick_closed :
  getSeconds now > 4 \/ currentRinging p <> None ->
  tickAlarms h now hh mm p = (None, with_fired (Some cm) keys p).
Proof.
  intros Hgate. unfold tickAlarms. fold cm.
  pose proof (rollover_last cm (lastCheckedMinute p) (firedKeys p)) as Hlast.
  subst keys. destruct (rollover cm _ _) as [last ks]. simpl in *. subst last.
  destruct (getSeconds now >? 4) eqn:Hss; [reflexivity|].
  destruct (currentRinging p) eqn:Hr; [reflexivity|].
  destruct Hgate as [Hgate|Hgate]; [|congruence].
  rewrite Z.gtb_ltb in Hss. apply Z.ltb_ge in Hss. lia.
Qed.

Lemma tick_open :
  getSeconds now <= 4 -> currentRinging p = None ->
  tickAlarms h now hh mm p =
    match scan cm (getDay now) keys (alarms p) 0 with
    | None => (None, with_fired (Some cm) keys p)
    | Some (i, alarm) =>
        let p3 :=
          fireAlarm h alarm
            (with_fired (Some cm) (<[firedKey alarm cm := true]> keys) p) in
        (Some (i, alarm),
         if hasDays alarm then p3
         else renderAlarms h (saveAlarms h
                (with_alarms (<[i := set_enabled false alarm]> (alarms p)) p3)))
    end.
Proof.
  intros Hss Hr. unfold tickAlarms. fold cm.
  pose proof (rollover_last cm (lastCheckedMinute p) (firedKeys p)) as Hlast.
  subst keys. destruct (rollover cm _ _) as [last ks]. simpl in *. subst last.
  destruct (getSeconds now >? 4) eqn:Hgt.
  { rewrite Z.gtb_ltb in Hgt. apply Z.ltb_lt in Hgt. lia. }
  rewrite Hr.
  destruct (scan cm (getDay now) ks (alarms p) 0) as [[i alarm]|]; [|reflexivity].
  destruct (hasDays alarm); simpl; [reflexivity|].
  now rewrite fireAlarm_alarms.
Qed.

Lemma tick_last : lastCheckedMinute (tickAlarms h now hh mm p).2 = Some cm.
Proof.
  destruct (Z_gt_le_dec (getSeconds now) 4) as [Hss|Hss];
    [rewrite tick_closed by (left; lia); reflexivity|].
  destruct (currentRinging p) eqn:Hr;
    [rewrite tick_closed by (right; congruence); reflexivity|].
  rewrite tick_open by assumption.
  destruct (scan _ _ _ _ _) as [[i a]|]; [|reflexivity].
  cbn [snd]. destruct (hasDays a); frame.
Qed.

Lemma tick_firedKeys :
  firedKeys (tickAlarms h now hh mm p).2 =
    match (tickAlarms h now hh mm p).1 with
    | Some (_, a) => <[firedKey a cm := true]> keys
    | None => keys
    end.
Proof.
  destruct (Z_gt_le_dec (getSeconds now) 4) as [Hss|Hss];
    [rewrite tick_closed by (left; lia); reflexivity|].
  destruct (currentRinging p) eqn:Hr;
    [rewrite tick_closed by (right; congruence); reflexivity|].
  rewrite tick_open by assumption.
  destruct (scan _ _ _ _ _) as [[i a]|]; [|reflexivity].
  cbn [fst snd]. destruct (hasDays a); frame.
Qed.

Lemma tick_fired_inv (i : nat) (a : Alarm) :
  (tickAlarms h now hh mm p).1 = Some (i, a) ->
  getSeconds now <= 4 /\ currentRinging p = None /\
  scan cm (getDay now) keys (alarms p) 0 = Some (i, a).
Proof.
  intros Hf.
  destruct (Z_gt_le_dec (getSeconds now) 4) as [Hss|Hss];
    [rewrite tick_closed in Hf by (left; lia); discriminate|].
  destruct (currentRinging p) eqn:Hr;
    [rewrite tick_closed in Hf by (right; congruence); discriminate|].
  rewrite tick_open in Hf by assumption.
  destruct (scan _ _ _ _ _) as [[j b]|]; [|discriminate].
  simpl in Hf. split; [exact Hss|]. split; [reflexivity|]. congruence.
Qed.

(** A tick that reports an alarm has run [fireAlarm] on it: the overlay
    is open for that alarm. *)
Lemma tick_ring (i : nat) (a : Alarm) :
  (tickAlarms h now hh mm p).1 = Some (i, a) ->
  currentRinging (tickAlarms h now hh mm p).2 = Some a /\
  overlayHidden (tickAlarms h now hh mm p).2 = false.
Proof.
  intros Hf. destruct (tick_fired_inv i a Hf) as (Hss & Hr & Hscan).
  rewrite (tick_open Hss Hr), Hscan. cbn [snd].
  destruct (hasDays a); split; frame.
Qed.

(** A tick that reports nothing has only run the rollover block. *)
Lemma tick_quiet :
  (tickAlarms h now hh mm p).1 = None ->
  (tickAlarms h now hh mm p).2 = with_fired (Some cm) keys p.
Proof.
  intros Hf.
  destruct (Z_gt_le_dec (getSeconds now) 4) as [Hss|Hss];
    [rewrite tick_closed by (left; lia); reflexivity|].
  destruct (currentRinging p) eqn:Hr;
    [rewrite tick_closed by (right; congruence); reflexivity|].
  rewrite tick_open in Hf |- * by assumption.
  destruct (scan _ _ _ _ _) as [[j b]|]; [discriminate | reflexivity].
Qed.

End Tick.

Section SwTick.

Variables (now : Clock) (w : Worker).

Let cm := currentMinute now.
Let keys := (rollover cm (swLastMinute w) (swFiredKeys w)).2.

Lemma sw_closed :
  getSeconds now > 30 ->
  checkSwAlarms now w =
    (None, mkWorker (swAlarms w) keys (Some cm) (swNotified w)).
Proof.
  intros Hss. unfold checkSwAlarms. fold (currentMinute now). fold cm.
  pose proof (rollover_last cm (swLastMinute w) (swFiredKeys w)) as Hlast.
  subst keys. destruct (rollover cm _ _) as [last ks]. simpl in *. subst last.
  destruct (getSeconds now >? 30) eqn:Hgt; [reflexivity|].
  rewrite Z.gtb_ltb in Hgt. apply Z.ltb_ge in Hgt. lia.
Qed.

Lemma sw_open :
  getSeconds now <= 30 ->
  checkSwAlarms now w =
    match scan cm (getDay now) keys (swAlarms w) 0 with
    | None => (None, mkWorker (swAlarms w) keys (Some cm) (swNotified w))
    | Some (i, alarm) =>
        (Some (i, alarm),
         mkWorker (swAlarms w) (<[firedKey alarm cm := true]> keys) (Some cm)
           (swNotified w ++ [alarm]))
    end.
Proof.
  intros Hss. unfold checkSwAlarms. fold (currentMinute now). fold cm.
  pose proof (rollover_last cm (swLastMinute w) (swFiredKeys w)) as Hlast.
  subst keys. destruct (rollover cm _ _) as [last ks]. simpl in *. subst last.
  destruct (getSeconds now >? 30) eqn:Hgt.
  { rewrite Z.gtb_ltb in Hgt. apply Z.ltb_lt in Hgt. lia. }
  destruct (scan _ _ _ _ _) as [[i alarm]|]; reflexivity.
Qed.

(** The worker calls [showAlarmNotification] on the alarm it reports and
    on nothing else. *)
Lemma sw_notified :
  swNotified (checkSwAlarms now w).2 =
    match (checkSwAlarms now w).1 with
    | Some (_, a) => (swNotified w ++ [a])%list
    | None => swNotified w
    end.
Proof.
  destruct (Z_gt_le_dec (getSeconds now) 30) as [Hss|Hss];
    [rewrite sw_closed by lia; reflexivity|].
  rewrite sw_open by assumption.
  destruct (scan _ _ _ _ _) as [[i a]|]; reflexivity.
Qed.

Lemma sw_alarms : swAlarms (checkSwAlarms now w).2 = swAlarms w.
Proof.
  destruct (Z_gt_le_dec (getSeconds now) 30) as [Hss|Hss];
    [rewrite sw_closed by lia; reflexivity|].
  rewrite sw_open by assumption.
  destruct (scan _ _ _ _ _) as [[i a]|]; reflexivity.
Qed.

Lemma sw_last : swLastMinute (checkSwAlarms now w).2 = Some cm.
Proof.
  destruct (Z_gt_le_dec (getSeconds now) 30) as [Hss|Hss];
    [rewrite sw_closed by lia; reflexivity|].
  rewrite sw_open by assumption.
  destruct (scan _ _ _ _ _) as [[i a]|]; reflexivity.
Qed.

Lemma sw_firedKeys :
  swFiredKeys (checkSwAlarms now w).2 =
    match (checkSwAlarms now w).1 with
    | Some (_, a) => <[firedKey a cm := true]> keys
    | None => keys
    end.
Proof.
  destruct (Z_gt_le_dec (getSeconds now) 30) as [Hss|Hss];
    [rewrite sw_closed by lia; reflexivity|].
  rewrite sw_open by assumption.
  destruct (scan _ _ _ _ _) as [[i a]|]; reflexivity.
Qed.

Lemma sw_fired_inv (i : nat) (a : Alarm) :
  (checkSwAlarms now w).1 = Some (i, a) ->
  getSeconds now <= 30 /\
  scan cm (getDay now) keys (swAlarms w) 0 = Some (i, a).
Proof.
  intros Hf.
  destruct (Z_gt_le_dec (getSeconds now) 30) as [Hss|Hss];
    [rewrite sw_closed in Hf by lia; discriminate|].
  rewrite sw_open in Hf by assumption.
  destruct (scan _ _ _ _ _) as [[j b]|]; [|discriminate].
  simpl in Hf. split; [exact Hss|]. congruence.
Qed.

End SwTick.

(** ** At most one alarm per tick *)

Lemma append_cancel_r (t : string) :
  forall x y : string, x +:+ t = y +:+ t -> x = y.
Proof.
  induction x as [|c x IH]; intros [|d y] Heq.
  - reflexivity.
  - apply (f_equal String.length) in Heq.
    rewrite !length_append in Heq. simpl in Heq. lia.
  - apply (f_equal String.length) in Heq.
    rewrite !length_append in Heq. simpl in Heq. lia.
  - change (String c (x +:+ t) = String d (y +:+ t)) in Heq.
    injection Heq as -> Heq. f_equal. now apply IH.
Qed.

Lemma firedKey_inj (a b : Alarm) (cm : string) :
  firedKey a cm = firedKey b cm -> id a = id b.
Proof. unfold firedKey. apply append_cancel_r. Qed.

Lemma Eligible_rollover (cm : string) (day : Z) (last : option string)
    (keys : gmap string bool) (a : Alarm) :
  Eligible cm day (rollover cm last keys).2 a <-> Eligible cm day keys a.
Proof.
  unfold Eligible. rewrite rollover_keeps by apply firedKey_endsWith. reflexivity.
Qed.

Lemma FirstEligible_rollover (cm : string) (day : Z) (last : option string)
    (keys : gmap string bool) (l : list Alarm) (i : nat) (a : Alarm) :
  FirstEligible cm day (rollover cm last keys).2 l i a <->
  FirstEligible cm day keys l i a.
Proof.
  unfold FirstEligible. split; intros (Hi & Ha & Hmin).
  - split; [exact Hi|]. split; [exact (proj1 (Eligible_rollover _ _ _ _ _) Ha)|].
    intros j b Hlt Hb Hel. apply (Hmin j b Hlt Hb).
    exact (proj2 (Eligible_rollover _ _ _ _ _) Hel).
  - split; [exact Hi|]. split; [exact (proj2 (Eligible_rollover _ _ _ _ _) Ha)|].
    intros j b Hlt Hb Hel. apply (Hmin j b Hlt Hb).
    exact (proj1 (Eligible_rollover _ _ _ _ _) Hel).
Qed.

(** C1. A tick that passes the window gate (second at most 4 on the page,
    at most 30 in the worker) and, on the page, the reentrancy gate, fires
    the first alarm in stored order that is enabled, whose time equals the
    current minute string, whose days are empty or contain the weekday, and
    whose key is not recorded in the table. Firing means that the fire
    action has run: on the page the overlay is open with that alarm as
    [currentRinging]; in the worker that alarm, and no other, has been
    passed to [showAlarmNotification]. The tick adds
    exactly that alarm's key to the table the rollover block left. When no
    alarm qualifies the tick fires nothing: the table is the one the
    rollover block left, nothing rings, and nothing is notified. A tick
    fires at most one alarm: of two enabled alarms with the same time and
    no days, only the first rings and only its key is recorded. *)
Theorem tick_fires_first_eligible :
  (forall (h : Host) (now : Clock) (hh mm : string) (p : Page),
     getSeconds now <= 4 -> currentRinging p = None ->
     let cm := hh +:+ ":" +:+ mm in
     let keys := (rollover cm (lastCheckedMinute p) (firedKeys p)).2 in
     match tickAlarms h now hh mm p with
     | (Some (i, a), p') =>
         FirstEligible cm (getDay now) (firedKeys p) (alarms p) i a /\
         firedKeys p' = <[firedKey a cm := true]> keys /\
         ringsFor a p' /\
         overlayHidden p' = false
     | (None, p') =>
         (forall a, In a (alarms p) ->
            ~ Eligible cm (getDay now) (firedKeys p) a) /\
         firedKeys p' = keys /\
         currentRinging p' = None /\
         overlayHidden p' = overlayHidden p /\
         notifications p' = notifications p /\
         activeAudioEl p' = activeAudioEl p /\
         beepInterval p' = beepInterval p
     end) /\
  (forall (now : Clock) (w : Worker),
     getSeconds now <= 30 ->
     let cm := currentMinute now in
     let keys := (rollover cm (swLastMinute w) (swFiredKeys w)).2 in
     match checkSwAlarms now w with
     | (Some (i, a), w') =>
         FirstEligible cm (getDay now) (swFiredKeys w) (swAlarms w) i a /\
         swFiredKeys w' = <[firedKey a cm := true]> keys /\
         swNotified w' = (swNotified w ++ [a])%list
     | (None, w') =>
         (forall a, In a (swAlarms w) ->
            ~ Eligible cm (getDay now) (swFiredKeys w) a) /\
         swFiredKeys w' = keys /\
         swNotified w' = swNotified w
     end) /\
  (forall (h : Host) (now : Clock) (hh mm : string) (p : Page) (a b : Alarm),
     getSeconds now <= 4 -> currentRinging p = None ->
     let cm := hh +:+ ":" +:+ mm in
     alarms p = [a; b] ->
     enabled a = true -> enabled b = true ->
     time a = cm -> time b = cm ->
     hasDays a = false -> hasDays b = false ->
     firedKeys p !! firedKey a cm = None ->
     firedKeys p !! firedKey b cm = None ->
     id a <> id b ->
     let r := tickAlarms h now hh mm p in
     r.1 = Some (0%nat, a) /\
     ringsFor a r.2 /\
     firedKeys r.2 !! firedKey a cm = Some true /\
     firedKeys r.2 !! firedKey b cm = None).
Proof.
  split; [|split].
  - intros h now hh mm p Hss Hr cm keys.
    pose proof (tick_firedKeys h now hh mm p) as Hk.
    pose proof (tick_ring h now hh mm p) as Hring.
    pose proof (tick_quiet h now hh mm p) as Hquiet.
    pose proof (tick_open h now hh mm p Hss Hr) as Hopen.
    fold cm keys in Hk, Hquiet, Hopen.
    destruct (tickAlarms h now hh mm p) as [f p'] eqn:Htick.
    cbn [fst snd] in Hk, Hring, Hquiet.
    destruct (scan cm (getDay now) keys (alarms p) 0) as [[i a]|] eqn:Hscan.
    + injection Hopen as -> _.
      destruct (Hring i a eq_refl) as (Hr1 & Hr2).
      split; [|split; [exact Hk|]].
      2: { split; [exists a; split; [exact Hr1 | reflexivity] | exact Hr2]. }
      apply scan_first in Hscan.
      exact (proj1 (FirstEligible_rollover _ _ _ _ _ _ _) Hscan).
    + injection Hopen as -> _.
      split; [|split; [exact Hk|]].
      * intros a Ha Hel.
        apply (proj1 (scan_None cm (getDay now) keys (alarms p) 0%nat) Hscan a Ha).
        exact (proj2 (Eligible_rollover _ _ _ _ _) Hel).
      * rewrite (Hquiet eq_refl). cbn. auto.
  - intros now w Hss cm keys.
    pose proof (sw_firedKeys now w) as Hk.
    pose proof (sw_notified now w) as Hn.
    rewrite (sw_open now w Hss) in *. fold cm keys in Hk, Hn |- *.
    destruct (scan cm (getDay now) keys (swAlarms w) 0) as [[i a]|] eqn:Hscan.
    + split; [|split; [exact Hk | exact Hn]].
      apply scan_first in Hscan.
      exact (proj1 (FirstEligible_rollover _ _ _ _ _ _ _) Hscan).
    + split; [|split; [exact Hk | exact Hn]]. intros a Ha Hel.
      apply (proj1 (scan_None cm (getDay now) keys (swAlarms w) 0%nat) Hscan a Ha).
      exact (proj2 (Eligible_rollover _ _ _ _ _) Hel).
  - intros h now hh mm p a b Hss Hr cm Hl Hea Heb Hta Htb Hda Hdb Hka Hkb Hid r.
    set (keys := (rollover cm (lastCheckedMinute p) (firedKeys p)).2).
    assert (Hka' : keys !! firedKey a cm = None).
    { subst keys. now rewrite rollover_keeps by apply firedKey_endsWith. }
    assert (Hkb' : keys !! firedKey b cm = None).
    { subst keys. now rewrite rollover_keeps by apply firedKey_endsWith. }
    assert (Hscan : scan cm (getDay now) keys (alarms p) 0 = Some (0%nat, a)).
    { rewrite Hl. simpl.
      assert (Hdue : due cm (getDay now) keys a = true).
      { apply due_Eligible. repeat split; [exact Hea | exact Hta | | congruence].
        unfold onDay. unfold hasDays in Hda.
        destruct (days a) as [[|d l]|]; [now left | discriminate | exact I]. }
      now rewrite Hdue. }
    pose proof (tick_firedKeys h now hh mm p) as Hk.
    assert (Hf : r.1 = Some (0%nat, a)).
    { subst r. rewrite (tick_open h now hh mm p Hss Hr). fold cm keys.
      now rewrite Hscan. }
    fold cm keys r in Hk. rewrite Hf in Hk.
    destruct (tick_ring h now hh mm p 0%nat a Hf) as (Hring & _).
    split; [exact Hf|].
    split; [exists a; split; [exact Hring | reflexivity]|].
    rewrite Hk. split.
    + apply lookup_insert_eq.
    + rewrite lookup_insert_ne; [exact Hkb'|].
      intros Heq. apply Hid. now apply firedKey_inj in Heq.
Qed.

Lemma tick_fires_first_eligible_witness :
  (let p := with_alarms [seven_a; seven_b] initialPage in
   let keys := (rollover "07:00" (lastCheckedMinute p) (firedKeys p)).2 in
   match tickAlarms h0 (mkClock 7 0 1 2) "07" "00" p with
   | (Some (i, a), p') =>
       FirstEligible "07:00" 2 (firedKeys p) [seven_a; seven_b] i a /\
       firedKeys p' = <[firedKey a "07:00" := true]> keys /\
       ringsFor a p' /\
       overlayHidden p' = false
   | (None, p') =>
       (forall a, In a [seven_a; seven_b] ->
          ~ Eligible "07:00" 2 (firedKeys p) a) /\
       firedKeys p' = keys /\
       currentRinging p' = None /\
       overlayHidden p' = overlayHidden p /\
       notifications p' = notifications p /\
       activeAudioEl p' = activeAudioEl p /\
       beepInterval p' = beepInterval p
   end) /\
  (let w := mkWorker [seven_a; seven_b] ∅ None [] in
   let keys := (rollover "07:00" (swLastMinute w) (swFiredKeys w)).2 in
   match checkSwAlarms (mkClock 7 0 30 2) w with
   | (Some (i, a), w') =>
       FirstEligible "07:00" 2 (swFiredKeys w) [seven_a; seven_b] i a /\
       swFiredKeys w' = <[firedKey a "07:00" := true]> keys /\
       swNotified w' = [a]
   | (None, w') =>
       (forall a, In a [seven_a; seven_b] ->
          ~ Eligible "07:00" 2 (swFiredKeys w) a) /\
       swFiredKeys w' = keys /\
       swNotified w' = []
   end) /\
  (let r := tickAlarms h0 (mkClock 7 0 1 2) "07" "00"
              (with_alarms [seven_a; seven_b] initialPage) in
   r.1 = Some (0%nat, seven_a) /\
   ringsFor seven_a r.2 /\
   firedKeys r.2 !! firedKey seven_a "07:00" = Some true /\
   firedKeys r.2 !! firedKey seven_b "07:00" = None).
Proof.
  destruct tick_fires_first_eligible as (Hpage & Hworker & Htwo).
  split; [|split].
  - apply (Hpage h0 (mkClock 7 0 1 2) "07" "00"
             (with_alarms [seven_a; seven_b] initialPage));
      [simpl; lia | reflexivity].
  - apply (Hworker (mkClock 7 0 30 2) (mkWorker [seven_a; seven_b] ∅ None [])).
    simpl. lia.
  - apply (Htwo h0 (mkClock 7 0 1 2) "07" "00"
             (with_alarms [seven_a; seven_b] initialPage) seven_a seven_b);
      try reflexivity; try (simpl; lia); try discriminate.
Defined.

(** ** Runs *)

Section Runs.

Variable h : Host.

Lemma run_cons_fired (e : Event) (es : list Event) (p : Page) :
  (run h (e :: es) p).1 =
    match (step h e p).1 with
    | Some f => f :: (run h es (step h e p).2).1
    | None => (run h es (step h e p).2).1
    end.
Proof.
  simpl. destruct (step h e p) as [f p1]. cbn [fst snd].
  destruct (run h es p1) as [fs p2]. destruct f; reflexivity.
Qed.

Lemma run_cons_state (e : Event) (es : list Event) (p : Page) :
  (run h (e :: es) p).2 = (run h es (step h e p).2).2.
Proof.
  simpl. destruct (step h e p) as [f p1]. cbn [fst snd].
  destruct (run h es p1) as [fs p2]. destruct f; reflexivity.
Qed.

(** Only the clock callback touches the table and the remembered minute. *)
Lemma step_fired_frame (e : Event) (p : Page) :
  (forall now, e <> EvClock now) ->
  (step h e p).1 = None /\
  firedKeys (step h e p).2 = firedKeys p /\
  lastCheckedMinute (step h e p).2 = lastCheckedMinute p.
Proof.
  intros Hne. destruct e as [now|m| | | | |r|i c|l]; simpl;
    try (exfalso; now apply (Hne now));
    (split; [reflexivity|]; split; frame).
Qed.

End Runs.

Lemma swRun_cons_fired (e : WorkerEvent) (es : list WorkerEvent) (w : Worker) :
  (swRun (e :: es) w).1 =
    match (swStep e w).1 with
    | Some f => f :: (swRun es (swStep e w).2).1
    | None => (swRun es (swStep e w).2).1
    end.
Proof.
  simpl. destruct (swStep e w) as [f w1]. cbn [fst snd].
  destruct (swRun es w1) as [fs w2]. destruct f; reflexivity.
Qed.

Lemma swRun_cons_state (e : WorkerEvent) (es : list WorkerEvent) (w : Worker) :
  (swRun (e :: es) w).2 = (swRun es (swStep e w).2).2.
Proof.
  simpl. destruct (swStep e w) as [f w1]. cbn [fst snd].
  destruct (swRun es w1) as [fs w2]. destruct f; reflexivity.
Qed.

(** ** One fire per alarm and minute *)

Lemma firesOf_cons (x : string) (f : Fired) (fs : list Fired) :
  firesOf x (f :: fs) =
    if String.eqb (id f.2) x then S (firesOf x fs) else firesOf x fs.
Proof. unfold firesOf. simpl. destruct (String.eqb (id f.2) x); reflexivity. Qed.

Section OncePerMinute.

Variables (h : Host) (M : string).

Lemma step_keeps_key (e : Event) (p : Page) (k : string) :
  observes M e -> Js.endsWith k ("|" +:+ M) = true ->
  isFired (firedKeys p) k = true ->
  isFired (firedKeys (step h e p).2) k = true.
Proof.
  intros Hobs Hend Hk.
  destruct e as [now|m| | | | |r|i c|l];
    [ | match goal with
        | |- context [step h ?e p] =>
            assert (Hne : forall now, e <> EvClock now) by (intros; discriminate);
            destruct (step_fired_frame h e p Hne) as (_ & Hfk & _);
            rewrite Hfk; exact Hk
        end .. ].
  simpl in Hobs. cbn [step]. unfold updateClock.
  rewrite tick_firedKeys. fold (currentMinute now). rewrite Hobs.
  assert (Hroll : isFired (rollover M (lastCheckedMinute p) (firedKeys p)).2 k = true)
    by now rewrite isFired_rollover.
  destruct (tickAlarms _ _ _ _ _).1 as [[j a]|]; [|exact Hroll].
  now apply isFired_insert_mono.
Qed.

Lemma step_fire_key (e : Event) (p : Page) (i : nat) (a : Alarm) :
  observes M e -> (step h e p).1 = Some (i, a) ->
  isFired (firedKeys p) (firedKey a M) = false /\
  isFired (firedKeys (step h e p).2) (firedKey a M) = true.
Proof.
  intros Hobs Hf. destruct e as [now|m| | | | |r|j c|l]; try discriminate.
  simpl in Hobs. cbn [step] in *. unfold updateClock in *.
  pose proof (tick_firedKeys h now (pad (getHours now)) (pad (getMinutes now)) p) as Hk.
  apply tick_fired_inv in Hf as Hinv. destruct Hinv as (_ & _ & Hscan).
  fold (currentMinute now) in Hk, Hscan. rewrite Hobs in Hk, Hscan.
  rewrite Hf in Hk. apply scan_first in Hscan as (_ & (_ & _ & _ & Hnot) & _).
  split.
  - apply isFired_false in Hnot.
    rewrite isFired_rollover in Hnot by apply firedKey_endsWith. exact Hnot.
  - rewrite Hk. apply isFired_insert.
Qed.

Lemma run_blocked (x : string) (es : list Event) :
  forall p : Page,
    Forall (observes M) es ->
    isFired (firedKeys p) (x +:+ "|" +:+ M) = true ->
    firesOf x (run h es p).1 = 0%nat.
Proof.
  induction es as [|e es IH]; intros p Hall Hk; [reflexivity|].
  inversion Hall as [|? ? He Hes]; subst.
  rewrite run_cons_fired.
  pose proof (step_keeps_key e p _ He (endsWith_append x ("|" +:+ M)) Hk) as Hk1.
  destruct (step h e p).1 as [[i a]|] eqn:Hf; [|now apply IH].
  rewrite firesOf_cons. cbn [snd].
  destruct (String.eqb_spec (id a) x) as [Hid|Hid]; [|now apply IH].
  exfalso. apply (step_fire_key e p i a He) in Hf as [Hnot _].
  unfold firedKey in Hnot. rewrite Hid in Hnot. congruence.
Qed.

Lemma run_once (x : string) (es : list Event) :
  forall p : Page,
    Forall (observes M) es -> (firesOf x (run h es p).1 <= 1)%nat.
Proof.
  induction es as [|e es IH]; intros p Hall; [unfold firesOf; simpl; lia|].
  inversion Hall as [|? ? He Hes]; subst.
  rewrite run_cons_fired.
  destruct (step h e p).1 as [[i a]|] eqn:Hf; [|now apply IH].
  rewrite firesOf_cons. cbn [snd].
  destruct (String.eqb_spec (id a) x) as [Hid|Hid]; [|now apply IH].
  apply (step_fire_key e p i a He) in Hf as [_ Hrec].
  unfold firedKey in Hrec. rewrite Hid in Hrec.
  rewrite (run_blocked x es _ Hes Hrec). lia.
Qed.

Lemma swStep_keeps_key (e : WorkerEvent) (w : Worker) (k : string) :
  swObserves M e -> Js.endsWith k ("|" +:+ M) = true ->
  isFired (swFiredKeys w) k = true ->
  isFired (swFiredKeys (swStep e w).2) k = true.
Proof.
  intros Hobs Hend Hk. destruct e as [now|payload now|]; simpl in Hobs;
    cbn [swStep]; [| |exact Hk];
    rewrite sw_firedKeys; rewrite Hobs; cbn [swFiredKeys swLastMinute];
    (assert (Hroll : isFired (rollover M (swLastMinute w) (swFiredKeys w)).2 k = true)
       by now rewrite isFired_rollover);
    destruct (checkSwAlarms _ _).1 as [[j a]|]; try exact Hroll;
    now apply isFired_insert_mono.
Qed.

Lemma swStep_fire_key (e : WorkerEvent) (w : Worker) (i : nat) (a : Alarm) :
  swObserves M e -> (swStep e w).1 = Some (i, a) ->
  isFired (swFiredKeys w) (firedKey a M) = false /\
  isFired (swFiredKeys (swStep e w).2) (firedKey a M) = true.
Proof.
  intros Hobs Hf. destruct e as [now|payload now|]; simpl in Hobs;
    cbn [swStep] in *; [| |discriminate].
  all: match type of Hf with (checkSwAlarms ?n ?w0).1 = _ =>
         pose proof (sw_firedKeys n w0) as Hk;
         apply sw_fired_inv in Hf as Hinv; destruct Hinv as (_ & Hscan)
       end.
  all: rewrite Hobs in Hk, Hscan; rewrite Hf in Hk;
    cbn [swFiredKeys swLastMinute] in *;
    apply scan_first in Hscan as (_ & (_ & _ & _ & Hnot) & _);
    split;
    [ apply isFired_false in Hnot;
      rewrite isFired_rollover in Hnot by apply firedKey_endsWith; exact Hnot
    | rewrite Hk; apply isFired_insert ].
Qed.

Lemma swRun_blocked (x : string) (es : list WorkerEvent) :
  forall w : Worker,
    Forall (swObserves M) es ->
    isFired (swFiredKeys w) (x +:+ "|" +:+ M) = true ->
    firesOf x (swRun es w).1 = 0%nat.
Proof.
  induction es as [|e es IH]; intros w Hall Hk; [reflexivity|].
  inversion Hall as [|? ? He Hes]; subst.
  rewrite swRun_cons_fired.
  pose proof (swStep_keeps_key e w _ He (endsWith_append x ("|" +:+ M)) Hk) as Hk1.
  destruct (swStep e w).1 as [[i a]|] eqn:Hf; [|now apply IH].
  rewrite firesOf_cons. cbn [snd].
  destruct (String.eqb_spec (id a) x) as [Hid|Hid]; [|now apply IH].
  exfalso. apply (swStep_fire_key e w i a He) in Hf as [Hnot _].
  unfold firedKey in Hnot. rewrite Hid in Hnot. congruence.
Qed.

Lemma swRun_once (x : string) (es : list WorkerEvent) :
  forall w : Worker,
    Forall (swObserves M) es -> (firesOf x (swRun es w).1 <= 1)%nat.
Proof.
  induction es as [|e es IH]; intros w Hall; [unfold firesOf; simpl; lia|].
  inversion Hall as [|? ? He Hes]; subst.
  rewrite swRun_cons_fired.
  destruct (swStep e w).1 as [[i a]|] eqn:Hf; [|now apply IH].
  rewrite firesOf_cons. cbn [snd].
  destruct (String.eqb_spec (id a) x) as [Hid|Hid]; [|now apply IH].
  apply (swStep_fire_key e w i a He) in Hf as [_ Hrec].
  unfold firedKey in Hrec. rewrite Hid in Hrec.
  rewrite (swRun_blocked x es _ Hes Hrec). lia.
Qed.

End OncePerMinute.

(** C2. While the minute string every tick observes stays [M], the ticks of
    one scheduler fire alarms carrying the id of [A] at most once, whatever
    other callbacks run in between: the key recorded at the first fire
    survives every later rollover block of the same minute and closes the
    last guard of the loop. This holds for every alarm, hence for those
    with non-empty days. *)
Theorem fires_once_per_minute (h : Host) (M : string) (A : Alarm) :
  (forall (es : list Event) (p : Page),
     Forall (observes M) es ->
     (firesOf (id A) (run h es p).1 <= 1)%nat) /\
  (forall (es : list WorkerEvent) (w : Worker),
     Forall (swObserves M) es ->
     (firesOf (id A) (swRun es w).1 <= 1)%nat).
Proof.
  split.
  - intros es p Hall. now apply run_once with (M := M).
  - intros es w Hall. now apply swRun_once with (M := M).
Qed.

Lemma fires_once_per_minute_witness :
  (firesOf (id weekly)
     (run h0 minute_0830_events (with_alarms [weekly] initialPage)).1 <= 1)%nat /\
  (firesOf (id weekly) (swRun minute_0830_swEvents initialWorker).1 <= 1)%nat.
Proof.
  split.
  - apply (proj1 (fires_once_per_minute h0 "08:30" weekly)).
    unfold minute_0830_events. repeat constructor.
  - apply (proj2 (fires_once_per_minute h0 "08:30" weekly)).
    unfold minute_0830_swEvents. repeat constructor.
Defined.

Example weekly_fires_exactly_once :
  firesOf (id weekly)
    (run h0 minute_0830_events (with_alarms [weekly] initialPage)).1 = 1%nat /\
  firesOf (id weekly) (swRun minute_0830_swEvents initialWorker).1 = 1%nat.
Proof. split; vm_compute; reflexivity. Qed.

(** ** Eviction on rollover *)

Section Eviction.

Lemma KeysCurrent_empty (last : option string) : KeysCurrent last ∅.
Proof. intros k b Hk. rewrite lookup_empty in Hk. discriminate. Qed.

Lemma KeysCurrent_rollover (cm : string) (last : option string)
    (keys : gmap string bool) :
  KeysCurrent last keys ->
  KeysCurrent (Some cm) (rollover cm last keys).2.
Proof.
  intros Hinv k b Hk. unfold rollover in Hk.
  destruct (decide (last = Some cm)) as [->|Hne]; simpl in Hk.
  - destruct (Hinv k b Hk) as (m & [= <-] & Hend). now exists cm.
  - apply purge_lookup_Some in Hk as [_ Hend]. now exists cm.
Qed.

Lemma KeysCurrent_insert (cm : string) (keys : gmap string bool) (a : Alarm) :
  KeysCurrent (Some cm) keys ->
  KeysCurrent (Some cm) (<[firedKey a cm := true]> keys).
Proof.
  intros Hinv k b Hk. destruct (decide (firedKey a cm = k)) as [<-|Hne].
  - exists cm. split; [reflexivity | apply firedKey_endsWith].
  - rewrite lookup_insert_ne in Hk by exact Hne. now apply (Hinv k b).
Qed.

Variable h : Host.

Lemma tick_KeysCurrent (now : Clock) (hh mm : string) (p : Page) :
  KeysCurrent (lastCheckedMinute p) (firedKeys p) ->
  let p' := (tickAlarms h now hh mm p).2 in
  KeysCurrent (lastCheckedMinute p') (firedKeys p').
Proof.
  intros Hinv p'. subst p'. rewrite tick_last, tick_firedKeys.
  apply KeysCurrent_rollover with (cm := hh +:+ ":" +:+ mm) in Hinv.
  destruct (tickAlarms h now hh mm p).1 as [[i a]|]; [|exact Hinv].
  now apply KeysCurrent_insert.
Qed.

Lemma step_KeysCurrent (e : Event) (p : Page) :
  KeysCurrent (lastCheckedMinute p) (firedKeys p) ->
  let p' := (step h e p).2 in
  KeysCurrent (lastCheckedMinute p') (firedKeys p').
Proof.
  intros Hinv.
  destruct e as [now|m| | | | |r|i c|l];
    [ apply tick_KeysCurrent; exact Hinv
    | match goal with
      | |- context [step h ?e p] =>
          assert (Hne : forall now, e <> EvClock now) by (intros; discriminate);
          destruct (step_fired_frame h e p Hne) as (_ & Hfk & Hlm);
          cbv zeta; rewrite Hfk, Hlm; exact Hinv
      end .. ].
Qed.

Lemma run_KeysCurrent (es : list Event) :
  forall p : Page,
    KeysCurrent (lastCheckedMinute p) (firedKeys p) ->
    let p' := (run h es p).2 in
    KeysCurrent (lastCheckedMinute p') (firedKeys p').
Proof.
  induction es as [|e es IH]; intros p Hinv; [exact Hinv|].
  cbv zeta. rewrite run_cons_state. apply IH. now apply step_KeysCurrent.
Qed.

Lemma sw_KeysCurrent (now : Clock) (w : Worker) :
  KeysCurrent (swLastMinute w) (swFiredKeys w) ->
  let w' := (checkSwAlarms now w).2 in
  KeysCurrent (swLastMinute w') (swFiredKeys w').
Proof.
  intros Hinv w'. subst w'. rewrite sw_last, sw_firedKeys.
  apply KeysCurrent_rollover with (cm := currentMinute now) in Hinv.
  destruct (checkSwAlarms now w).1 as [[i a]|]; [|exact Hinv].
  now apply KeysCurrent_insert.
Qed.

Lemma swStep_KeysCurrent (e : WorkerEvent) (w : Worker) :
  KeysCurrent (swLastMinute w) (swFiredKeys w) ->
  let w' := (swStep e w).2 in
  KeysCurrent (swLastMinute w') (swFiredKeys w').
Proof.
  intros Hinv. destruct e as [now|payload now|]; cbn [swStep];
    [apply sw_KeysCurrent | apply sw_KeysCurrent | ]; exact Hinv.
Qed.

Lemma swRun_KeysCurrent (es : list WorkerEvent) :
  forall w : Worker,
    KeysCurrent (swLastMinute w) (swFiredKeys w) ->
    let w' := (swRun es w).2 in
    KeysCurrent (swLastMinute w') (swFiredKeys w').
Proof.
  induction es as [|e es IH]; intros w Hinv; [exact Hinv|].
  cbv zeta. rewrite swRun_cons_state. apply IH. now apply swStep_KeysCurrent.
Qed.

(** An entry disappears only in a rollover block that observes a new
    minute, and only if its key does not end with that minute. *)
Lemma rollover_evicts (cm : string) (last : option string)
    (keys : gmap string bool) (k : string) :
  is_Some (keys !! k) -> (rollover cm last keys).2 !! k = None ->
  last <> Some cm /\ Js.endsWith k ("|" +:+ cm) = false.
Proof.
  intros [b Hk] Hgone. unfold rollover in Hgone.
  destruct (decide (last = Some cm)) as [Heq|Hne]; simpl in Hgone; [congruence|].
  split; [exact Hne|].
  destruct (Js.endsWith k ("|" +:+ cm)) eqn:Hend; [|reflexivity].
  rewrite purge_keeps in Hgone by exact Hend. congruence.
Qed.

Lemma insert_not_evicts (keys : gmap string bool) (k k' : string) :
  <[k' := true]> keys !! k = None -> keys !! k = None.
Proof.
  destruct (decide (k' = k)) as [->|Hne].
  - rewrite lookup_insert_eq. discriminate.
  - now rewrite lookup_insert_ne.
Qed.

End Eviction.

(** C3. In every state a scheduler reaches from an empty table, each key
    of the table ends with ['|'] followed by the remembered minute string.
    A tick that observes a minute string different from the remembered one
    leaves no key that does not end with the observed minute, and an entry
    disappears from the table in no other way: the callback that removed
    it is a tick observing a new minute with which the key does not end. *)
Theorem keys_evicted_on_rollover (h : Host) :
  (forall (es : list Event) (p : Page),
     firedKeys p = ∅ ->
     let p' := (run h es p).2 in
     KeysCurrent (lastCheckedMinute p') (firedKeys p')) /\
  (forall (es : list WorkerEvent) (w : Worker),
     swFiredKeys w = ∅ ->
     let w' := (swRun es w).2 in
     KeysCurrent (swLastMinute w') (swFiredKeys w')) /\
  (forall (now : Clock) (p : Page) (k : string),
     lastCheckedMinute p <> Some (currentMinute now) ->
     Js.endsWith k ("|" +:+ currentMinute now) = false ->
     firedKeys (updateClock h now p).2 !! k = None) /\
  (forall (now : Clock) (w : Worker) (k : string),
     swLastMinute w <> Some (currentMinute now) ->
     Js.endsWith k ("|" +:+ currentMinute now) = false ->
     swFiredKeys (checkSwAlarms now w).2 !! k = None) /\
  (forall (e : Event) (p : Page) (k : string),
     is_Some (firedKeys p !! k) ->
     firedKeys (step h e p).2 !! k = None ->
     exists now : Clock,
       e = EvClock now /\
       lastCheckedMinute p <> Some (currentMinute now) /\
       Js.endsWith k ("|" +:+ currentMinute now) = false) /\
  (forall (e : WorkerEvent) (w : Worker) (k : string),
     is_Some (swFiredKeys w !! k) ->
     swFiredKeys (swStep e w).2 !! k = None ->
     exists now : Clock,
       (e = SwInterval now \/ exists payload, e = SwSync payload now) /\
       swLastMinute w <> Some (currentMinute now) /\
       Js.endsWith k ("|" +:+ currentMinute now) = false).
Proof.
  repeat apply conj.
  - intros es p Hempty. apply run_KeysCurrent.
    rewrite Hempty. apply KeysCurrent_empty.
  - intros es w Hempty. apply swRun_KeysCurrent.
    rewrite Hempty. apply KeysCurrent_empty.
  - intros now p k Hnew Hend. unfold updateClock.
    rewrite tick_firedKeys. fold (currentMinute now).
    rewrite rollover_fresh by exact Hnew. cbn [snd].
    destruct (tickAlarms _ _ _ _ _).1 as [[i a]|]; [|now apply purge_drops].
    rewrite lookup_insert_ne; [now apply purge_drops|].
    intros <-. rewrite firedKey_endsWith in Hend. discriminate.
  - intros now w k Hnew Hend.
    rewrite sw_firedKeys. rewrite rollover_fresh by exact Hnew. cbn [snd].
    destruct (checkSwAlarms _ _).1 as [[i a]|]; [|now apply purge_drops].
    rewrite lookup_insert_ne; [now apply purge_drops|].
    intros <-. rewrite firedKey_endsWith in Hend. discriminate.
  - intros e p k Hin Hgone.
    destruct e as [now|m| | | | |r|i c|l];
      [ | match type of Hgone with
          | context [step h ?e p] =>
              assert (Hne : forall now, e <> EvClock now) by (intros; discriminate);
              destruct (step_fired_frame h e p Hne) as (_ & Hfk & _);
              rewrite Hfk in Hgone; destruct Hin as [b Hb]; congruence
          end .. ].
    exists now. split; [reflexivity|].
    cbn [step] in Hgone. unfold updateClock in Hgone.
    rewrite tick_firedKeys in Hgone. fold (currentMinute now) in Hgone.
    destruct (tickAlarms _ _ _ _ _).1 as [[i a]|];
      [apply insert_not_evicts in Hgone|];
      apply (rollover_evicts _ _ _ _ Hin Hgone).
  - intros e w k Hin Hgone.
    destruct e as [now|payload now|]; cbn [swStep] in Hgone;
      [ | | destruct Hin as [b Hb]; simpl in Hgone; congruence ].
    + exists now. split; [now left|].
      rewrite sw_firedKeys in Hgone.
      destruct (checkSwAlarms _ _).1 as [[i a]|];
        [apply insert_not_evicts in Hgone|];
        apply (rollover_evicts _ _ _ _ Hin Hgone).
    + exists now. split; [right; now exists payload|].
      rewrite sw_firedKeys in Hgone. cbn [swFiredKeys swLastMinute] in Hgone.
      destruct (checkSwAlarms _ _).1 as [[i a]|];
        [apply insert_not_evicts in Hgone|];
        apply (rollover_evicts _ _ _ _ Hin Hgone).
Qed.

Lemma keys_evicted_on_rollover_witness :
  (let p' := (run h0 rollover_events (with_alarms [weekly] initialPage)).2 in
   KeysCurrent (lastCheckedMinute p') (firedKeys p')) /\
  (let w' := (swRun minute_0830_swEvents initialWorker).2 in
   KeysCurrent (swLastMinute w') (swFiredKeys w')) /\
  firedKeys
    (updateClock h0 (mkClock 8 31 0 3)
       (run h0 [EvClock (mkClock 8 30 1 3)] (with_alarms [weekly] initialPage)).2).2
    !! "w1|08:30" = None /\
  swFiredKeys
    (checkSwAlarms (mkClock 8 31 0 3)
       (swRun minute_0830_swEvents initialWorker).2).2 !! "w1|08:30" = None.
Proof.
  pose proof (keys_evicted_on_rollover h0) as (Hp & Hw & Hrp & Hrw & _ & _).
  split; [|split; [|split]].
  - apply Hp. reflexivity.
  - apply Hw. reflexivity.
  - apply Hrp; [vm_compute; discriminate | reflexivity].
  - apply Hrw; [vm_compute; discriminate | reflexivity].
Defined.

Example key_present_before_rollover :
  firedKeys
    (run h0 [EvClock (mkClock 8 30 1 3)] (with_alarms [weekly] initialPage)).2
    !! "w1|08:30" = Some true.
Proof. vm_compute. reflexivity. Qed.

(** ** The firing window *)

Section Window.

Lemma pad_length_upto_99 :
  forallb (fun k : nat => Nat.eqb (String.length (pad (Z.of_nat k))) 2)
    (seq 0 100) = true.
Proof. vm_compute. reflexivity. Qed.

Lemma pad_length (n : Z) : 0 <= n < 100 -> String.length (pad n) = 2%nat.
Proof.
  intros Hn. pose proof pad_length_upto_99 as Hall.
  rewrite forallb_forall in Hall.
  specialize (Hall (Z.to_nat n)). rewrite Z2Nat.id in Hall by lia.
  apply Nat.eqb_eq. apply Hall. apply in_seq. lia.
Qed.

Lemma currentMinute_length (now : Clock) :
  validClock now -> String.length (currentMinute now) = 5%nat.
Proof.
  intros (Hh & Hm & _). unfold currentMinute.
  rewrite !length_append, !pad_length by lia. reflexivity.
Qed.

Variable h : Host.

Lemma step_LastShaped (e : Event) (p : Page) :
  validEvent e -> LastShaped (lastCheckedMinute p) ->
  LastShaped (lastCheckedMinute (step h e p).2).
Proof.
  intros Hv Hinv.
  destruct e as [now|m| | | | |r|i c|l];
    [ | match goal with
        | |- context [step h ?e p] =>
            assert (Hne : forall now, e <> EvClock now) by (intros; discriminate);
            destruct (step_fired_frame h e p Hne) as (_ & _ & Hlm);
            rewrite Hlm; exact Hinv
        end .. ].
  cbn [step]. unfold updateClock. rewrite tick_last.
  intros m [= <-]. now apply currentMinute_length.
Qed.

Lemma run_LastShaped (es : list Event) :
  forall p : Page,
    Forall validEvent es -> LastShaped (lastCheckedMinute p) ->
    LastShaped (lastCheckedMinute (run h es p).2).
Proof.
  induction es as [|e es IH]; intros p Hall Hinv; [exact Hinv|].
  inversion Hall as [|? ? He Hes]; subst.
  rewrite run_cons_state. apply IH; [exact Hes | now apply step_LastShaped].
Qed.

(** On the first observation of a minute the rollover block leaves an
    empty table. *)
Lemma first_observation_clears (now : Clock) (last : option string)
    (keys : gmap string bool) (k : string) :
  validClock now -> LastShaped last -> KeysCurrent last keys ->
  last <> Some (currentMinute now) ->
  (rollover (currentMinute now) last keys).2 !! k = None.
Proof.
  intros Hv Hshape Hinv Hnew. rewrite rollover_fresh by exact Hnew. cbn [snd].
  destruct (purge (currentMinute now) keys !! k) as [b|] eqn:Hk; [|reflexivity].
  apply purge_lookup_Some in Hk as [Hk Hend].
  destruct (Hinv k b Hk) as (m & Hlast & Hend').
  exfalso. apply Hnew. rewrite Hlast. f_equal.
  assert (Heq : "|" +:+ m = "|" +:+ currentMinute now).
  { apply (endsWith_same_length k); [exact Hend' | exact Hend |].
    rewrite !length_append, (Hshape m Hlast), (currentMinute_length now Hv).
    reflexivity. }
  now injection Heq.
Qed.

Lemma run_silent (s : Z) (es : list Event) :
  forall p : Page,
    4 < s -> Forall (notBefore s) es -> (run h es p).1 = [].
Proof.
  induction es as [|e es IH]; intros p Hs Hall; [reflexivity|].
  inversion Hall as [|? ? He Hes]; subst.
  rewrite run_cons_fired.
  assert (Hnone : (step h e p).1 = None).
  { destruct e as [now|m| | | | |r|i c|l]; try reflexivity.
    simpl in He. cbn [step]. unfold updateClock.
    rewrite tick_closed by (left; lia). reflexivity. }
  rewrite Hnone. now apply IH.
Qed.

(** A callback that is neither a tick inside the window nor the arrival
    of an [ALARM_FIRED] message opens no ring and shows no notification. *)
Lemma step_opens_no_ring (s : Z) (e : Event) (p : Page) :
  4 < s -> notBefore s e -> noRingMessage e ->
  (currentRinging (step h e p).2 = currentRinging p \/
   currentRinging (step h e p).2 = None) /\
  notifications (step h e p).2 = notifications p.
Proof.
  intros Hs He Hm.
  destruct e as [now|m| | | | |r|i c|l]; cbn [step snd].
  - simpl in He. unfold updateClock.
    rewrite tick_closed by (left; lia). split; [now left | reflexivity].
  - destruct m as [|b|action|].
    + split; [now left | reflexivity].
    + destruct Hm.
    + unfold onSwMessage.
      destruct (String.eqb action "dismiss"), (String.eqb action "snooze");
        (split; [first [left; reflexivity | right; reflexivity] | reflexivity]).
    + split; [now left | reflexivity].
  - split; [now right | reflexivity].
  - split; [now right | reflexivity].
  - unfold onAudioEnded.
    change (currentRinging (silenceElement p)) with (currentRinging p).
    destruct (currentRinging p) eqn:Hr;
      (split; [right; first [reflexivity | exact Hr] | reflexivity]).
  - split; [left|]; frame.
  - split; [left|]; frame.
  - split; [left|]; frame.
  - split; [left|]; frame.
Qed.

Lemma run_opens_no_ring (s : Z) (es : list Event) :
  forall p : Page,
    4 < s -> Forall (notBefore s) es -> Forall noRingMessage es ->
    (forall r : Alarm,
       currentRinging (run h es p).2 = Some r -> currentRinging p = Some r) /\
    notifications (run h es p).2 = notifications p.
Proof.
  induction es as [|e es IH]; intros p Hs Hall Hmsg; [split; auto|].
  inversion Hall as [|? ? He Hes]; subst.
  inversion Hmsg as [|? ? Hm Hms]; subst.
  rewrite run_cons_state.
  destruct (IH (step h e p).2 Hs Hes Hms) as [Hring Hnote].
  destruct (step_opens_no_ring s e p Hs He Hm) as [Hstep Hkeep].
  split; [|now rewrite Hnote].
  intros r Hr. apply Hring in Hr.
  destruct Hstep as [Hstep|Hstep]; rewrite Hstep in Hr; [exact Hr | discriminate].
Qed.

End Window.

(** C4 needs its provisos. The page below first observes 08:30 at second
    2; the alarm [weekly] is enabled, set to 08:30 and allowed on that
    weekday, yet that tick fires [wake], which stands before it in the
    list, and while [wake] rings no tick of the minute fires [weekly].
    Conversely, a page that first observes 08:30 at second 7 still rings
    [wake] during that minute when the worker, whose tick at second 7 is
    inside its window, announces it. *)
Lemma early_observation_need_not_fire :
  let p := with_alarms [wake; weekly] initialPage in
  let now := mkClock 8 30 2 3 in
  let late := run h0 late_message_events (with_alarms [wake] initialPage) in
  (late.1 = [] /\
   currentRinging late.2 = Some (slim wake) /\ overlayHidden late.2 = false /\
   swNotified
     (checkSwAlarms (mkClock 8 30 7 3) (mkWorker [slim wake] ∅ None [])).2
     = [slim wake]) /\
  lastCheckedMinute p = None /\ currentRinging p = None /\
  currentMinute now = "08:30" /\
  alarms p !! 1%nat = Some weekly /\
  enabled weekly = true /\ time weekly = "08:30" /\ onDay weekly 3 /\
  (updateClock h0 now p).1 = Some (0%nat, wake) /\
  ringsFor wake (updateClock h0 now p).2 /\
  (run h0 crowded_events p).1 = [(0%nat, wake)] /\
  ringsFor wake (run h0 crowded_events p).2.
Proof.
  cbv zeta.
  repeat match goal with
         | |- _ /\ _ => split
         | |- ringsFor _ _ => eexists; split; vm_compute; reflexivity
         | |- onDay _ _ => right; simpl; auto
         | |- _ = _ => vm_compute; reflexivity
         end.
Qed.

(** C4. A tick whose second is above the threshold (4 on the
    page, 30 in the worker) fires nothing: it only runs the rollover
    block, so no ring is opened and [showAlarmNotification] is not called.
    Hence when the page first observes a minute at second 5 or later, and
    the later observations of that minute are not earlier, no tick fires
    during it and, unless an [ALARM_FIRED] message arrives, no ring is
    opened and no notification shown; the clock 08:30:07 does not fire an
    alarm set to 08:30. When the page, started with an empty table, first
    observes the minute at second 4 or earlier, an alarm that is enabled,
    set to that minute and allowed on that weekday fires (the overlay
    opens for it) provided nothing is ringing and no alarm before it in
    stored order is enabled, set to that minute and allowed on that
    weekday; the clock 08:30:02 fires the alarm set to 08:30. *)
Theorem window_gate (h : Host) :
  (forall (now : Clock) (hh mm : string) (p : Page),
     4 < getSeconds now ->
     let cm := hh +:+ ":" +:+ mm in
     tickAlarms h now hh mm p =
       (None,
        with_fired (Some cm)
          (rollover cm (lastCheckedMinute p) (firedKeys p)).2 p)) /\
  (forall (now : Clock) (w : Worker),
     30 < getSeconds now ->
     let cm := currentMinute now in
     checkSwAlarms now w =
       (None,
        mkWorker (swAlarms w)
          (rollover cm (swLastMinute w) (swFiredKeys w)).2 (Some cm)
          (swNotified w))) /\
  (forall (s : Z) (es : list Event) (p : Page),
     4 < s -> Forall (notBefore s) es ->
     (run h es p).1 = [] /\
     (Forall noRingMessage es ->
      (forall r : Alarm,
         currentRinging (run h es p).2 = Some r -> ringsFor r p) /\
      notifications (run h es p).2 = notifications p)) /\
  (forall (es : list Event) (p0 : Page) (now : Clock) (i : nat) (a : Alarm),
     firedKeys p0 = ∅ -> lastCheckedMinute p0 = None ->
     Forall validEvent es -> validClock now ->
     let p := (run h es p0).2 in
     lastCheckedMinute p <> Some (currentMinute now) ->
     getSeconds now <= 4 -> currentRinging p = None ->
     alarms p !! i = Some a ->
     enabled a = true -> time a = currentMinute now -> onDay a (getDay now) ->
     (forall (j : nat) (b : Alarm),
        (j < i)%nat -> alarms p !! j = Some b ->
        ~ (enabled b = true /\ time b = currentMinute now /\
           onDay b (getDay now))) ->
     (updateClock h now p).1 = Some (i, a) /\
     ringsFor a (updateClock h now p).2 /\
     overlayHidden (updateClock h now p).2 = false) /\
  ((updateClock h (mkClock 8 30 7 3) (with_alarms [wake] initialPage)).1 = None /\
   currentRinging
     (updateClock h (mkClock 8 30 7 3) (with_alarms [wake] initialPage)).2
     = None /\
   overlayHidden
     (updateClock h (mkClock 8 30 7 3) (with_alarms [wake] initialPage)).2
     = true) /\
  ((updateClock h (mkClock 8 30 2 3) (with_alarms [wake] initialPage)).1
     = Some (0%nat, wake) /\
   ringsFor wake
     (updateClock h (mkClock 8 30 2 3) (with_alarms [wake] initialPage)).2 /\
   overlayHidden
     (updateClock h (mkClock 8 30 2 3) (with_alarms [wake] initialPage)).2
     = false).
Proof.
  assert (Hfirst :
    forall (es : list Event) (p0 : Page) (now : Clock) (i : nat) (a : Alarm),
     firedKeys p0 = ∅ -> lastCheckedMinute p0 = None ->
     Forall validEvent es -> validClock now ->
     let p := (run h es p0).2 in
     lastCheckedMinute p <> Some (currentMinute now) ->
     getSeconds now <= 4 -> currentRinging p = None ->
     alarms p !! i = Some a ->
     enabled a = true -> time a = currentMinute now -> onDay a (getDay now) ->
     (forall (j : nat) (b : Alarm),
        (j < i)%nat -> alarms p !! j = Some b ->
        ~ (enabled b = true /\ time b = currentMinute now /\
           onDay b (getDay now))) ->
     (updateClock h now p).1 = Some (i, a)).
  { intros es p0 now i a Hempty Hnone Hes Hv p Hnew Hss Hr Hi Hen Ht Hd Hmin.
    assert (Hshape : LastShaped (lastCheckedMinute p)).
    { apply run_LastShaped; [exact Hes|]. rewrite Hnone. intros m Hm. discriminate. }
    assert (Hcur : KeysCurrent (lastCheckedMinute p) (firedKeys p)).
    { apply run_KeysCurrent. rewrite Hempty. apply KeysCurrent_empty. }
    unfold updateClock. rewrite tick_open by assumption.
    fold (currentMinute now).
    assert (Hscan : scan (currentMinute now) (getDay now)
              (rollover (currentMinute now) (lastCheckedMinute p) (firedKeys p)).2
              (alarms p) 0 = Some (i, a)).
    { apply scan_first. split; [exact Hi|]. split.
      - repeat split; try assumption.
        rewrite first_observation_clears by assumption. discriminate.
      - intros j b Hlt Hb (Hbe & Hbt & Hbd & _). apply (Hmin j b Hlt Hb). auto. }
    rewrite Hscan. reflexivity. }
  assert (Hwake :
    (updateClock h (mkClock 8 30 2 3) (with_alarms [wake] initialPage)).1
      = Some (0%nat, wake)).
  { apply (Hfirst [] (with_alarms [wake] initialPage) (mkClock 8 30 2 3) 0%nat wake);
      try reflexivity.
    + constructor.
    + unfold validClock. simpl. lia.
    + simpl. discriminate.
    + simpl. lia.
    + now left.
    + intros j b Hlt. lia. }
  split; [|split; [|split; [|split; [|split]]]].
  - intros now hh mm p Hss cm. apply tick_closed. left. lia.
  - intros now w Hss cm. apply sw_closed. lia.
  - intros s es p Hs Hall. split; [now apply run_silent with (s := s)|].
    intros Hmsg.
    destruct (run_opens_no_ring h s es p Hs Hall Hmsg) as [Hring Hnote].
    split; [|exact Hnote]. intros r Hr. exists r. split; [now apply Hring|].
    reflexivity.
  - intros es p0 now i a Hempty Hnone Hes Hv p Hnew Hss Hr Hi Hen Ht Hd Hmin.
    pose proof (Hfirst es p0 now i a Hempty Hnone Hes Hv Hnew Hss Hr Hi Hen Ht
                  Hd Hmin) as Hf.
    split; [exact Hf|]. unfold updateClock in *.
    destruct (tick_ring h _ _ _ _ i a Hf) as (Hr1 & Hr2).
    split; [exists a; split; [exact Hr1 | reflexivity] | exact Hr2].
  - unfold updateClock.
    rewrite (tick_closed h (mkClock 8 30 7 3)) by (left; simpl; lia).
    repeat split; reflexivity.
  - split; [exact Hwake|].
    unfold updateClock in *.
    destruct (tick_ring h _ _ _ _ 0%nat wake Hwake) as (Hr & Ho).
    split; [exists wake; split; [exact Hr | reflexivity] | exact Ho].
Qed.

Lemma window_gate_witness :
  (tickAlarms h0 (mkClock 8 30 7 3) "08" "30" (with_alarms [wake] initialPage)).1
    = None /\
  swNotified (checkSwAlarms (mkClock 8 30 31 3) (mkWorker [wake] ∅ None [])).2
    = [] /\
  ((run h0 late_events (with_alarms [wake] initialPage)).1 = [] /\
   currentRinging (run h0 late_events (with_alarms [wake] initialPage)).2
     = None) /\
  (let p := (run h0 [EvClock (mkClock 8 29 59 3)]
               (with_alarms [seven_a; wake] initialPage)).2 in
   (updateClock h0 (mkClock 8 30 2 3) p).1 = Some (1%nat, wake) /\
   ringsFor wake (updateClock h0 (mkClock 8 30 2 3) p).2).
Proof.
  pose proof (window_gate h0) as (Hp & Hw & Hrun & Hfirst & _ & _).
  split; [|split; [|split]].
  - rewrite Hp by (simpl; lia). reflexivity.
  - rewrite Hw by (simpl; lia). reflexivity.
  - destruct (Hrun 7 late_events (with_alarms [wake] initialPage)) as [Hnone Hquiet];
      [lia | unfold late_events; repeat constructor; simpl; lia |].
    split; [exact Hnone|].
    destruct Hquiet as [Hring _]; [unfold late_events; repeat constructor|].
    destruct (currentRinging (run h0 late_events _).2) as [r|] eqn:Hr;
      [|reflexivity].
    destruct (Hring r eq_refl) as (r0 & Hr0 & _). discriminate.
  - cbv zeta.
    destruct (Hfirst [EvClock (mkClock 8 29 59 3)]
                (with_alarms [seven_a; wake] initialPage) (mkClock 8 30 2 3)
                1%nat wake) as (Hf & Hr & _);
      try reflexivity.
    + repeat constructor; simpl; lia.
    + unfold validClock. simpl. lia.
    + vm_compute. discriminate.
    + simpl. lia.
    + now left.
    + intros [|j] b Hlt Hb; [|lia]. vm_compute in Hb. injection Hb as <-.
      intros (_ & Ht & _). vm_compute in Ht. discriminate.
    + split; [exact Hf | exact Hr].
Defined.

(** ** One-shot alarms *)

Section OneShot.

Variable h : Host.

Lemma tick_alarms (now : Clock) (hh mm : string) (p : Page) :
  alarms (tickAlarms h now hh mm p).2 =
    match (tickAlarms h now hh mm p).1 with
    | Some (i, a) =>
        if hasDays a then alarms p
        else <[i := set_enabled false a]> (alarms p)
    | None => alarms p
    end.
Proof.
  destruct (Z_gt_le_dec (getSeconds now) 4) as [Hss|Hss];
    [rewrite tick_closed by (left; lia); reflexivity|].
  destruct (currentRinging p) eqn:Hr;
    [rewrite tick_closed by (right; congruence); reflexivity|].
  rewrite tick_open by assumption.
  destruct (scan _ _ _ _ _) as [[i a]|]; [|reflexivity].
  cbn [fst snd]. destruct (hasDays a); frame.
Qed.

Lemma tick_fired_enabled (now : Clock) (hh mm : string) (p : Page)
    (i : nat) (a : Alarm) :
  (tickAlarms h now hh mm p).1 = Some (i, a) ->
  alarms p !! i = Some a /\ enabled a = true.
Proof.
  intros Hf. apply tick_fired_inv in Hf as (_ & _ & Hscan).
  apply scan_first in Hscan as (Hi & (Hen & _) & _). auto.
Qed.

Lemma disabledAt_insert (i j : nat) (a : Alarm) (l : list Alarm) :
  disabledAt i l -> disabledAt i (<[j := set_enabled false a]> l).
Proof.
  intros (b & Hb & Hen). destruct (decide (j = i)) as [->|Hne].
  - exists (set_enabled false a). split; [|reflexivity].
    apply list_lookup_insert_eq. now apply lookup_lt_Some in Hb.
  - exists b. split; [|exact Hen]. now rewrite list_lookup_insert_ne.
Qed.

Lemma step_disabledAt (i : nat) (e : Event) (p : Page) :
  keepsDisabled i e -> disabledAt i (alarms p) ->
  disabledAt i (alarms (step h e p).2) /\
  forall (j : nat) (b : Alarm), (step h e p).1 = Some (j, b) -> j <> i.
Proof.
  intros Hk Hdis. destruct e as [now|m| | | | |r|j c|l]; cbn [step fst snd].
  - split.
    + unfold updateClock. rewrite tick_alarms.
      destruct (tickAlarms _ _ _ _ _).1 as [[j b]|]; [|exact Hdis].
      destruct (hasDays b); [exact Hdis | now apply disabledAt_insert].
    + intros j b Hf -> . apply tick_fired_enabled in Hf as [Hj Hen].
      destruct Hdis as (a & Ha & Hoff). congruence.
  - split; [|discriminate].
    replace (alarms (onSwMessage h m p)) with (alarms p) by (symmetry; frame).
    exact Hdis.
  - split; [exact Hdis | discriminate].
  - split; [exact Hdis | discriminate].
  - split; [|discriminate].
    replace (alarms (onAudioEnded p)) with (alarms p) by (symmetry; frame).
    exact Hdis.
  - split; [|discriminate].
    replace (alarms (onPlayFailed h p)) with (alarms p) by (symmetry; frame).
    exact Hdis.
  - split; [|discriminate].
    replace (alarms (fireAlarm_resume h r p)) with (alarms p) by (symmetry; frame).
    exact Hdis.
  - split; [|discriminate]. unfold onToggle.
    destruct (alarms p !! j) as [b|] eqn:Hj; [|exact Hdis].
    rewrite saveAlarms_alarms. cbn [alarms with_alarms].
    destruct Hdis as (a & Ha & Hoff). simpl in Hk.
    destruct (decide (j = i)) as [->|Hne].
    + destruct Hk as [Hk| ->]; [contradiction|].
      exists (set_enabled false b). split; [|reflexivity].
      apply list_lookup_insert_eq. now apply lookup_lt_Some in Ha.
    + exists a. split; [|exact Hoff]. now rewrite list_lookup_insert_ne.
  - contradiction.
Qed.

Lemma run_disabledAt (i : nat) (es : list Event) :
  forall p : Page,
    Forall (keepsDisabled i) es -> disabledAt i (alarms p) ->
    forall (j : nat) (b : Alarm), In (j, b) (run h es p).1 -> j <> i.
Proof.
  induction es as [|e es IH]; intros p Hall Hdis j b Hin; [destruct Hin|].
  inversion Hall as [|? ? He Hes]; subst.
  destruct (step_disabledAt i e p He Hdis) as [Hnext Hnow].
  rewrite run_cons_fired in Hin.
  destruct (step h e p).1 as [[j' b']|] eqn:Hf.
  - destruct Hin as [[= -> ->]|Hin]; [now apply (Hnow j b) | now apply (IH _ Hes Hnext j b)].
  - now apply (IH _ Hes Hnext j b).
Qed.

End OneShot.

Lemma saveAlarms_storage (h : Host) (p : Page) :
  storage (saveAlarms h p) =
    if setItem_throws h (JSON_stringify h (alarms p)) then
      if setItem_throws h (JSON_stringify h (map stripAudio (alarms p)))
      then storage p
      else Some (JSON_stringify h (map stripAudio (alarms p)))
    else Some (JSON_stringify h (alarms p)).
Proof. frame. Qed.

Section StaysOff.

Variable h : Host.

Lemma In_insert (i : nat) (v b : Alarm) (l : list Alarm) :
  In b (<[i := v]> l) -> b = v \/ In b l.
Proof.
  rewrite <- !list_elem_of_In. intros Hb.
  apply list_elem_of_lookup in Hb as [j Hj].
  apply list_lookup_insert_Some in Hj as [(-> & -> & _)|[_ Hj]]; [now left|].
  right. now apply list_elem_of_lookup_2 in Hj.
Qed.

Lemma step_offById (x : string) (e : Event) (p : Page) :
  keepsOff x e p -> offById x (alarms p) ->
  offById x (alarms (step h e p).2) /\
  forall (j : nat) (b : Alarm), (step h e p).1 = Some (j, b) -> id b <> x.
Proof.
  intros Hk Hoff. destruct e as [now|m| | | | |r|j c|l]; cbn [step fst snd].
  - split.
    + unfold updateClock. rewrite tick_alarms.
      destruct (tickAlarms _ _ _ _ _).1 as [[j b]|]; [|exact Hoff].
      destruct (hasDays b); [exact Hoff|].
      intros a Ha Hid. apply In_insert in Ha as [->|Ha]; [reflexivity|].
      now apply Hoff.
    + intros j b Hf Hid. apply tick_fired_enabled in Hf as [Hj Hen].
      apply list_elem_of_lookup_2, list_elem_of_In in Hj.
      rewrite (Hoff b Hj Hid) in Hen. discriminate.
  - split; [|discriminate].
    replace (alarms (onSwMessage h m p)) with (alarms p) by (symmetry; frame).
    exact Hoff.
  - split; [exact Hoff | discriminate].
  - split; [exact Hoff | discriminate].
  - split; [|discriminate].
    replace (alarms (onAudioEnded p)) with (alarms p) by (symmetry; frame).
    exact Hoff.
  - split; [|discriminate].
    replace (alarms (onPlayFailed h p)) with (alarms p) by (symmetry; frame).
    exact Hoff.
  - split; [|discriminate].
    replace (alarms (fireAlarm_resume h r p)) with (alarms p) by (symmetry; frame).
    exact Hoff.
  - split; [|discriminate]. unfold onToggle.
    destruct (alarms p !! j) as [b|] eqn:Hj; [|exact Hoff].
    rewrite saveAlarms_alarms. cbn [alarms with_alarms].
    intros a Ha Hid. apply In_insert in Ha as [->|Ha]; [|now apply Hoff].
    simpl in Hk. destruct Hk as [->|Hk]; [reflexivity|].
    exfalso. apply (Hk b Hj). exact Hid.
  - split; [|discriminate]. unfold onEdit.
    rewrite renderAlarms_alarms, saveAlarms_alarms. exact Hk.
Qed.

Lemma run_offById (x : string) (es : list Event) :
  forall p : Page,
    staysOff h x es p -> offById x (alarms p) ->
    forall (j : nat) (b : Alarm), In (j, b) (run h es p).1 -> id b <> x.
Proof.
  induction es as [|e es IH]; intros p Hall Hoff j b Hin; [destruct Hin|].
  destruct Hall as [He Hes].
  destruct (step_offById x e p He Hoff) as [Hnext Hnow].
  rewrite run_cons_fired in Hin.
  destruct (step h e p).1 as [[j' b']|] eqn:Hf.
  - destruct Hin as [[= -> ->]|Hin];
      [now apply (Hnow j b) | now apply (IH _ Hes Hnext j b)].
  - now apply (IH _ Hes Hnext j b).
Qed.

End StaysOff.

(** C5 covers the ticks only. The one-shot alarm [wake] is fired by the tick
    of 08:30:02 and disabled; after the ring is dismissed an [ALARM_FIRED]
    message for the same alarm (the worker's copy is its own, and
    [onSwMessage] does not test [enabled]) opens the ring again, while
    the record in the list is still disabled. On a host whose storage
    refuses the write the page posts nothing, and a worker that still
    holds the enabled copy passes it to [showAlarmNotification] at the
    next 08:30. *)
Lemma disabled_one_shot_rings_again :
  let p := with_alarms [wake] initialPage in
  let r := run h0 ring_again_events p in
  let w := mkWorker [slim wake] ∅ None [] in
  hasDays wake = false /\
  r.1 = [(0%nat, wake)] /\
  alarms r.2 = [set_enabled false wake] /\
  id (slim wake) = id wake /\
  currentRinging r.2 = Some (slim wake) /\
  overlayHidden r.2 = false /\
  posted (updateClock h_full (mkClock 8 30 2 3) p).2 = [] /\
  swNotified (checkSwAlarms (mkClock 8 30 10 4) w).2 = [slim wake].
Proof.
  cbv zeta.
  repeat match goal with
         | |- _ /\ _ => split
         | |- ringsFor _ _ => eexists; split; vm_compute; reflexivity
         | |- _ = _ => vm_compute; reflexivity
         end.
Qed.

(** C5. When a foreground tick fires an alarm whose days are
    empty or missing, the ring opens for it, the record at its position has
    [enabled = false] afterwards and is otherwise unchanged, and
    [saveAlarms] writes the updated list under the storage key (the whole
    list, or the list without audio fields when the first write is refused;
    nothing only when both are). The cards are rebuilt from the updated
    list; both lists are complete when every card can be built. When no
    other record shares the alarm's id, no later foreground tick fires an
    alarm with that id as long as no callback enables such a record: other
    alarms may be added, edited, toggled and deleted, but the alarm's own
    toggle is not switched on and no save stores it enabled; nor does a
    later tick fire its position while the array is not replaced and that
    toggle is not switched on. A ring opened by an [ALARM_FIRED] message
    does not test the flag. The worker's tick never changes its alarm
    list. *)
Theorem one_shot_disabled_after_fire (h : Host) :
  (forall (now : Clock) (hh mm : string) (p : Page) (i : nat) (a : Alarm),
     (tickAlarms h now hh mm p).1 = Some (i, a) -> hasDays a = false ->
     let p' := (tickAlarms h now hh mm p).2 in
     let raw := JSON_stringify h (alarms p') in
     let raw2 := JSON_stringify h (map stripAudio (alarms p')) in
     alarms p !! i = Some a /\ enabled a = true /\
     ringsFor a p' /\ overlayHidden p' = false /\
     alarms p' = <[i := set_enabled false a]> (alarms p) /\
     alarms p' !! i = Some (set_enabled false a) /\
     enabled (set_enabled false a) = false /\
     storage p' =
       (if setItem_throws h raw then
          if setItem_throws h raw2 then storage p else Some raw2
        else Some raw) /\
     ((forall b : Alarm, In b (alarms p') -> buildCardThrows h b = false) ->
      cardsRegular p' = filter (fun b => categoryOf b ≠ "puasa") (alarms p') /\
      cardsPuasa p' = filter (fun b => categoryOf b = "puasa") (alarms p')) /\
     ((forall (j : nat) (b : Alarm),
         alarms p !! j = Some b -> id b = id a -> j = i) ->
      forall es : list Event,
        staysOff h (id a) es p' ->
        forall (j : nat) (b : Alarm),
          In (j, b) (run h es p').1 -> id b <> id a) /\
     (forall es : list Event,
        Forall (keepsDisabled i) es ->
        forall (j : nat) (b : Alarm), In (j, b) (run h es p').1 -> j <> i)) /\
  (forall (p : Page) (b : Alarm),
     currentRinging p = None ->
     currentRinging (onSwMessage h (ALARM_FIRED b) p) = Some b /\
     overlayHidden (onSwMessage h (ALARM_FIRED b) p) = false /\
     alarms (onSwMessage h (ALARM_FIRED b) p) = alarms p) /\
  (forall (now : Clock) (w : Worker),
     swAlarms (checkSwAlarms now w).2 = swAlarms w).
Proof.
  split; [|split].
  - intros now hh mm p i a Hf Hone p' raw raw2.
    pose proof (tick_fired_enabled h now hh mm p i a Hf) as [Hi Hen].
    pose proof (tick_alarms h now hh mm p) as Hal.
    rewrite Hf, Hone in Hal. fold p' in Hal.
    destruct (tick_ring h now hh mm p i a Hf) as (Hring & Hover).
    fold p' in Hring, Hover.
    assert (Hat : alarms p' !! i = Some (set_enabled false a)).
    { rewrite Hal. apply list_lookup_insert_eq. now apply lookup_lt_Some in Hi. }
    split; [exact Hi|]. split; [exact Hen|].
    split; [exists a; split; [exact Hring | reflexivity]|].
    split; [exact Hover|]. split; [exact Hal|].
    split; [exact Hat|]. split; [reflexivity|].
    assert (Hshape : exists q,
              p' = renderAlarms h (saveAlarms h q) /\ storage q = storage p).
    { apply tick_fired_inv in Hf as Hinv. destruct Hinv as (Hss & Hr & Hscan).
      subst p'. rewrite tick_open by assumption. rewrite Hscan. cbn [snd].
      rewrite Hone. eexists. split; [reflexivity|].
      cbn [storage with_alarms]. now rewrite (proj1 (fireAlarm_storage h a _)). }
    destruct Hshape as (q & Hp' & Hq).
    assert (Hqa : alarms q = alarms p').
    { rewrite Hp', renderAlarms_alarms, saveAlarms_alarms. reflexivity. }
    assert (Hsa : alarms (saveAlarms h q) = alarms p').
    { now rewrite saveAlarms_alarms. }
    split.
    { subst raw raw2. rewrite <- Hqa, <- Hq, <- saveAlarms_storage.
      rewrite Hp'. frame. }
    split.
    { intros Hsafe. rewrite <- Hsa in Hsafe.
      destruct (renderAlarms_safe h _ Hsafe) as [Hrender _].
      rewrite <- Hsa. rewrite Hp', Hrender. split; reflexivity. }
    split.
    { intros Huniq es Hall. apply (run_offById h (id a) es p' Hall).
      intros b Hb Hid. rewrite Hal in Hb.
      apply list_elem_of_In, list_elem_of_lookup in Hb as [j Hj].
      apply list_lookup_insert_Some in Hj as [(_ & <- & _)|[Hne Hj]];
        [reflexivity|].
      exfalso. apply Hne. symmetry. exact (Huniq j b Hj Hid). }
    intros es Hall. apply run_disabledAt; [exact Hall|].
    exists (set_enabled false a). split; [exact Hat | reflexivity].
  - intros p b Hr. unfold onSwMessage. rewrite Hr.
    destruct (fireAlarm_ringing h b p) as [H1 H2].
    split; [exact H1|]. split; [exact H2 | apply fireAlarm_alarms].
  - intros now w. apply sw_alarms.
Qed.

Lemma one_shot_disabled_after_fire_witness :
  let p := with_alarms [wake] initialPage in
  let p' := (tickAlarms h0 (mkClock 8 30 2 3) "08" "30" p).2 in
  ringsFor wake p' /\
  alarms p' !! 0%nat = Some (set_enabled false wake) /\
  storage p' = Some "[]" /\
  (cardsRegular p' = [set_enabled false wake] /\ cardsPuasa p' = []) /\
  (forall (j : nat) (b : Alarm),
     In (j, b) (run h0 other_alarm_events p').1 -> id b <> "a1") /\
  (forall (j : nat) (b : Alarm),
     In (j, b) (run h0 after_fire_events p').1 -> j <> 0%nat) /\
  swAlarms
    (checkSwAlarms (mkClock 8 30 2 3) (mkWorker [wake] ∅ None [])).2
    = [wake].
Proof.
  intros p p'.
  pose proof (one_shot_disabled_after_fire h0) as (Hpage & _ & Hsw).
  destruct (Hpage (mkClock 8 30 2 3) "08" "30" p 0%nat wake)
    as (_ & _ & Hring & _ & _ & Hat & _ & Hst & Hcards & Hnever & Hplace);
    [vm_compute; reflexivity | reflexivity |].
  split; [exact Hring|]. split; [exact Hat|]. split; [exact Hst|]. split.
  - apply Hcards. intros b Hb. apply plainName_builds.
    destruct Hb as [<-|[]]. reflexivity.
  - split; [|split; [|apply Hsw]];
      [|apply Hplace; unfold after_fire_events;
        repeat first [apply List.Forall_nil | apply List.Forall_cons];
        simpl; auto].
    apply Hnever.
    + intros [|j] b Hb Hid; [reflexivity | destruct j; discriminate].
    + unfold other_alarm_events. cbn [staysOff].
      repeat split; try exact I.
      * intros b [<-|[<-|[]]] Hid; [reflexivity | discriminate].
      * now left.
      * right. intros b Hb. vm_compute in Hb. injection Hb as <-. discriminate.
Defined.

(** ** The slim projection *)

(** C6. The record posted to the worker carries the same [id], [time],
    [days], [enabled], [name] and [category] as the page's record and has
    no [audioDataUrl] property, the only field holding audio data; the
    reference [audioKey] and the label [audioName] travel with it. The
    projection therefore passes the same loop guards. When a controller
    exists the posted payload is the projection of every record in stored
    order, and the worker stores that payload as its list. *)
Theorem slim_projection :
  (forall a : Alarm,
     id (slim a) = id a /\ time (slim a) = time a /\ days (slim a) = days a /\
     enabled (slim a) = enabled a /\ name (slim a) = name a /\
     category (slim a) = category a /\
     audioDataUrl (slim a) = Absent /\
     audioKey (slim a) = audioKey a /\ audioName (slim a) = audioName a) /\
  (forall (cm : string) (day : Z) (keys : gmap string bool) (a : Alarm),
     due cm day keys (slim a) = due cm day keys a) /\
  (forall (h : Host) (p : Page),
     posted (syncAlarmsToSW h p) =
       if sw_controller h then (posted p ++ [map slim (alarms p)])%list
       else posted p) /\
  (forall (l : list Alarm) (i : nat),
     map slim l !! i = slim <$> l !! i) /\
  (forall (l : list Alarm) (now : Clock) (w : Worker),
     swAlarms (swStep (SwSync (Some (map slim l)) now) w).2 = map slim l).
Proof.
  repeat apply conj.
  - intros a. repeat split; reflexivity.
  - intros cm day keys a. reflexivity.
  - intros h p. unfold syncAlarmsToSW. destruct (sw_controller h); reflexivity.
  - intros l i. apply list_lookup_fmap.
  - intros l now w. cbn [swStep]. rewrite sw_alarms. reflexivity.
Qed.

Example slim_with_inline :
  slim with_inline =
    mkAlarm "k9" "Subuh" "04:30" (Some [0; 6]) "puasa" true true None
      Absent (Some "adzan.mp3").
Proof. reflexivity. Qed.

(** ** Loading *)



(** ** The fire action leaves the alarms alone *)

(** C10. Neither [fireAlarm] nor any of its later stages (the resumption
    after the blob lookup, the playback-failure handler, the [ended]
    listener) changes the alarm list, the stored text or the payloads
    posted to the worker; [onSwMessage] changes none of them either. So
    when the overlay is opened by an [ALARM_FIRED] message for a one-shot
    alarm, the alarm rings while its record in the list keeps
    [enabled = true]. *)
Theorem fire_leaves_alarms (h : Host) :
  (forall (a : Alarm) (p : Page),
     alarms (fireAlarm h a p) = alarms p /\
     storage (fireAlarm h a p) = storage p /\
     posted (fireAlarm h a p) = posted p) /\
  (forall (r : BlobResult) (p : Page),
     alarms (fireAlarm_resume h r p) = alarms p) /\
  (forall p : Page,
     alarms (onPlayFailed h p) = alarms p /\ alarms (onAudioEnded p) = alarms p) /\
  (forall (m : PageMessage) (p : Page),
     alarms (onSwMessage h m p) = alarms p /\
     storage (onSwMessage h m p) = storage p /\
     posted (onSwMessage h m p) = posted p) /\
  (forall (a : Alarm) (i : nat) (p : Page),
     currentRinging p = None ->
     alarms p !! i = Some a -> hasDays a = false -> enabled a = true ->
     let p' := onSwMessage h (ALARM_FIRED (slim a)) p in
     currentRinging p' = Some (slim a) /\ overlayHidden p' = false /\
     exists b : Alarm, alarms p' !! i = Some b /\ enabled b = true).
Proof.
  repeat apply conj.
  - intros a p. repeat split; frame.
  - frame.
  - intros p. split; frame.
  - intros m p. repeat split; frame.
  - intros a i p Hr Hi Hone Hen p'. subst p'. cbn [onSwMessage]. rewrite Hr.
    rewrite (proj1 (fireAlarm_ringing h (slim a) p)).
    rewrite (proj2 (fireAlarm_ringing h (slim a) p)).
    rewrite fireAlarm_alarms. split; [reflexivity|]. split; [reflexivity|].
    exists a. auto.
Qed.

Lemma fire_leaves_alarms_witness :
  let p := with_alarms [wake] initialPage in
  let p' := onSwMessage h0 (ALARM_FIRED (slim wake)) p in
  currentRinging p' = Some (slim wake) /\ overlayHidden p' = false /\
  exists b : Alarm, alarms p' !! 0%nat = Some b /\ enabled b = true.
Proof.
  intros p p'.
  destruct (fire_leaves_alarms h0) as (_ & _ & _ & _ & Hmsg).
  apply (Hmsg wake 0%nat p); reflexivity.
Defined.

(** The same alarm fired by the page's own tick is switched off. *)
Example tick_disables_wake :
  alarms (updateClock h0 (mkClock 8 30 2 3) (with_alarms [wake] initialPage)).2
    = [set_enabled false wake].
Proof. vm_compute. reflexivity. Qed.

(** ** The reentrancy gate *)

Section Gate.

Variable h : Host.

Lemma dismissAlarm_quiet (p : Page) :
  quiet (dismissAlarm p) /\ currentRinging (dismissAlarm p) = None.
Proof. unfold quiet. repeat split. Qed.

Lemma tick_ringing_closed (now : Clock) (hh mm : string) (p : Page) :
  currentRinging p <> None ->
  (tickAlarms h now hh mm p).1 = None /\
  currentRinging (tickAlarms h now hh mm p).2 = currentRinging p /\
  overlayHidden (tickAlarms h now hh mm p).2 = overlayHidden p.
Proof.
  intros Hr. rewrite tick_closed by (right; exact Hr). repeat split.
Qed.

Lemma step_clears_gate (e : Event) (p : Page) :
  currentRinging p <> None ->
  currentRinging (step h e p).2 = None \/
    (overlayHidden p = false /\ overlayHidden (step h e p).2 = true) ->
  isDismissal e /\ quiet (step h e p).2 /\ currentRinging (step h e p).2 = None.
Proof.
  intros Hr Hclr.
  destruct e as [now|m| | | | |r|i c|l]; cbn [step fst snd isDismissal] in *.
  - unfold updateClock in Hclr.
    destruct (tick_ringing_closed now (pad (getHours now)) (pad (getMinutes now)) p Hr)
      as (_ & Hsame & Hov).
    rewrite Hsame, Hov in Hclr. destruct Hclr as [Hc|[Hc1 Hc2]]; congruence.
  - destruct m as [|a|action|]; cbn [onSwMessage] in *.
    + destruct Hclr as [Hc|[Hc1 Hc2]]; congruence.
    + destruct (currentRinging p) eqn:Hp; [|congruence].
      destruct Hclr as [Hc|[Hc1 Hc2]]; congruence.
    + destruct (String.eqb_spec action "dismiss") as [Hd|Hd];
        destruct (String.eqb_spec action "snooze") as [Hs|Hs].
      * split; [now left|]. split; apply dismissAlarm_quiet.
      * split; [now left|]. split; apply dismissAlarm_quiet.
      * split; [now right|]. split; apply dismissAlarm_quiet.
      * destruct Hclr as [Hc|[Hc1 Hc2]]; congruence.
    + destruct Hclr as [Hc|[Hc1 Hc2]]; congruence.
  - split; [exact I|]. split; apply dismissAlarm_quiet.
  - split; [exact I|]. split; apply dismissAlarm_quiet.
  - split; [exact I|]. unfold onAudioEnded.
    replace (currentRinging (silenceElement p)) with (currentRinging p) by reflexivity.
    destruct (currentRinging p) eqn:Hp; [|congruence].
    split; apply dismissAlarm_quiet.
  - exfalso.
    replace (currentRinging (onPlayFailed h p)) with (currentRinging p) in Hclr
      by (symmetry; frame).
    replace (overlayHidden (onPlayFailed h p)) with (overlayHidden p) in Hclr
      by (symmetry; frame).
    destruct Hclr as [Hc|[Hc1 Hc2]]; congruence.
  - exfalso.
    replace (currentRinging (fireAlarm_resume h r p)) with (currentRinging p) in Hclr
      by (symmetry; frame).
    replace (overlayHidden (fireAlarm_resume h r p)) with (overlayHidden p) in Hclr
      by (symmetry; frame).
    destruct Hclr as [Hc|[Hc1 Hc2]]; congruence.
  - exfalso.
    replace (currentRinging (onToggle h i c p)) with (currentRinging p) in Hclr
      by (symmetry; frame).
    replace (overlayHidden (onToggle h i c p)) with (overlayHidden p) in Hclr
      by (symmetry; frame).
    destruct Hclr as [Hc|[Hc1 Hc2]]; congruence.
  - exfalso.
    replace (currentRinging (onEdit h l p)) with (currentRinging p) in Hclr
      by (symmetry; frame).
    replace (overlayHidden (onEdit h l p)) with (overlayHidden p) in Hclr
      by (symmetry; frame).
    destruct Hclr as [Hc|[Hc1 Hc2]]; congruence.
Qed.

End Gate.

Lemma run_while_ringing (h : Host) (es : list Event) :
  forall p : Page,
    currentRinging p <> None ->
    Forall (fun e => ~ isDismissal e) es ->
    (run h es p).1 = [] /\ currentRinging (run h es p).2 <> None.
Proof.
  induction es as [|e es IH]; intros p Hr Hall; [split; [reflexivity | exact Hr]|].
  inversion Hall as [|? ? He Hes]; subst.
  assert (Hstill : currentRinging (step h e p).2 <> None).
  { intros Hc. apply He. now apply (step_clears_gate h e p Hr); left. }
  assert (Hnone : (step h e p).1 = None).
  { destruct e as [now|m| | | | |r|i c|l]; try reflexivity.
    cbn [step]. unfold updateClock. now apply tick_ringing_closed. }
  rewrite run_cons_fired, run_cons_state, Hnone. now apply IH.
Qed.

(** C8. While [currentRinging] is set a foreground tick fires nothing and
    adds no key to the table. [dismissAlarm] hides the overlay, stops the
    audio element, revokes the object URL, stops the beep and clears
    [currentRinging]. A callback that clears [currentRinging], or hides the
    overlay of a ringing alarm, is a dismissal (dismiss button, Escape key,
    the [ended] listener, a dismiss or snooze action message) and leaves
    everything quiet; without a dismissal the alarm keeps ringing and no
    tick fires. *)
Theorem ringing_gate (h : Host) :
  (forall (now : Clock) (hh mm : string) (p : Page),
     currentRinging p <> None ->
     let r := tickAlarms h now hh mm p in
     r.1 = None /\
     (forall (k : string) (b : bool),
        firedKeys r.2 !! k = Some b -> firedKeys p !! k = Some b) /\
     currentRinging r.2 = currentRinging p) /\
  (forall p : Page,
     quiet (dismissAlarm p) /\ currentRinging (dismissAlarm p) = None) /\
  (forall (e : Event) (p : Page),
     currentRinging p <> None ->
     currentRinging (step h e p).2 = None \/
       (overlayHidden p = false /\ overlayHidden (step h e p).2 = true) ->
     isDismissal e /\ quiet (step h e p).2 /\
     currentRinging (step h e p).2 = None) /\
  (forall (es : list Event) (p : Page),
     currentRinging p <> None ->
     Forall (fun e => ~ isDismissal e) es ->
     (run h es p).1 = [] /\ currentRinging (run h es p).2 <> None).
Proof.
  repeat apply conj.
  - intros now hh mm p Hr r. subst r.
    destruct (tick_ringing_closed h now hh mm p Hr) as (Hnone & Hsame & _).
    split; [exact Hnone|]. split; [|exact Hsame].
    intros k b Hk. rewrite tick_firedKeys, Hnone in Hk.
    now apply rollover_sub in Hk.
  - apply dismissAlarm_quiet.
  - apply step_clears_gate.
  - intros es p. apply run_while_ringing.
Qed.

Lemma ringing_gate_witness :
  (tickAlarms h0 (mkClock 8 30 1 3) "08" "30" ringing_wake).1 = None /\
  (isDismissal (EvSwMessage (ALARM_ACTION "dismiss")) /\
   quiet (step h0 (EvSwMessage (ALARM_ACTION "dismiss")) ringing_wake).2 /\
   currentRinging (step h0 (EvSwMessage (ALARM_ACTION "dismiss")) ringing_wake).2
     = None) /\
  ((run h0 busy_events ringing_wake).1 = [] /\
   currentRinging (run h0 busy_events ringing_wake).2 <> None).
Proof.
  destruct (ringing_gate h0) as (Htick & _ & Hclear & Hrun).
  split; [|split].
  - apply Htick. vm_compute. discriminate.
  - apply Hclear; [vm_compute; discriminate | left; vm_compute; reflexivity].
  - apply Hrun; [vm_compute; discriminate|].
    unfold busy_events.
    repeat first [apply List.Forall_nil | apply List.Forall_cons]; simpl; auto.
Defined.

(** Once dismissed inside the window, the second alarm of the minute gets
    its turn. *)
Example second_alarm_after_dismissal :
  (run h0 [EvDismissClick; EvClock (mkClock 8 30 1 3)] ringing_wake).1
    = [(1%nat, weekly)].
Proof. vm_compute. reflexivity. Qed.

(** ** The ringing sequence *)

Lemma fireAlarm_cases (h : Host) (alarm : Alarm) (p : Page) :
  fireAlarm h alarm p =
    let p3 := stopCurrentAudio (showWebNotification h alarm
                (with_overlayHidden false (with_currentRinging (Some alarm) p))) in
    match inlineAudio (fullAlarmOf (alarms p) alarm) with
    | Some url => startAudio (DataUrl url) None p3
    | None =>
        match blobKey (fullAlarmOf (alarms p) alarm) with
        | Some _ => p3
        | None => playBeepFallback h p3
        end
    end.
Proof.
  unfold fireAlarm.
  replace (alarms (stopCurrentAudio (showWebNotification h alarm
             (with_overlayHidden false (with_currentRinging (Some alarm) p))))) with (alarms p) by frame.
  reflexivity.
Qed.

(** C7. On a supported host the ringing sequence picks the inline data URL
    when there is one, else the blob stored under [audioKey], else the
    beep; when playback of the chosen source fails, or the blob is missing
    or its lookup fails, the sequence ends with the beep running; in every
    case the page ends up ringing and sounding. For a record with at most
    one audio source the sound is the one the stage-by-stage chain
    yields. *)
Theorem ringing_never_silent (h : Host) (o : AudioOutcome) (alarm : Alarm)
    (p : Page) :
  supported h ->
  let fullAlarm := fullAlarmOf (alarms p) alarm in
  let p' := ringingSequence h o alarm p in
  currentRinging p' = Some alarm /\ overlayHidden p' = false /\
  (exists s : Sound, soundOf p' = Some s) /\
  (forall url, inlineAudio fullAlarm = Some url -> inline_play_fails o = false ->
     soundOf p' = Some (InlineSound url)) /\
  (forall url, inlineAudio fullAlarm = None -> blobKey fullAlarm <> None ->
     blob o = BlobFound url -> blob_play_fails o = false ->
     soundOf p' = Some (BlobSound url)) /\
  (inlineAudio fullAlarm = None -> blobKey fullAlarm = None ->
     soundOf p' = Some Beep) /\
  (stageFailed o fullAlarm -> soundOf p' = Some Beep) /\
  (inlineAudio fullAlarm = None \/ blobKey fullAlarm = None ->
     soundOf p' = Some (resolveChain o fullAlarm)).
Proof.
  intros (Hctx & Hthrow & Hprom) fullAlarm p'. subst p'.
  unfold ringingSequence, stageFailed, resolveChain. rewrite fireAlarm_cases.
  fold fullAlarm.
  destruct h as [js jp gt st sc granted ctx throws prom miss].
  cbn [has_AudioContext AudioContext_throws play_returns_promise] in *.
  subst ctx throws prom.
  destruct (inlineAudio fullAlarm) as [url|];
    destruct (blobKey fullAlarm) as [key|];
    destruct o as [ifail [| |burl] bfail]; destruct ifail, bfail, granted;
    cbn; repeat split; intros;
    repeat match goal with H : _ \/ _ |- _ => destruct H end;
    try discriminate; try congruence; try contradiction; eauto.
Qed.

Lemma ringing_never_silent_witness :
  let o := mkOutcome false BlobMissing false in
  let keyed := mkAlarm "k1" "Sahur" "03:45" (Some []) "puasa" true true
                 (Some "k1") Null (Some "sahur.mp3") in
  let p' := ringingSequence h0 o (slim keyed) (with_alarms [keyed] initialPage) in
  currentRinging p' = Some (slim keyed) /\ soundOf p' = Some Beep.
Proof.
  intros o keyed p'.
  destruct (ringing_never_silent h0 o (slim keyed) (with_alarms [keyed] initialPage))
    as (Hring & _ & _ & _ & _ & _ & Hfail & _).
  - repeat split.
  - split; [exact Hring|]. apply Hfail. exact I.
Defined.

(** The blob stored under the key plays when the lookup finds it. *)
Example keyed_alarm_plays_blob :
  let keyed := mkAlarm "k1" "Sahur" "03:45" (Some []) "puasa" true true
                 (Some "k1") Null (Some "sahur.mp3") in
  soundOf (ringingSequence h0 (mkOutcome false (BlobFound "blob:1") false)
             (slim keyed) (with_alarms [keyed] initialPage))
    = Some (BlobSound "blob:1").
Proof. vm_compute. reflexivity. Qed.

(** Without an [AudioContext] constructor [playBeepFallback] returns at
    its first line and nothing sounds. *)
Example no_AudioContext_no_beep :
  let h := mkHost (fun _ => "[]") (fun _ => None) false (fun _ => false)
             true true false false true (fun _ => false) in
  soundOf (ringingSequence h (mkOutcome false BlobMissing false) wake
             (with_alarms [wake] initialPage)) = None.
Proof. vm_compute. reflexivity. Qed.

(** A record carrying both an inline source and a key: when the inline
    playback fails the handler starts the beep; the key is not looked
    up. *)
Example inline_failure_goes_to_beep :
  let both := mkAlarm "b2" "Both" "05:00" (Some []) "regular" true true
                (Some "b2") (Present "data:audio/wav;base64,UklG") (Some "x.wav") in
  let o := mkOutcome true (BlobFound "blob:2") false in
  soundOf (ringingSequence h0 o both (with_alarms [both] initialPage)) = Some Beep /\
  resolveChain o both = BlobSound "blob:2".
Proof. split; vm_compute; reflexivity. Qed.

(** * Further properties of the code *)

(** ** Rendering *)

Lemma categoryOf_puasa (a : Alarm) :
  categoryOf a = "puasa" <-> category a = "puasa".
Proof.
  unfold categoryOf. destruct (category a) as [|c s] eqn:Hc; simpl.
  - split; discriminate.
  - reflexivity.
Qed.

Lemma renderAlarms_perm (h : Host) (p : Page) :
  (forall b : Alarm, In b (alarms p) -> buildCardThrows h b = false) ->
  cardsRegular (renderAlarms h p) ++ cardsPuasa (renderAlarms h p) ≡ₚ alarms p.
Proof.
  intros Hsafe. rewrite (proj1 (renderAlarms_safe h p Hsafe)).
  cbn [cardsRegular cardsPuasa alarms with_cards]. unfold regs, puas.
  rewrite Permutation_app_comm.
  apply (filter_app_complement (fun a => categoryOf a = "puasa")).
Qed.

Lemma renderThrows_iff (h : Host) (p : Page) :
  renderThrows h p = true <->
  exists a : Alarm, In a (alarms p) /\ buildCardThrows h a = true.
Proof.
  split.
  - unfold renderThrows. intros Hthrow. apply orb_true_iff in Hthrow.
    pose proof (appendCards_spec h (regs p)) as Hr.
    pose proof (appendCards_spec h (puas p)) as Hp.
    destruct Hthrow as [Ht|Ht].
    + destruct (appendCards h (regs p)) as [cards threw]. simpl in Ht. subst threw.
      destruct Hr as (a & rest & Hl & Ha & _). exists a. split; [|exact Ha].
      apply regs_In. rewrite Hl. apply in_elt.
    + destruct (appendCards h (puas p)) as [cards threw]. simpl in Ht. subst threw.
      destruct Hp as (a & rest & Hl & Ha & _). exists a. split; [|exact Ha].
      apply puas_In. rewrite Hl. apply in_elt.
  - intros (a & Hin & Ha).
    destruct (renderThrows h p) eqn:Hthrow; [reflexivity|].
    unfold renderThrows in Hthrow. apply orb_false_iff in Hthrow as [Ht1 Ht2].
    pose proof (appendCards_spec h (regs p)) as Hr.
    pose proof (appendCards_spec h (puas p)) as Hp.
    destruct (appendCards h (regs p)) as [c1 t1]. simpl in Ht1. subst t1.
    destruct (appendCards h (puas p)) as [c2 t2]. simpl in Ht2. subst t2.
    destruct Hr as [_ Hr]. destruct Hp as [_ Hp].
    rewrite <- Ha. symmetry.
    destruct (decide (categoryOf a = "puasa")) as [Hcat|Hcat].
    + apply Hp. unfold puas. apply list_elem_of_In, list_elem_of_filter.
      split; [exact Hcat | now apply list_elem_of_In].
    + apply Hr. unfold regs. apply list_elem_of_In, list_elem_of_filter.
      split; [exact Hcat | now apply list_elem_of_In].
Qed.

(** Whatever happens, a card that is shown belongs to an alarm of the list
    and could be built. *)
Lemma renderAlarms_shown (h : Host) (p : Page) (b : Alarm) :
  In b (cardsRegular (renderAlarms h p) ++ cardsPuasa (renderAlarms h p))%list ->
  In b (alarms p) /\ buildCardThrows h b = false.
Proof.
  unfold renderAlarms.
  pose proof (appendCards_spec h (regs p)) as Hr.
  pose proof (appendCards_spec h (puas p)) as Hp.
  destruct (appendCards h (regs p)) as [c1 [|]];
    cbn [cardsRegular cardsPuasa with_cards].
  - destruct Hr as (a & rest & Hl & _ & Hc1). rewrite app_nil_r.
    intros Hb. split; [|now apply Hc1].
    apply regs_In. rewrite Hl. apply in_or_app. now left.
  - destruct Hr as [-> Hr].
    destruct (appendCards h (puas p)) as [c2 [|]]; cbn [fst].
    + destruct Hp as (a & rest & Hl & _ & Hc2).
      intros Hb. apply in_app_or in Hb as [Hb|Hb].
      * split; [now apply regs_In | now apply Hr].
      * split; [|now apply Hc2].
        apply puas_In. rewrite Hl. apply in_or_app. now left.
    + destruct Hp as [-> Hp].
      intros Hb. apply in_app_or in Hb as [Hb|Hb].
      * split; [now apply regs_In | now apply Hr].
      * split; [now apply puas_In | now apply Hp].
Qed.

(** X1. [renderAlarms] does not touch the alarm list. It throws exactly
    when the card of some alarm cannot be built; an alarm whose id is a
    plain name (letters, digits, [-], [_]) never causes that. When it
    returns normally every alarm is on exactly one of the two lists: the
    alarms whose category is ["puasa"] on the fasting list, all others (an
    empty category included) on the regular list, each list in stored
    order. *)
Theorem renderAlarms_partitions (h : Host) (p : Page) :
  let p' := renderAlarms h p in
  alarms p' = alarms p /\
  (renderThrows h p = true <->
   exists a : Alarm, In a (alarms p) /\ buildCardThrows h a = true) /\
  (forall a : Alarm, plainName (id a) = true -> buildCardThrows h a = false) /\
  ((forall a : Alarm, In a (alarms p) -> buildCardThrows h a = false) ->
   cardsRegular p' = filter (fun a => categoryOf a ≠ "puasa") (alarms p) /\
   cardsPuasa p' = filter (fun a => categoryOf a = "puasa") (alarms p) /\
   cardsRegular p' ++ cardsPuasa p' ≡ₚ alarms p /\
   (forall a, a ∈ cardsPuasa p' <-> a ∈ alarms p /\ category a = "puasa") /\
   (forall a, a ∈ cardsRegular p' <-> a ∈ alarms p /\ category a <> "puasa") /\
   sublist (cardsRegular p') (alarms p) /\
   sublist (cardsPuasa p') (alarms p)).
Proof.
  cbv zeta. split; [apply renderAlarms_alarms|].
  split; [apply renderThrows_iff|].
  split; [intros a; apply plainName_builds|].
  intros Hsafe. pose proof (renderAlarms_perm h p Hsafe) as Hperm.
  rewrite (proj1 (renderAlarms_safe h p Hsafe)) in *.
  cbn [cardsRegular cardsPuasa alarms with_cards] in *. unfold regs, puas in *.
  split; [reflexivity|]. split; [reflexivity|]. split; [exact Hperm|].
  repeat apply conj.
  - intros a. rewrite list_elem_of_filter, categoryOf_puasa. tauto.
  - intros a. rewrite list_elem_of_filter, categoryOf_puasa. tauto.
  - apply sublist_filter.
  - apply sublist_filter.
Qed.

Lemma renderAlarms_partitions_witness :
  let p := with_alarms [sahur; wake; uncategorised] initialPage in
  cardsRegular (renderAlarms h_strict p) = [wake; uncategorised] /\
  cardsPuasa (renderAlarms h_strict p) = [sahur] /\
  renderThrows h_strict p = false.
Proof.
  intros p.
  destruct (renderAlarms_partitions h_strict p) as (_ & Hthrow & Hplain & Hsafe).
  assert (Hall : forall a : Alarm,
            In a (alarms p) -> buildCardThrows h_strict a = false).
  { intros a [<-|[<-|[<-|[]]]]; apply Hplain; reflexivity. }
  destruct (Hsafe Hall) as (Hr & Hp & _).
  split; [exact Hr|]. split; [exact Hp|].
  apply not_true_is_false. intros Ht.
  apply Hthrow in Ht as (a & Ha & Hbad). rewrite (Hall a Ha) in Hbad.
  discriminate.
Defined.

(** A card that cannot be built stops [renderAlarms] half way: the cards
    before it stay, the rest, and the whole fasting list, are missing. *)
Example render_stops_at_bad_id :
  let p' := renderAlarms h_strict
              (with_alarms [wake; spaced; sahur; uncategorised] initialPage) in
  cardsRegular p' = [wake] /\ cardsPuasa p' = [] /\
  renderThrows h_strict
    (with_alarms [wake; spaced; sahur; uncategorised] initialPage) = true.
Proof. repeat split; reflexivity. Qed.

(** ** Saving *)

Lemma saveAlarms_posted (h : Host) (p : Page) :
  posted (saveAlarms h p) =
    if setItem_throws h (JSON_stringify h (alarms p)) then posted p
    else if sw_controller h then (posted p ++ [map slim (alarms p)])%list
    else posted p.
Proof.
  unfold saveAlarms, syncAlarmsToSW.
  destruct (setItem_throws h (JSON_stringify h (alarms p))).
  - destruct (setItem_throws h _); reflexivity.
  - destruct (sw_controller h); reflexivity.
Qed.

(** X2. [saveAlarms] never changes the alarm list in memory. When the
    first write is accepted the stored text is that of the whole list and
    the worker is sent its slim projection (if there is a controller).
    When the first write throws, nothing is posted to the worker, whether
    or not the retry without audio is accepted; the retry stores the list
    with the same ids, times, days, flags and audio keys. When both writes
    throw the page is left as it was. *)
Theorem saveAlarms_quota_path (h : Host) (p : Page) :
  let raw := JSON_stringify h (alarms p) in
  let raw2 := JSON_stringify h (map stripAudio (alarms p)) in
  alarms (saveAlarms h p) = alarms p /\
  (setItem_throws h raw = false ->
     storage (saveAlarms h p) = Some raw /\
     posted (saveAlarms h p) =
       if sw_controller h then (posted p ++ [map slim (alarms p)])%list
       else posted p) /\
  (setItem_throws h raw = true -> posted (saveAlarms h p) = posted p) /\
  (setItem_throws h raw = true -> setItem_throws h raw2 = false ->
     storage (saveAlarms h p) = Some raw2) /\
  (setItem_throws h raw = true -> setItem_throws h raw2 = true ->
     saveAlarms h p = p) /\
  (forall (cm : string) (day : Z) (keys : gmap string bool) (a : Alarm),
     due cm day keys (stripAudio a) = due cm day keys a /\
     blobKey (stripAudio a) = blobKey a /\ inlineAudio (stripAudio a) = None).
Proof.
  cbv zeta. unfold saveAlarms, syncAlarmsToSW.
  repeat apply conj.
  - repeat case_match; reflexivity.
  - intros ->. destruct (sw_controller h); split; reflexivity.
  - intros ->. case_match; reflexivity.
  - intros -> ->. reflexivity.
  - intros -> ->. reflexivity.
  - intros cm day keys a. repeat split.
Qed.

Lemma saveAlarms_quota_path_witness :
  let p := with_alarms [with_inline] initialPage in
  saveAlarms h_full p = p /\
  storage (saveAlarms h0 p) = Some "[]" /\
  posted (saveAlarms h0 p) = [[slim with_inline]].
Proof.
  intros p.
  destruct (saveAlarms_quota_path h_full p) as (_ & _ & _ & _ & Hboth & _).
  destruct (saveAlarms_quota_path h0 p) as (_ & Hok & _).
  split; [apply Hboth; reflexivity|].
  destruct Hok as [Hst Hpost]; [reflexivity|]. split; [exact Hst | exact Hpost].
Defined.

(** ** The page and the worker together *)

Lemma sw_fired_enabled (now : Clock) (w : Worker) (i : nat) (a : Alarm) :
  (checkSwAlarms now w).1 = Some (i, a) ->
  swAlarms w !! i = Some a /\ enabled a = true.
Proof.
  intros Hf. apply sw_fired_inv in Hf as (_ & Hscan).
  apply scan_first in Hscan as (Hi & (Hen & _) & _). auto.
Qed.

Lemma swRun_disabledAt (i : nat) (es : list WorkerEvent) :
  forall w : Worker,
    Forall noSync es -> disabledAt i (swAlarms w) ->
    forall (j : nat) (b : Alarm), In (j, b) (swRun es w).1 -> j <> i.
Proof.
  induction es as [|e es IH]; intros w Hall Hdis j b Hin; [destruct Hin|].
  inversion Hall as [|? ? He Hes]; subst.
  rewrite swRun_cons_fired in Hin.
  assert (Hkeep : swAlarms (swStep e w).2 = swAlarms w).
  { destruct e as [now|payload now|]; [apply sw_alarms | destruct He | reflexivity]. }
  assert (Hnow : forall j b, (swStep e w).1 = Some (j, b) -> j <> i).
  { intros j' b' Hf ->. destruct e as [now|payload now|];
      [|destruct He|discriminate].
    apply sw_fired_enabled in Hf as [Hj Hen].
    destruct Hdis as (a & Ha & Hoff). congruence. }
  rewrite <- Hkeep in Hdis.
  destruct (swStep e w).1 as [[j' b']|] eqn:Hf.
  - destruct Hin as [[= -> ->]|Hin]; [now apply (Hnow j b) | now apply (IH _ Hes Hdis j b)].
  - now apply (IH _ Hes Hdis j b).
Qed.

(** X3. When a foreground tick fires a one-shot alarm and the first write
    of [saveAlarms] is accepted, a page with a controller posts the updated
    list to the worker; a worker that stores this payload never fires the
    alarm at that position, however often its interval runs, until the
    next sync. When the first write throws, the tick posts nothing, so the
    worker keeps the list it had. *)
Theorem one_shot_reaches_worker (h : Host) (now : Clock) (hh mm : string)
    (p : Page) (i : nat) (a : Alarm) :
  (tickAlarms h now hh mm p).1 = Some (i, a) -> hasDays a = false ->
  let p' := (tickAlarms h now hh mm p).2 in
  let payload := map slim (alarms p') in
  (setItem_throws h (JSON_stringify h (alarms p')) = false ->
   sw_controller h = true ->
   posted p' = (posted p ++ [payload])%list /\
   forall (now' : Clock) (w : Worker) (es : list WorkerEvent),
     Forall noSync es ->
     forall (j : nat) (b : Alarm),
       In (j, b) (swRun (SwSync (Some payload) now' :: es) w).1 -> j <> i) /\
  (setItem_throws h (JSON_stringify h (alarms p')) = true ->
   posted p' = posted p).
Proof.
  intros Hf Hone p' payload.
  destruct (tick_fired_inv h now hh mm p i a Hf) as (Hss & Hr & Hscan).
  assert (Hshape : exists q,
            p' = renderAlarms h (saveAlarms h q) /\ posted q = posted p).
  { subst p'. rewrite tick_open by assumption. rewrite Hscan. cbn [snd].
    rewrite Hone. eexists. split; [reflexivity|].
    cbn [posted with_alarms]. now rewrite (proj2 (fireAlarm_storage h a _)). }
  destruct Hshape as (q & Hp' & Hq).
  assert (Hqa : alarms q = alarms p').
  { rewrite Hp', renderAlarms_alarms, saveAlarms_alarms. reflexivity. }
  assert (Hpost : posted p' = posted (saveAlarms h q)).
  { rewrite Hp'. apply renderAlarms_posted. }
  pose proof (saveAlarms_posted h q) as Hposted.
  rewrite Hqa, Hq in Hposted. split.
  - intros Hset Hctl. rewrite Hset, Hctl in Hposted.
    split; [now rewrite Hpost|].
    intros now' w es Hes j b Hin.
    assert (Hat : alarms p' !! i = Some (set_enabled false a)).
    { pose proof (tick_alarms h now hh mm p) as Hal.
      rewrite Hf, Hone in Hal. fold p' in Hal. rewrite Hal.
      apply list_lookup_insert_eq.
      apply tick_fired_enabled in Hf as [Hi _]. now apply lookup_lt_Some in Hi. }
    assert (Hdis : disabledAt i payload).
    { exists (slim (set_enabled false a)). split; [|reflexivity].
      subst payload. rewrite list_lookup_fmap, Hat. reflexivity. }
    rewrite swRun_cons_fired in Hin. cbn [swStep] in Hin.
    set (w0 := mkWorker payload (swFiredKeys w) (swLastMinute w)
                 (swNotified w)) in *.
    assert (Hkeep : swAlarms (checkSwAlarms now' w0).2 = payload) by apply sw_alarms.
    destruct (checkSwAlarms now' w0).1 as [[j' b']|] eqn:Hfw.
    + destruct Hin as [[= -> ->]|Hin].
      * intros ->. apply sw_fired_enabled in Hfw as [Hj Hen].
        destruct Hdis as (c & Hc & Hoff). cbn [swAlarms w0] in Hj. congruence.
      * refine (swRun_disabledAt i es _ Hes _ j b Hin); now rewrite Hkeep.
    + refine (swRun_disabledAt i es _ Hes _ j b Hin); now rewrite Hkeep.
  - intros Hset. rewrite Hset in Hposted. now rewrite Hpost.
Qed.

Lemma one_shot_reaches_worker_witness :
  let p := with_alarms [wake] initialPage in
  let p' := (tickAlarms h0 (mkClock 8 30 2 3) "08" "30" p).2 in
  posted p' = [[slim (set_enabled false wake)]] /\
  (forall (j : nat) (b : Alarm),
     In (j, b)
        (swRun [SwSync (Some (map slim (alarms p'))) (mkClock 8 30 3 3);
                SwInterval (mkClock 8 30 30 3)] initialWorker).1 ->
     j <> 0%nat) /\
  posted (tickAlarms h_full (mkClock 8 30 2 3) "08" "30" p).2 = [].
Proof.
  intros p p'.
  destruct (one_shot_reaches_worker h0 (mkClock 8 30 2 3) "08" "30" p 0%nat wake)
    as [Hok _]; [vm_compute; reflexivity | reflexivity |].
  destruct (one_shot_reaches_worker h_full (mkClock 8 30 2 3) "08" "30" p 0%nat wake)
    as [_ Hno]; [vm_compute; reflexivity | reflexivity |].
  destruct Hok as [Hposted Hnever]; [reflexivity | reflexivity |].
  split; [exact Hposted|]. split.
  - intros j b.
    apply (Hnever (mkClock 8 30 3 3) initialWorker [SwInterval (mkClock 8 30 30 3)]).
    repeat constructor.
  - apply Hno. reflexivity.
Defined.

Lemma tick_fired_ext (h : Host) (now : Clock) (hh mm : string) (p q : Page) :
  alarms q = alarms p -> firedKeys q = firedKeys p ->
  lastCheckedMinute q = lastCheckedMinute p ->
  currentRinging q = currentRinging p ->
  (tickAlarms h now hh mm q).1 = (tickAlarms h now hh mm p).1.
Proof.
  intros Ha Hk Hl Hr.
  destruct (Z_gt_le_dec (getSeconds now) 4) as [Hss|Hss];
    [rewrite !tick_closed by (left; lia); reflexivity|].
  destruct (currentRinging p) eqn:Hp.
  - rewrite !tick_closed by (right; congruence). reflexivity.
  - rewrite !tick_open by congruence. rewrite Ha, Hk, Hl.
    destruct (scan _ _ _ _ _) as [[i a]|]; reflexivity.
Qed.

(** X4. A ring opened by an [ALARM_FIRED] message records no fired key:
    once it is dismissed, the page's next tick decides exactly as it would
    have without the message, so an alarm the worker announced can ring a
    second time from the page's own tick in the same minute. *)
Theorem message_ring_records_no_key (h : Host) (m : Alarm) (now : Clock)
    (p : Page) :
  currentRinging p = None ->
  let rung := onSwMessage h (ALARM_FIRED m) p in
  let q := dismissAlarm rung in
  currentRinging rung = Some m /\
  firedKeys q = firedKeys p /\
  (updateClock h now q).1 = (updateClock h now p).1.
Proof.
  intros Hr rung q. subst q rung. cbn [onSwMessage]. rewrite Hr.
  split; [apply fireAlarm_ringing|].
  split; [cbn; apply fireAlarm_fired|].
  unfold updateClock. apply tick_fired_ext.
  - cbn. apply fireAlarm_alarms.
  - cbn. apply fireAlarm_fired.
  - cbn. apply fireAlarm_fired.
  - cbn. now rewrite Hr.
Qed.

Lemma message_ring_records_no_key_witness :
  let p := with_alarms [weekly] initialPage in
  let q := dismissAlarm (onSwMessage h0 (ALARM_FIRED (slim weekly)) p) in
  (updateClock h0 (mkClock 8 30 2 3) q).1 = Some (0%nat, weekly).
Proof.
  intros p q.
  destruct (message_ring_records_no_key h0 (slim weekly) (mkClock 8 30 2 3) p)
    as (_ & _ & Hsame); [reflexivity|].
  subst q. rewrite Hsame. vm_compute. reflexivity.
Defined.

(** ** Late playback failure *)

(** X5. The failure handler attached to [play()] does not look at
    [currentRinging]: when it runs after the alarm was dismissed, a
    supported host starts the beep although nothing rings and the overlay
    is hidden; the next [dismissAlarm] stops it. The [ended] listener does
    look: with no alarm ringing it only lets the element fall silent, so
    it leaves a dismissed page silent but does not stop that late beep;
    with an alarm ringing it dismisses, which stops every sound. *)
Theorem late_play_failure_beeps (h : Host) (p : Page) :
  supported h ->
  let q := onPlayFailed h (dismissAlarm p) in
  currentRinging q = None /\ overlayHidden q = true /\
  soundOf q = Some Beep /\
  soundOf (dismissAlarm q) = None /\
  soundOf (onAudioEnded (dismissAlarm p)) = None /\
  soundOf (onAudioEnded q) = Some Beep /\
  (forall p0 : Page,
     currentRinging p0 = None ->
     onAudioEnded p0 = silenceElement p0 /\
     overlayHidden (onAudioEnded p0) = overlayHidden p0 /\
     beepInterval (onAudioEnded p0) = beepInterval p0) /\
  (forall (p0 : Page) (r : Alarm),
     currentRinging p0 = Some r ->
     onAudioEnded p0 = dismissAlarm (silenceElement p0) /\
     currentRinging (onAudioEnded p0) = None /\
     overlayHidden (onAudioEnded p0) = true /\
     soundOf (onAudioEnded p0) = None).
Proof.
  intros (Hctx & Hthrow & Hprom). cbv zeta.
  assert (Hnone : forall p0 : Page,
            currentRinging p0 = None -> onAudioEnded p0 = silenceElement p0).
  { intros p0 Hr. unfold onAudioEnded.
    change (currentRinging (silenceElement p0)) with (currentRinging p0).
    now rewrite Hr. }
  assert (Hsome : forall (p0 : Page) (r : Alarm),
            currentRinging p0 = Some r ->
            onAudioEnded p0 = dismissAlarm (silenceElement p0)).
  { intros p0 r Hr. unfold onAudioEnded.
    change (currentRinging (silenceElement p0)) with (currentRinging p0).
    now rewrite Hr. }
  split; [|split; [|split; [|split; [|split; [|split; [|split]]]]]].
  - unfold onPlayFailed, playBeepFallback. rewrite Hprom, Hctx, Hthrow.
    reflexivity.
  - unfold onPlayFailed, playBeepFallback. rewrite Hprom, Hctx, Hthrow.
    reflexivity.
  - unfold onPlayFailed, playBeepFallback. rewrite Hprom, Hctx, Hthrow.
    reflexivity.
  - reflexivity.
  - reflexivity.
  - rewrite Hnone.
    + unfold onPlayFailed, playBeepFallback. rewrite Hprom, Hctx, Hthrow.
      reflexivity.
    + unfold onPlayFailed, playBeepFallback. rewrite Hprom, Hctx, Hthrow.
      reflexivity.
  - intros p0 Hr. rewrite (Hnone p0 Hr). repeat split.
  - intros p0 r Hr. rewrite (Hsome p0 r Hr). repeat split.
Qed.

Lemma late_play_failure_beeps_witness :
  let q := onPlayFailed h0 (dismissAlarm ringing_wake) in
  currentRinging q = None /\ soundOf q = Some Beep /\
  soundOf (onAudioEnded q) = Some Beep /\
  currentRinging ringing_wake = Some wake /\
  currentRinging (onAudioEnded ringing_wake) = None /\
  soundOf ringing_wake = Some Beep /\
  soundOf (onAudioEnded ringing_wake) = None.
Proof.
  intros q.
  destruct (late_play_failure_beeps h0 ringing_wake)
    as (Hr & _ & Hs & _ & _ & Hkeep & _ & Hring).
  - repeat split.
  - destruct (Hring ringing_wake wake eq_refl) as (_ & Hnone & _ & Hsilent).
    repeat split; assumption || reflexivity.
Defined.

(** ** The minute string *)

Lemma pad_inj_upto_99 :
  forallb (fun i : nat =>
     forallb (fun j : nat =>
        implb (String.eqb (pad (Z.of_nat i)) (pad (Z.of_nat j))) (Nat.eqb i j))
       (seq 0 100))
    (seq 0 100) = true.
Proof. vm_compute. reflexivity. Qed.

Lemma pad_inj (n m : Z) :
  0 <= n < 100 -> 0 <= m < 100 -> pad n = pad m -> n = m.
Proof.
  intros Hn Hm Heq. pose proof pad_inj_upto_99 as Hall.
  rewrite forallb_forall in Hall.
  assert (Hin : forall k : Z, 0 <= k < 100 -> In (Z.to_nat k) (seq 0 100))
    by (intros k Hk; apply in_seq; lia).
  specialize (Hall (Z.to_nat n) (Hin n Hn)).
  rewrite forallb_forall in Hall.
  specialize (Hall (Z.to_nat m) (Hin m Hm)).
  rewrite !Z2Nat.id in Hall by lia.
  rewrite Heq, String.eqb_refl in Hall. simpl in Hall.
  apply Nat.eqb_eq in Hall. lia.
Qed.

Lemma append_inj_length (s1 : string) :
  forall s2 t1 t2 : string,
    String.length s1 = String.length s2 ->
    s1 +:+ t1 = s2 +:+ t2 -> s1 = s2 /\ t1 = t2.
Proof.
  induction s1 as [|c s1 IH]; intros [|d s2] t1 t2 Hlen Heq;
    simpl in Hlen; try discriminate.
  - split; [reflexivity | exact Heq].
  - change (String c (s1 +:+ t1) = String d (s2 +:+ t2)) in Heq.
    injection Heq as -> Heq. injection Hlen as Hlen.
    destruct (IH s2 t1 t2 Hlen Heq) as [-> ->]. split; reflexivity.
Qed.

(** X6. For clocks in range the minute string has five characters and
    determines hour and minute: two clocks give the same string exactly
    when their hours and minutes agree, so the string comparison of the
    tick matches one minute of the day and no other. *)
Theorem currentMinute_identifies_minute (c1 c2 : Clock) :
  validClock c1 -> validClock c2 ->
  String.length (currentMinute c1) = 5%nat /\
  (currentMinute c1 = currentMinute c2 <->
   getHours c1 = getHours c2 /\ getMinutes c1 = getMinutes c2).
Proof.
  intros Hv1 Hv2. split; [now apply currentMinute_length|].
  destruct Hv1 as (Hh1 & Hm1 & _), Hv2 as (Hh2 & Hm2 & _).
  unfold currentMinute. split.
  - intros Heq.
    apply append_inj_length in Heq as [Hh Hrest]; [|rewrite !pad_length by lia; reflexivity].
    apply (append_inj_length ":" ":") in Hrest as [_ Hm]; [|reflexivity].
    split; apply pad_inj; try lia; assumption.
  - intros [-> ->]. reflexivity.
Qed.

Lemma currentMinute_identifies_minute_witness :
  currentMinute (mkClock 8 5 0 1) = currentMinute (mkClock 8 5 59 4) /\
  currentMinute (mkClock 8 5 0 1) <> currentMinute (mkClock 20 5 0 1).
Proof.
  assert (Hv : forall s d, 0 <= s < 60 -> 0 <= d < 7 -> validClock (mkClock 8 5 s d))
    by (intros; unfold validClock; simpl; lia).
  assert (Hv' : validClock (mkClock 20 5 0 1)) by (unfold validClock; simpl; lia).
  split.
  - apply (currentMinute_identifies_minute (mkClock 8 5 0 1) (mkClock 8 5 59 4));
      [apply Hv; lia | apply Hv; lia |]. split; reflexivity.
  - intros Heq.
    apply (currentMinute_identifies_minute (mkClock 8 5 0 1) (mkClock 20 5 0 1))
      in Heq as [Hh _]; [discriminate | apply Hv; lia | exact Hv'].
Defined.

(** ** The worker's interval *)

Lemma startAlarmCheck_oneInterval (handle : positive) (t : SwTimers) :
  oneInterval t ->
  swCheckInterval (startAlarmCheck handle t) = Some handle /\
  running (startAlarmCheck handle t) = {[handle]}.
Proof.
  unfold oneInterval, startAlarmCheck. intros Hone. split; [reflexivity|].
  cbn [running]. rewrite Hone. apply set_eq. intros x.
  destruct (swCheckInterval t) as [old|];
    rewrite elem_of_union, ?elem_of_difference, !elem_of_singleton,
      ?elem_of_empty; tauto.
Qed.

(** X9. [startAlarmCheck] clears the interval it remembers before it
    installs the next: starting with no interval, after any number of sync
    messages exactly one interval is running, the one installed last. *)
Theorem startAlarmCheck_single_interval (handles : list positive)
    (handle : positive) :
  let t := startAlarmChecks (handles ++ [handle]) initialSwTimers in
  swCheckInterval t = Some handle /\ running t = {[handle]} /\
  size (running t) = 1%nat.
Proof.
  cbv zeta. unfold startAlarmChecks. rewrite fold_left_app. cbn [fold_left].
  assert (Hinv : oneInterval
            (fold_left (fun t' k => startAlarmCheck k t') handles initialSwTimers)).
  { generalize initialSwTimers, (eq_refl : oneInterval initialSwTimers).
    induction handles as [|k ks IH]; intros t Ht; [exact Ht|].
    cbn [fold_left]. apply IH. unfold oneInterval.
    destruct (startAlarmCheck_oneInterval k t Ht) as [-> ->]. reflexivity. }
  destruct (startAlarmCheck_oneInterval handle _ Hinv) as [H1 H2].
  split; [exact H1|]. split; [exact H2|]. rewrite H2. apply size_singleton.
Qed.

(** ** Notification clicks *)

Lemma onSwMessage_dismiss (h : Host) (action : string) (p : Page) :
  action = "dismiss" \/ action = "snooze" ->
  onSwMessage h (ALARM_ACTION action) p = dismissAlarm p.
Proof. intros [-> | ->]; reflexivity. Qed.

(** X8. A click on the worker's notification reaches the page as an
    [ALARM_ACTION] message carrying the action of the click: it is sent to
    the first client under ['/timer/'] once that client is focused or,
    without such a client, to the window just opened; when the focus is
    refused or no window opens, nothing is sent. The page dismisses on the
    actions [dismiss] and [snooze]; any other action, the empty one of a
    click on the notification body included, leaves the page as it was. *)
Theorem notification_click_reaches_page (h : Host) (action : string)
    (clients : list Client) (focusOk opened : bool) (p : Page) :
  let r := notificationclick action clients focusOk opened in
  (forall c : Client,
     List.find inTimerPath clients = Some c ->
     r = if focusOk then (ToClient c, Some (ALARM_ACTION action))
         else (Nowhere, None)) /\
  (List.find inTimerPath clients = None ->
     r = if opened then (ToNewWindow, Some (ALARM_ACTION action))
         else (Nowhere, None)) /\
  (forall c : Client,
     In c clients -> inTimerPath c = true ->
     exists c' : Client,
       List.find inTimerPath clients = Some c' /\ In c' clients /\
       inTimerPath c' = true) /\
  (forall m, r.2 = Some m ->
     m = ALARM_ACTION action /\
     (action = "dismiss" \/ action = "snooze" ->
        quiet (onSwMessage h m p) /\ currentRinging (onSwMessage h m p) = None) /\
     (action <> "dismiss" -> action <> "snooze" -> onSwMessage h m p = p)) /\
  (forall c, r.1 = ToClient c ->
     List.find inTimerPath clients = Some c /\ inTimerPath c = true) /\
  (r.1 = ToNewWindow -> forall c, In c clients -> inTimerPath c = false) /\
  (action = "dismiss" \/ action = "snooze" ->
     quiet (onSwMessage h (ALARM_ACTION action) p) /\
     currentRinging (onSwMessage h (ALARM_ACTION action) p) = None) /\
  (action <> "dismiss" -> action <> "snooze" ->
     onSwMessage h (ALARM_ACTION action) p = p).
Proof.
  assert (Hdismiss : action = "dismiss" \/ action = "snooze" ->
            quiet (onSwMessage h (ALARM_ACTION action) p) /\
            currentRinging (onSwMessage h (ALARM_ACTION action) p) = None).
  { intros Hact. rewrite (onSwMessage_dismiss h action p Hact).
    apply dismissAlarm_quiet. }
  assert (Hother : action <> "dismiss" -> action <> "snooze" ->
            onSwMessage h (ALARM_ACTION action) p = p).
  { intros Hd Hs. apply String.eqb_neq in Hd, Hs. cbn [onSwMessage].
    now rewrite Hd, Hs. }
  cbv zeta. unfold notificationclick.
  split; [|split; [|split; [|split; [|split; [|split; [|split]]]]]].
  - intros c ->. reflexivity.
  - intros ->. reflexivity.
  - intros c Hc Hpath.
    destruct (List.find inTimerPath clients) as [c'|] eqn:Hfind.
    + exists c'. split; [reflexivity|]. now apply find_some in Hfind.
    + rewrite (find_none _ _ Hfind c Hc) in Hpath. discriminate.
  - destruct (List.find inTimerPath clients) as [c|];
      [destruct focusOk | destruct opened]; cbn [snd];
      intros m Hm; try discriminate; injection Hm as <-; auto.
  - destruct (List.find inTimerPath clients) as [c|] eqn:Hfind;
      [destruct focusOk | destruct opened]; cbn [fst];
      intros c' Hc'; try discriminate.
    injection Hc' as <-. split; [reflexivity|]. now apply find_some in Hfind.
  - destruct (List.find inTimerPath clients) as [c|] eqn:Hfind;
      [destruct focusOk | destruct opened]; cbn [fst];
      intros Hw; try discriminate.
    intros c Hc. exact (find_none _ _ Hfind c Hc).
  - exact Hdismiss.
  - exact Hother.
Qed.

Lemma notification_click_reaches_page_witness :
  let two := [mkClient 1 false true; mkClient 2 true false] in
  notificationclick "" two true false
    = (ToClient (mkClient 2 true false), Some (ALARM_ACTION "")) /\
  notificationclick "dismiss" two false true = (Nowhere, None) /\
  notificationclick "dismiss" [] true true
    = (ToNewWindow, Some (ALARM_ACTION "dismiss")) /\
  onSwMessage h0 (ALARM_ACTION "") ringing_wake = ringing_wake /\
  currentRinging (onSwMessage h0 (ALARM_ACTION "dismiss") ringing_wake) = None.
Proof.
  intros two.
  destruct (notification_click_reaches_page h0 "" two true false ringing_wake)
    as (Hbody & _ & _ & _ & _ & _ & _ & Hsame).
  destruct (notification_click_reaches_page h0 "dismiss" two false true
              ringing_wake) as (Hrefused & _).
  destruct (notification_click_reaches_page h0 "dismiss" [] true true
              ringing_wake) as (_ & Hopen & _ & _ & _ & _ & Hdis & _).
  split; [apply (Hbody (mkClient 2 true false)); reflexivity|].
  split; [apply (Hrefused (mkClient 2 true false)); reflexivity|].
  split; [apply Hopen; reflexivity|].
  split; [apply Hsame; discriminate|].
  apply Hdis. now left.
Defined.

(** ** A fire announced by the worker *)

Lemma ringingSequence_sound (h : Host) (o : AudioOutcome) (x y : Alarm)
    (p : Page) :
  fullAlarmOf (alarms p) x = fullAlarmOf (alarms p) y ->
  soundOf (ringingSequence h o x p) = soundOf (ringingSequence h o y p).
Proof.
  intros Hfull. unfold ringingSequence. rewrite !fireAlarm_cases, Hfull.
  destruct h as [js jp gt st sc granted ctx throws prom miss].
  destruct (inlineAudio (fullAlarmOf (alarms p) y)) as [url|];
    destruct (blobKey (fullAlarmOf (alarms p) y)) as [key|];
    destruct o as [ifail [| |burl] bfail];
    destruct ifail, bfail, granted, ctx, throws, prom; reflexivity.
Qed.

Lemma ringingSequence_no_inline (h : Host) (o : AudioOutcome) (x : Alarm)
    (p : Page) (url : string) :
  inlineAudio (fullAlarmOf (alarms p) x) = None ->
  soundOf (ringingSequence h o x p) <> Some (InlineSound url).
Proof.
  intros Hnone. unfold ringingSequence. rewrite !fireAlarm_cases, Hnone.
  destruct h as [js jp gt st sc granted ctx throws prom miss].
  destruct (blobKey (fullAlarmOf (alarms p) x)) as [key|];
    destruct o as [ifail [| |burl] bfail];
    destruct ifail, bfail, granted, ctx, throws, prom; discriminate.
Qed.

(** X7. The worker passes the alarm its tick fires, a record of its own
    list, to [showAlarmNotification], which posts it to every client, one
    [ALARM_FIRED] message each. A page that is not ringing opens the
    overlay for it and resolves the audio from its own record with that
    id: the sound is the one the page's record gives, inline audio
    included, although the posted record carries none. When no alarm on
    the page has the id any more, the posted record is used and no inline
    audio can play. *)
Theorem message_ring_uses_page_audio (h : Host) (o : AudioOutcome)
    (a : Alarm) (clients : list Client) (p : Page) :
  currentRinging p = None ->
  (forall (now : Clock) (w : Worker) (i : nat) (b : Alarm),
     (checkSwAlarms now w).1 = Some (i, b) ->
     swAlarms w !! i = Some b /\
     swNotified (checkSwAlarms now w).2 = (swNotified w ++ [b])%list) /\
  map fst (showAlarmNotification (slim a) clients).2 = clients /\
  (forall c : Client,
     In c clients ->
     In (c, ALARM_FIRED (slim a)) (showAlarmNotification (slim a) clients).2) /\
  (forall (c : Client) (m : PageMessage),
     In (c, m) (showAlarmNotification (slim a) clients).2 ->
     m = ALARM_FIRED (slim a) /\
     currentRinging (onSwMessage h m p) = Some (slim a) /\
     overlayHidden (onSwMessage h m p) = false) /\
  length (showAlarmNotification (slim a) clients).2 = length clients /\
  nTag (showAlarmNotification (slim a) clients).1 = "alarmpro-" +:+ id a /\
  (List.find (fun b => String.eqb (id b) (id a)) (alarms p) = Some a ->
     soundOf (ringingSequence h o (slim a) p) = soundOf (ringingSequence h o a p)) /\
  (List.find (fun b => String.eqb (id b) (id a)) (alarms p) = None ->
     forall url, soundOf (ringingSequence h o (slim a) p) <> Some (InlineSound url)).
Proof.
  intros Hr.
  split; [|split; [|split; [|split; [|split; [|split; [|split]]]]]].
  - intros now w i b Hf. split; [now apply sw_fired_enabled in Hf|].
    now rewrite sw_notified, Hf.
  - cbn [showAlarmNotification snd]. rewrite map_map. cbn [fst]. apply map_id.
  - intros c Hc. cbn [showAlarmNotification snd].
    apply in_map_iff. exists c. split; [reflexivity | exact Hc].
  - intros c m Hin. cbn [showAlarmNotification snd] in Hin.
    apply in_map_iff in Hin as (c' & [= _ <-] & _).
    cbn [onSwMessage]. rewrite Hr. split; [reflexivity|]. apply fireAlarm_ringing.
  - cbn [showAlarmNotification snd]. apply length_map.
  - reflexivity.
  - intros Hfind. apply ringingSequence_sound. unfold fullAlarmOf.
    cbn [id slim]. now rewrite Hfind.
  - intros Hfind url. apply ringingSequence_no_inline. unfold fullAlarmOf.
    cbn [id slim]. rewrite Hfind. reflexivity.
Qed.

Lemma message_ring_uses_page_audio_witness :
  let p := with_alarms [wake; with_inline] initialPage in
  let o := mkOutcome false BlobMissing false in
  let two := [mkClient 1 false true; mkClient 2 true false] in
  map fst (showAlarmNotification (slim with_inline) two).2 = two /\
  In (mkClient 2 true false, ALARM_FIRED (slim with_inline))
     (showAlarmNotification (slim with_inline) two).2 /\
  currentRinging (onSwMessage h0 (ALARM_FIRED (slim with_inline)) p)
    = Some (slim with_inline) /\
  soundOf (ringingSequence h0 o (slim with_inline) p)
    = Some (InlineSound "data:audio/mp3;base64,AAAA") /\
  soundOf (ringingSequence h0 o (slim with_inline) (with_alarms [wake] initialPage))
    <> Some (InlineSound "data:audio/mp3;base64,AAAA").
Proof.
  intros p o two.
  destruct (message_ring_uses_page_audio h0 o with_inline two p)
    as (_ & Hall & Heach & Hring & _ & _ & Hfull & _); [reflexivity|].
  destruct (message_ring_uses_page_audio h0 o with_inline two
              (with_alarms [wake] initialPage))
    as (_ & _ & _ & _ & _ & _ & _ & Hgone); [reflexivity|].
  split; [exact Hall|].
  assert (Hin : In (mkClient 2 true false, ALARM_FIRED (slim with_inline))
                  (showAlarmNotification (slim with_inline) two).2).
  { apply Heach. right. now left. }
  split; [exact Hin|]. split; [exact (proj1 (proj2 (Hring _ _ Hin)))|]. split.
  - rewrite Hfull by reflexivity. vm_compute. reflexivity.
  - apply Hgone. reflexivity.
Defined.

(** ** The init line *)

Section InitLemmas.

Import Boot.

Lemma lookupProp_setProp (k : string) (v : JsonValue)
    (fields : list (string * JsonValue)) :
  lookupProp k (setProp k v fields) = Some v.
Proof.
  induction fields as [|[k' v'] rest IH]; simpl.
  - now rewrite String.eqb_refl.
  - destruct (String.eqb k' k) eqn:Hk; simpl; rewrite Hk; [reflexivity | exact IH].
Qed.

Lemma lookupProp_setProp_ne (k j : string) (v : JsonValue)
    (fields : list (string * JsonValue)) :
  j <> k -> lookupProp j (setProp k v fields) = lookupProp j fields.
Proof.
  intros Hne. induction fields as [|[k' v'] rest IH]; simpl.
  - apply String.eqb_neq in Hne. rewrite String.eqb_sym in Hne. now rewrite Hne.
  - destruct (String.eqb k' k) eqn:Hk; simpl.
    + apply String.eqb_eq in Hk. subst k'.
      apply not_eq_sym in Hne. apply String.eqb_neq in Hne. now rewrite Hne.
    + destruct (String.eqb k' j); [reflexivity | exact IH].
Qed.

Lemma indexKey_not_category (k : nat) : indexKey k <> "category".
Proof. unfold indexKey. destruct (Nat.to_uint k); discriminate. Qed.

Lemma to_uint_not_Nil (k : nat) : Nat.to_uint k <> Decimal.Nil.
Proof.
  intros Hk. pose proof (DecimalNat.Unsigned.of_to k) as Hof.
  rewrite Hk in Hof. cbn in Hof. subst k. discriminate.
Qed.

Lemma indexKey_inj (i j : nat) : indexKey i = indexKey j -> i = j.
Proof.
  unfold indexKey. intros Heq.
  apply (f_equal NilZero.uint_of_string) in Heq.
  rewrite !NilZero.usu in Heq by apply to_uint_not_Nil. injection Heq as Heq.
  apply (f_equal Nat.of_uint) in Heq.
  now rewrite !DecimalNat.Unsigned.of_to in Heq.
Qed.

Lemma lookupProp_indexed_from {A : Type} (f : A -> JsonValue) (l : list A) :
  forall i k : nat,
    lookupProp (indexKey k) (indexed i (map f l)) =
      if (k <? i)%nat then None else f <$> l !! (k - i)%nat.
Proof.
  induction l as [|x l IH]; intros i k; simpl.
  - now destruct (k <? i)%nat.
  - destruct (String.eqb_spec (indexKey i) (indexKey k)) as [Heq|Hne].
    + apply indexKey_inj in Heq. subst k.
      rewrite Nat.ltb_irrefl, Nat.sub_diag. reflexivity.
    + rewrite IH. assert (k <> i) by congruence.
      destruct (k <? i)%nat eqn:Hlt.
      * apply Nat.ltb_lt in Hlt.
        assert (Hs : (k <? S i)%nat = true) by (apply Nat.ltb_lt; lia).
        now rewrite Hs.
      * apply Nat.ltb_ge in Hlt.
        assert (Hs : (k <? S i)%nat = false) by (apply Nat.ltb_ge; lia).
        rewrite Hs. replace (k - i)%nat with (S (k - S i)) by lia. reflexivity.
Qed.

Lemma lookupProp_indexed (l : list JsonValue) (k : nat) :
  lookupProp (indexKey k) (indexed 0 l) = l !! k.
Proof.
  rewrite <- (map_id l) at 1. rewrite lookupProp_indexed_from.
  cbn. rewrite Nat.sub_0_r. now destruct (l !! k).
Qed.

Lemma withCategory_Throw (a : JsonValue) : withCategory a = Throw <-> a = JNull.
Proof. unfold withCategory. destruct a; simpl; split; congruence. Qed.

Lemma withCategory_Return (a v : JsonValue) :
  withCategory a = Return v ->
  exists fields c,
    v = JObject fields /\ lookupProp "category" fields = Some c /\
    truthy c = true /\ c = categoryOr a /\
    forall j, j <> "category" -> lookupProp j fields = lookupProp j (spread a).
Proof.
  unfold withCategory. destruct (getCategory a) as [c|] eqn:Hc; [|discriminate].
  intros [= <-]. eexists. eexists. split; [reflexivity|].
  split; [apply lookupProp_setProp|]. split; [|split].
  - destruct c as [c|]; [|reflexivity]. destruct (truthy c) eqn:Ht; [exact Ht | reflexivity].
  - destruct a; simpl in Hc; try discriminate; injection Hc as <-; reflexivity.
  - intros j Hj. now apply lookupProp_setProp_ne.
Qed.

Lemma mapC_Throw (l : list JsonValue) :
  mapC withCategory l = Throw <-> In JNull l.
Proof.
  induction l as [|a l IH]; simpl; [split; [discriminate | tauto]|].
  destruct (withCategory a) as [v|] eqn:Ha.
  - assert (a <> JNull) by (intros ->; discriminate).
    destruct (mapC withCategory l) as [vs|].
    + split; [discriminate|]. intros [Heq|Hin]; [congruence|].
      apply IH in Hin. discriminate.
    + split; [intros _; right; now apply IH | reflexivity].
  - apply withCategory_Throw in Ha. split; [now left | reflexivity].
Qed.

Lemma mapC_Return (l l' : list JsonValue) :
  mapC withCategory l = Return l' ->
  length l' = length l /\
  forall (i : nat) (a : JsonValue),
    l !! i = Some a -> exists v, l' !! i = Some v /\ withCategory a = Return v.
Proof.
  revert l'. induction l as [|a l IH]; intros l' Hmap; simpl in Hmap.
  - injection Hmap as <-. split; [reflexivity|]. intros i b Hb. discriminate.
  - destruct (withCategory a) as [v|] eqn:Ha; [|discriminate].
    destruct (mapC withCategory l) as [vs|]; [|discriminate].
    injection Hmap as <-. destruct (IH vs eq_refl) as [Hlen Hnth].
    split; [simpl; now rewrite Hlen|].
    intros [|i] b Hb; simpl in Hb.
    + injection Hb as <-. exists v. split; [reflexivity | exact Ha].
    + apply (Hnth i b Hb).
Qed.

End InitLemmas.

(** X10. The init line survives what [loadAlarms] tolerates (nothing
    stored, unreadable store, text that does not parse): it starts with no
    alarms. For a stored array it throws exactly when an element is
    [null]; otherwise it yields as many objects as there were elements,
    each with a truthy [category] (its own when that is truthy, else
    ["regular"]) and with every other property of the stored element
    unchanged: the properties of an object, the indices of an array, one
    index per UTF-16 code unit of a string, none for a number or a
    boolean. *)
Theorem initAlarms_behaviour (h : Host) (p : Page) :
  (loadAlarms h p = Return [] -> Boot.initAlarms h p = Return []) /\
  (forall l : list JsonValue,
     loadAlarms h p = Return l ->
     (Boot.initAlarms h p = Throw <-> In JNull l) /\
     (forall l', Boot.initAlarms h p = Return l' ->
        length l' = length l /\
        forall (i : nat) (a : JsonValue),
          l !! i = Some a ->
          exists fields c,
            l' !! i = Some (JObject fields) /\
            Boot.lookupProp "category" fields = Some c /\
            Boot.truthy c = true /\
            c = Boot.categoryOr a /\
            (forall j, j <> "category" ->
               Boot.lookupProp j fields = Boot.lookupProp j (Boot.spread a)) /\
            match a with
            | JObject own =>
                forall j, j <> "category" ->
                  Boot.lookupProp j fields = Boot.lookupProp j own
            | JArray items =>
                forall k : nat,
                  Boot.lookupProp (Boot.indexKey k) fields = items !! k
            | JString text =>
                forall k : nat,
                  Boot.lookupProp (Boot.indexKey k) fields =
                    JString <$> Boot.codeUnits text !! k
            | _ => forall j, j <> "category" -> Boot.lookupProp j fields = None
            end)).
Proof.
  unfold Boot.initAlarms. split.
  - intros ->. reflexivity.
  - intros l ->. split; [apply mapC_Throw|].
    intros l' Hmap. destruct (mapC_Return l l' Hmap) as [Hlen Hnth].
    split; [exact Hlen|]. intros i a Ha.
    destruct (Hnth i a Ha) as (v & Hv & Hwith).
    destruct (withCategory_Return a v Hwith)
      as (fields & c & -> & Hc & Ht & Hown & Hrest).
    exists fields, c. repeat (split; [assumption|]).
    destruct a as [|b|n|text|items|own]; try exact Hrest.
    + intros k. rewrite Hrest by apply indexKey_not_category.
      cbn [Boot.spread]. unfold Boot.chars. rewrite lookupProp_indexed.
      apply list_lookup_fmap.
    + intros k. rewrite Hrest by apply indexKey_not_category.
      cbn [Boot.spread]. apply lookupProp_indexed.
Qed.

Lemma initAlarms_behaviour_witness :
  Boot.initAlarms h1 (with_storage (Some "[{id:") initialPage) = Return [] /\
  Boot.initAlarms h1 (with_storage (Some "[1,null]") initialPage) = Throw /\
  (forall l' : list JsonValue,
     Boot.initAlarms h_saved (with_storage (Some "saved") initialPage)
       = Return l' ->
     length l' = 2%nat /\
     exists fields : list (string * JsonValue),
       l' !! 1%nat = Some (JObject fields) /\
       Boot.lookupProp "category" fields = Some (JString "regular") /\
       Boot.lookupProp "0" fields = Some (JString "é") /\
       Boot.lookupProp "1" fields = None).
Proof.
  destruct (initAlarms_behaviour h1 (with_storage (Some "[{id:") initialPage))
    as [Hempty _].
  destruct (initAlarms_behaviour h1 (with_storage (Some "[1,null]") initialPage))
    as [_ Harr].
  destruct (initAlarms_behaviour h_saved (with_storage (Some "saved") initialPage))
    as [_ Hsaved].
  split; [apply Hempty; reflexivity|]. split.
  - destruct (Harr [JNumber 1; JNull]) as [Hthrow _]; [reflexivity|].
    apply Hthrow. right. now left.
  - intros l' Hl'.
    destruct (Hsaved [JObject [("id", JString "a1")]; JString "é"])
      as [_ Hret]; [reflexivity|].
    destruct (Hret l' Hl') as [Hlen Hnth]. split; [exact Hlen|].
    destruct (Hnth 1%nat (JString "é") eq_refl)
      as (fields & c & Hat & Hcat & _ & Hc & _ & Hunits).
    exists fields. split; [exact Hat|]. split; [now rewrite Hcat, Hc|].
    split; [exact (Hunits 0%nat) | exact (Hunits 1%nat)].
Defined.

(** A stored string is spread by UTF-16 code unit: one index for a
    character of the basic plane, two for a character beyond it. *)
Example spread_of_strings :
  Boot.codeUnits "aé€" = ["a"; "é"; "€"] /\
  length (Boot.codeUnits "😀") = 2%nat /\
  Boot.withCategory (JString "é")
    = Return (JObject [("0", JString "é"); ("category", JString "regular")]) /\
  Boot.withCategory (JArray [JBool true; JNull])
    = Return (JObject [("0", JBool true); ("1", JNull);
                       ("category", JString "regular")]) /\
  Boot.withCategory (JObject [("id", JString "a1"); ("category", JString "")])
    = Return (JObject [("id", JString "a1"); ("category", JString "regular")]).
Proof. repeat split; vm_compute; reflexivity. Qed.

(** ** The editor *)

Section FindIndex.

Context {A : Type} (f : A -> bool).

Lemma findIndex_Some (l : list A) :
  forall i : nat,
    findIndex f l = Some i ->
    exists x : A,
      l !! i = Some x /\ f x = true /\ List.find f l = Some x /\
      forall (j : nat) (y : A), (j < i)%nat -> l !! j = Some y -> f y = false.
Proof.
  induction l as [|x l IH]; intros i Hi; simpl in Hi; [discriminate|].
  destruct (f x) eqn:Hx.
  - injection Hi as <-. exists x. simpl. rewrite Hx.
    repeat split; try reflexivity. intros j y Hj. lia.
  - destruct (findIndex f l) as [i'|]; [|discriminate].
    injection Hi as <-. destruct (IH i' eq_refl) as (y & Hy & Hfy & Hfind & Hmin).
    exists y. simpl. rewrite Hx. repeat split; try assumption.
    intros [|j] z Hj Hz; simpl in Hz.
    + injection Hz as <-. exact Hx.
    + apply (Hmin j z); [lia | exact Hz].
Qed.


End FindIndex.

Lemma onEdit_alarms (h : Host) (l : list Alarm) (p : Page) :
  alarms (onEdit h l p) = l.
Proof. unfold onEdit. now rewrite renderAlarms_alarms, saveAlarms_alarms. Qed.






(** With a stored alarm whose card cannot be built, the save goes through
    but the modal stays open on the edited alarm. *)
Example save_leaves_modal_open :
  let s := mkApp (with_alarms [spaced; with_inline] initialPage)
             (openEditModal [spaced; with_inline] "k9" initialEditor) ∅ in
  let s' := onSaveClick h_strict "zz" true morning_form s in
  editingId (editor s') = Some "k9" /\
  (time <$> alarms (page s') !! 1%nat) = Some "06:15" /\
  cardsRegular (page s') = [] /\ cardsPuasa (page s') = [].
Proof. repeat split; vm_compute; reflexivity. Qed.

(** Editing the alarm with inline audio and keeping its audio in the modal
    stores a record without any audio source. *)
Example edit_drops_inline_audio :
  let s' := onSaveClick h0 "zz" true morning_form two_alarms in
  pendingKeepExisting (editor two_alarms) = true /\
  (hasAudio <$> alarms (page s') !! 1%nat) = Some false.
Proof. split; vm_compute; reflexivity. Qed.

(** X13. Deleting a card removes every alarm carrying the card's id and
    nothing else, keeps the order of the rest, and, when the database
    request succeeds, removes the blob stored under the card's audio key
    and no other blob. The cards are rebuilt from the new list: when the
    card of every remaining alarm can be built each of them is on one of
    the two lists; otherwise [renderAlarms] throws and no alarm whose card
    cannot be built is shown. *)
Theorem delete_removes_alarm (h : Host) (dbOk : bool) (alarm : Alarm) (s : App) :
  let s' := onDeleteClick h dbOk alarm s in
  let l' := alarms (page s') in
  (forall b : Alarm, In b l' <-> In b (alarms (page s)) /\ id b <> id alarm) /\
  sublist l' (alarms (page s)) /\
  ((forall b : Alarm, In b l' -> buildCardThrows h b = false) ->
   cardsRegular (page s') ++ cardsPuasa (page s') ≡ₚ l') /\
  (forall b : Alarm,
     In b (cardsRegular (page s') ++ cardsPuasa (page s'))%list ->
     In b l' /\ buildCardThrows h b = false) /\
  (forall k : string, blobKey alarm = Some k -> dbOk = true ->
     blobs s' !! k = None) /\
  (forall k : string, blobKey alarm <> Some k -> blobs s' !! k = blobs s !! k) /\
  editor s' = editor s.
Proof.
  cbv zeta. unfold onDeleteClick. cbn [page blobs editor].
  rewrite onEdit_alarms. repeat apply conj.
  - intros b. rewrite filter_In, negb_true_iff, String.eqb_neq. reflexivity.
  - induction (alarms (page s)) as [|x l IH]; simpl; [constructor|].
    destruct (negb (String.eqb (id x) (id alarm)));
      [now apply sublist_skip | now apply sublist_cons].
  - intros Hsafe. unfold onEdit.
    etransitivity;
      [apply renderAlarms_perm; now rewrite saveAlarms_alarms|].
    now rewrite saveAlarms_alarms.
  - intros b Hb. unfold onEdit in Hb.
    apply renderAlarms_shown in Hb. now rewrite saveAlarms_alarms in Hb.
  - intros k -> ->. apply lookup_delete_eq.
  - intros k Hk. destruct (blobKey alarm) as [k'|]; [|reflexivity].
    destruct dbOk; [|reflexivity]. apply lookup_delete_ne. congruence.
  - reflexivity.
Qed.

Lemma find_absent (l : list Alarm) (x : string) :
  ~ In x (map id l) -> List.find (fun b => String.eqb (id b) x) l = None.
Proof.
  induction l as [|b l IH]; intros Hx; simpl; [reflexivity|].
  destruct (String.eqb_spec (id b) x) as [Heq|Hne].
  - exfalso. apply Hx. now left.
  - apply IH. intros Hin. apply Hx. now right.
Qed.

Lemma find_snoc (l : list Alarm) (a : Alarm) :
  ~ In (id a) (map id l) ->
  List.find (fun b => String.eqb (id b) (id a)) (l ++ [a]) = Some a.
Proof.
  induction l as [|b l IH]; intros Hx; simpl.
  - now rewrite String.eqb_refl.
  - destruct (String.eqb_spec (id b) (id a)) as [Heq|Hne].
    + exfalso. apply Hx. now left.
    + apply IH. intros Hin. apply Hx. now right.
Qed.

Lemma findIndex_absent (l : list Alarm) (x : string) :
  ~ In x (map id l) -> findIndex (fun b => String.eqb (id b) x) l = None.
Proof.
  induction l as [|b l IH]; intros Hx; simpl; [reflexivity|].
  destruct (String.eqb_spec (id b) x) as [Heq|Hne].
  - exfalso. apply Hx. now left.
  - rewrite IH; [reflexivity|]. intros Hin. apply Hx. now right.
Qed.

Lemma startsWith_audio (file : AudioFile) (ed : Editor) :
  startsWith (fileType file) "audio/" = true ->
  fileSize file <= MAX_FILE_BYTES ->
  processAudioFile file ed =
    mkEditor (editingId ed) None (Some (fileName file)) (Some file) false.
Proof.
  intros Hty Hsz. unfold processAudioFile. rewrite Hty. cbn [negb].
  destruct (fileSize file >? MAX_FILE_BYTES) eqn:Hgt; [|reflexivity].
  rewrite Z.gtb_ltb in Hgt. apply Z.ltb_lt in Hgt. lia.
Qed.

(** X11. A file whose type does not start with ["audio/"] or whose size
    exceeds 20971520 bytes is ignored by the upload handler. An accepted
    file that is saved with a new alarm is stored in the blob store under
    the alarm's id, which is also the alarm's audio key; the lookup that
    [fireAlarm] awaits then finds it and, when playback starts, the ring
    sounds that blob. *)
Theorem uploaded_audio_round_trip (h : Host) (fresh : string) (f : Form)
    (file : AudioFile) (s : App) (mkUrl : AudioFile -> string) :
  (startsWith (fileType file) "audio/" = false \/
   MAX_FILE_BYTES < fileSize file ->
   appStep h (AeUpload file) s = s) /\
  (startsWith (fileType file) "audio/" = true ->
   fileSize file <= MAX_FILE_BYTES ->
   Js.truthy (formTime f) = true -> Js.truthy fresh = true ->
   editedId (editor s) = None ->
   ~ In fresh (map id (alarms (page s))) ->
   let s2 := appStep h (AeSave fresh true f) (appStep h (AeUpload file) s) in
   exists a : Alarm,
     alarms (page s2) = (alarms (page s) ++ [a])%list /\
     id a = fresh /\ enabled a = true /\ blobKey a = Some fresh /\
     audioName a = Some (fileName file) /\
     blobs s2 !! fresh = Some file /\
     getAudioFromDB true mkUrl fresh (blobs s2) = BlobFound (mkUrl file) /\
     forall ifail : bool,
       soundOf
         (ringingSequence h
            (mkOutcome ifail (getAudioFromDB true mkUrl fresh (blobs s2)) false)
            a (page s2))
       = Some (BlobSound (mkUrl file))).
Proof.
  split.
  - intros Hbad. cbn [appStep]. unfold withEditor, processAudioFile.
    destruct Hbad as [-> | Hbig]; cbn [negb].
    + now destruct s.
    + destruct (negb (startsWith (fileType file) "audio/")); [now destruct s|].
      assert (Hgt : (fileSize file >? MAX_FILE_BYTES) = true)
        by (rewrite Z.gtb_ltb; now apply Z.ltb_lt).
      rewrite Hgt. now destruct s.
  - intros Hty Hsz Ht Hfresh Hed Hnew s2.
    set (a := formData f fresh (Some fresh) (Some (fileName file))).
    assert (Hkey : blobKey a = Some fresh) by (cbn; now rewrite Hfresh).
    assert (Hs2 : exists ed : Editor,
              s2 = mkApp (onEdit h (alarms (page s) ++ [a]) (page s)) ed
                     (<[fresh := file]> (blobs s))).
    { subst s2. cbn [appStep]. unfold withEditor, onSaveClick.
      cbn [editor page blobs]. rewrite Ht. cbn [negb].
      rewrite (startsWith_audio file (editor s) Hty Hsz).
      cbn [pendingAudioFile pendingAudioName].
      unfold storeData, pickId, editedId in *. cbn [editingId].
      destruct (editingId (editor s)) as [i|]; [|eexists; reflexivity].
      destruct (Js.truthy i); [discriminate | eexists; reflexivity]. }
    destruct Hs2 as [ed Hs2].
    assert (Hstore : blobs s2 !! fresh = Some file)
      by (rewrite Hs2; apply lookup_insert_eq).
    assert (Hget : getAudioFromDB true mkUrl fresh (blobs s2) = BlobFound (mkUrl file))
      by (unfold getAudioFromDB; now rewrite Hstore).
    exists a. rewrite Hget.
    assert (Hal : alarms (page s2) = (alarms (page s) ++ [a])%list)
      by (rewrite Hs2; apply onEdit_alarms).
    repeat split; try assumption.
    intros ifail. unfold ringingSequence. rewrite fireAlarm_cases, Hal.
    assert (Hfull : fullAlarmOf (alarms (page s) ++ [a]) a = a).
    { unfold fullAlarmOf. now rewrite (find_snoc (alarms (page s)) a Hnew). }
    rewrite Hfull, Hkey. cbn [inlineAudio audioDataUrl a formData blob].
    destruct h as [js jp gt st sc granted ctx throws prom miss].
    destruct granted; reflexivity.
Qed.

Lemma uploaded_audio_round_trip_witness :
  let s2 := appStep h0 (AeSave "n1" true morning_form)
              (appStep h0 (AeUpload adzan_file) initialApp) in
  appStep h0 (AeUpload (mkAudioFile "video/mp4" 10 "clip.mp4")) initialApp
    = initialApp /\
  blobs s2 !! "n1" = Some adzan_file /\
  exists a : Alarm, alarms (page s2) = [a] /\ blobKey a = Some "n1".
Proof.
  intros s2.
  destruct (uploaded_audio_round_trip h0 "n1" morning_form
              (mkAudioFile "video/mp4" 10 "clip.mp4") initialApp fileName)
    as [Hbad _].
  destruct (uploaded_audio_round_trip h0 "n1" morning_form adzan_file initialApp
              fileName) as [_ Hgood].
  destruct Hgood as (a & Hal & _ & _ & Hkey & _ & Hstore & _);
    try reflexivity; [vm_compute; discriminate | intros []|].
  split; [apply Hbad; now left|]. split; [exact Hstore|].
  exists a. split; [exact Hal | exact Hkey].
Defined.

(** ** Audio keys and the blob store *)

Section KeyedLists.

Implicit Types (l : list Alarm) (store : gmap string AudioFile).





End KeyedLists.





Lemma blobKey_idem (a : Alarm) (k : string) :
  blobKey a = Some k -> Js.truthy k = true.
Proof.
  unfold blobKey. destruct (audioKey a) as [k'|]; [|discriminate].
  destruct (Js.truthy k') eqn:Ht; [|discriminate]. now intros [= <-].
Qed.






Example editor_session_result :
  (id <$> alarms (page (appRun h0 editor_session initialApp))) = ["n1"] /\
  (enabled <$> alarms (page (appRun h0 editor_session initialApp))) = [false] /\
  blobs (appRun h0 editor_session initialApp) !! "n1" = Some adzan_file.
Proof. repeat split; vm_compute; reflexivity. Qed.

(** X15. Opening the edit modal for an alarm that has a stored blob and
    saving keeps the audio key and the blob. Pressing the remove button of
    the upload preview before saving stores the record without an audio
    key and, when the database request succeeds, deletes the blob. *)
Theorem edit_keeps_or_removes_audio (h : Host) (fresh : string) (dbOk : bool)
    (f : Form) (s : App) (eid k : string) (i : nat) (old : Alarm) :
  Js.truthy (formTime f) = true -> Js.truthy eid = true ->
  findIndex (fun a => String.eqb (id a) eid) (alarms (page s)) = Some i ->
  alarms (page s) !! i = Some old -> blobKey old = Some k ->
  let opened := appStep h (AeOpenEdit eid) s in
  let kept := appStep h (AeSave fresh dbOk f) opened in
  let removed :=
    appStep h (AeSave fresh dbOk f) (appStep h AeRemoveUpload opened) in
  (exists a : Alarm,
     alarms (page kept) !! i = Some a /\ blobKey a = Some k /\
     audioName a = audioNameOr old None /\ blobs kept = blobs s) /\
  (exists a : Alarm,
     alarms (page removed) !! i = Some a /\ blobKey a = None /\
     audioName a = None /\
     blobs removed = if dbOk then delete k (blobs s) else blobs s).
Proof.
  intros Ht Heid Hidx Hold Hk opened kept removed.
  destruct (findIndex_Some _ _ _ Hidx) as (x & Hx & _ & Hfind & _).
  assert (x = old) by congruence. subst x.
  assert (Hlt : (i < length (alarms (page s)))%nat) by now apply lookup_lt_Some in Hold.
  assert (Haudio : hasAudio old = true).
  { unfold hasAudio. rewrite Hk. now destruct (inlineAudio old). }
  assert (Hopen : editor opened =
            mkEditor (Some eid) None (audioNameOr old (Some "audio")) None true).
  { subst opened. cbn [appStep withEditor editor]. unfold openEditModal.
    now rewrite Hfind, Haudio. }
  assert (Hpo : page opened = page s) by reflexivity.
  assert (Hbo : blobs opened = blobs s) by reflexivity.
  assert (Hed : editedId (editor opened) = Some eid)
    by (rewrite Hopen; unfold editedId; cbn [editingId]; now rewrite Heid).
  assert (Hnofile : pendingAudioFile (editor opened) = None) by now rewrite Hopen.
  assert (Hkeep : pendingKeepExisting (editor opened) = true) by now rewrite Hopen.
  set (cleared := appStep h AeRemoveUpload opened) in *.
  assert (Hpc : page cleared = page s) by reflexivity.
  assert (Hbc : blobs cleared = blobs s) by reflexivity.
  assert (Hedc : editedId (editor cleared) = Some eid).
  { subst cleared. cbn [appStep withEditor editor]. unfold editedId in *.
    cbn [clearPendingAudio editingId]. exact Hed. }
  assert (Hnofilec : pendingAudioFile (editor cleared) = None) by reflexivity.
  assert (Hkeepc : pendingKeepExisting (editor cleared) = false) by reflexivity.
  split.
  - subst kept. cbn [appStep]. unfold onSaveClick.
    rewrite Ht, Hnofile. cbn [negb]. unfold pickId.
    rewrite Hed, Hpo, Hfind, Hkeep, Hbo.
    cbn [page blobs]. rewrite onEdit_alarms. unfold storeData.
    rewrite Hed, Hidx.
    eexists. split; [now apply list_lookup_insert_eq|].
    split; [|split; reflexivity].
    unfold blobKey at 1. cbn [audioKey formData]. rewrite Hk.
    now rewrite (blobKey_idem old k Hk).
  - subst removed. cbn [appStep]. unfold onSaveClick.
    rewrite Ht, Hnofilec. cbn [negb]. unfold pickId.
    rewrite Hedc, Hpc, Hfind, Hkeepc, Hk, Hbc.
    cbn [page blobs]. rewrite onEdit_alarms. unfold storeData.
    rewrite Hedc, Hidx.
    eexists. split; [now apply list_lookup_insert_eq|].
    repeat split.
Qed.

Lemma edit_keeps_or_removes_audio_witness :
  let opened := appStep h0 (AeOpenEdit "n1") keyed_app in
  (exists a : Alarm,
     alarms (page (appStep h0 (AeSave "zz" true morning_form) opened)) !! 1%nat
       = Some a /\ blobKey a = Some "n1") /\
  blobs (appStep h0 (AeSave "zz" true morning_form)
           (appStep h0 AeRemoveUpload opened)) = delete "n1" (blobs keyed_app).
Proof.
  intros opened.
  destruct (edit_keeps_or_removes_audio h0 "zz" true morning_form keyed_app
              "n1" "n1" 1%nat keyed_alarm)
    as [(a & Ha & Hk & _) (b & _ & _ & _ & Hb)]; try reflexivity.
  split; [exists a; auto | exact Hb].
Defined.

(** X16. The save handler gives up without a trace when the time is empty
    or when the chosen file cannot be written to the database: page,
    modal and blob store are exactly as before, the modal still open with
    the file pending, so that a second click once the database works
    again gives what a first successful click would have given. *)
Theorem save_aborts_cleanly (h : Host) (fresh : string) (dbOk : bool)
    (f : Form) (s : App) :
  (Js.truthy (formTime f) = false -> onSaveClick h fresh dbOk f s = s) /\
  (pendingAudioFile (editor s) <> None ->
   onSaveClick h fresh false f s = s /\
   onSaveClick h fresh true f (onSaveClick h fresh false f s)
     = onSaveClick h fresh true f s).
Proof.
  split.
  - intros Ht. unfold onSaveClick. now rewrite Ht.
  - intros Hfile.
    assert (Hsame : onSaveClick h fresh false f s = s).
    { unfold onSaveClick. destruct (negb (Js.truthy (formTime f))); [reflexivity|].
      destruct (pendingAudioFile (editor s)); [reflexivity | contradiction]. }
    split; [exact Hsame | now rewrite Hsame].
Qed.

Lemma save_aborts_cleanly_witness :
  let s := appStep h0 (AeUpload adzan_file) initialApp in
  onSaveClick h0 "n1" true (mkForm EmptyString "x" [] "regular" true) s = s /\
  onSaveClick h0 "n1" false morning_form s = s.
Proof.
  intros s.
  destruct (save_aborts_cleanly h0 "n1" true (mkForm EmptyString "x" [] "regular" true) s)
    as [Hempty _].
  destruct (save_aborts_cleanly h0 "n1" false morning_form s) as [_ Hdb].
  split; [apply Hempty; reflexivity|].
  apply Hdb. discriminate.
Defined.

(** ** What a tick leaves alone *)

(** X17. Switching a card's toggle off writes [enabled = false] into that
    record, saves the list, and stops the alarm: no later tick fires that
    position until its toggle is switched on or the array is replaced. All
    other records stay as they were. *)
Theorem toggle_off_stops_alarm (h : Host) (p : Page) (i : nat) (a : Alarm) :
  alarms p !! i = Some a ->
  let p' := onToggle h i false p in
  alarms p' = <[i := set_enabled false a]> (alarms p) /\
  (forall j : nat, j <> i -> alarms p' !! j = alarms p !! j) /\
  storage p' = storage (saveAlarms h (with_alarms (alarms p') p)) /\
  forall es : list Event,
    Forall (keepsDisabled i) es ->
    forall (j : nat) (b : Alarm), In (j, b) (run h es p').1 -> j <> i.
Proof.
  intros Hi p'.
  assert (Hal : alarms p' = <[i := set_enabled false a]> (alarms p)).
  { subst p'. unfold onToggle. rewrite Hi. now rewrite saveAlarms_alarms. }
  repeat apply conj.
  - exact Hal.
  - intros j Hj. rewrite Hal. apply list_lookup_insert_ne. congruence.
  - subst p'. unfold onToggle. rewrite Hi. rewrite saveAlarms_alarms. reflexivity.
  - intros es Hes. apply run_disabledAt; [exact Hes|].
    exists (set_enabled false a). split; [|reflexivity]. rewrite Hal.
    apply list_lookup_insert_eq. now apply lookup_lt_Some in Hi.
Qed.

Lemma toggle_off_stops_alarm_witness :
  let p' := onToggle h0 0 false (with_alarms [weekly; wake] initialPage) in
  alarms p' = [set_enabled false weekly; wake] /\
  forall (j : nat) (b : Alarm),
    In (j, b) (run h0 minute_0830_events p').1 -> j <> 0%nat.
Proof.
  intros p'.
  destruct (toggle_off_stops_alarm h0 (with_alarms [weekly; wake] initialPage)
              0%nat weekly) as (Hal & _ & _ & Hnever); [reflexivity|].
  split; [exact Hal|].
  apply Hnever. unfold minute_0830_events. repeat constructor.
Defined.

(** X18. A tick touches the alarm list, the stored text, the posted
    payloads and the cards only when it fires a one-shot alarm. When it
    fires nothing it changes just the fired table and the remembered
    minute; when it fires an alarm with days it also starts the ring, and
    that is all. *)
Theorem tick_frame (h : Host) (now : Clock) (hh mm : string) (p : Page) :
  let r := tickAlarms h now hh mm p in
  let cm := hh +:+ ":" +:+ mm in
  let keys := (rollover cm (lastCheckedMinute p) (firedKeys p)).2 in
  (r.1 = None -> r.2 = with_fired (Some cm) keys p) /\
  (forall (i : nat) (a : Alarm),
     r.1 = Some (i, a) -> hasDays a = true ->
     r.2 = fireAlarm h a
             (with_fired (Some cm) (<[firedKey a cm := true]> keys) p) /\
     alarms r.2 = alarms p /\ storage r.2 = storage p /\
     posted r.2 = posted p /\ cardsRegular r.2 = cardsRegular p /\
     cardsPuasa r.2 = cardsPuasa p).
Proof.
  cbv zeta. split.
  - intros Hnone.
    destruct (Z_gt_le_dec (getSeconds now) 4) as [Hss|Hss];
      [rewrite tick_closed by (left; lia); reflexivity|].
    destruct (currentRinging p) eqn:Hr;
      [rewrite tick_closed by (right; congruence); reflexivity|].
    rewrite tick_open in Hnone |- * by assumption.
    destruct (scan _ _ _ _ _) as [[i a]|]; [discriminate | reflexivity].
  - intros i a Hf Hdays.
    destruct (tick_fired_inv h now hh mm p i a Hf) as (Hss & Hr & Hscan).
    rewrite tick_open by assumption. rewrite Hscan. cbn [snd]. rewrite Hdays.
    split; [reflexivity|]. repeat split; frame.
Qed.

Lemma tick_frame_witness :
  let p := with_alarms [weekly] initialPage in
  let r := tickAlarms h0 (mkClock 8 30 1 3) "08" "30" p in
  alarms r.2 = [weekly] /\ storage r.2 = None /\ posted r.2 = [].
Proof.
  intros p r.
  destruct (tick_frame h0 (mkClock 8 30 1 3) "08" "30" p) as [_ Hrec].
  destruct (Hrec 0%nat weekly) as (_ & Ha & Hs & Hp & _);
    [vm_compute; reflexivity | reflexivity |].
  auto.
Defined.

Lemma delete_removes_alarm_witness :
  let s' := onDeleteClick h_strict true keyed_alarm keyed_app in
  alarms (page s') = [wake] /\ blobs s' !! "n1" = None /\
  cardsRegular (page s') ++ cardsPuasa (page s') ≡ₚ alarms (page s').
Proof.
  intros s'.
  destruct (delete_removes_alarm h_strict true keyed_alarm keyed_app)
    as (_ & _ & Hcards & _ & Hblob & _).
  split; [reflexivity|]. split; [apply Hblob; reflexivity|].
  apply Hcards. intros b Hb. apply plainName_builds.
  vm_compute in Hb. destruct Hb as [<-|[]]. reflexivity.
Defined.
